(** * blockrsync: a shallow embedding of the block-sync engine

    The development follows the Go sources of [pkg/blockrsync] and
    [pkg/proxy]: the file hasher (hash map, diff, wire format of the hash
    map), the block framing codec, the target-side application of block
    records, the source-side emission of block records, the dial loops
    and the proxy's header exchange.  Go's [int64] is [Z] with the
    wrap-around written out where the code multiplies, byte slices are
    [list byte], Go maps are [gmap]s and every fallible call returns its
    [error] explicitly. *)

From Stdlib Require Import ZArith Lia Strings.Byte.
From stdpp Require Import gmap strings list fin_maps sorting pretty.

Open Scope Z_scope.

(** ** Bytes and little-endian integers *)

Abbreviation bytes := (list byte).

#[global] Instance byte_eq_decision : EqDecision byte := Byte.byte_eq_dec.

(** [bytes.Equal]: equality of contents. *)
Definition bytes_Equal (a b : bytes) : bool := bool_decide (a = b).

(** [make([]byte, n)] for a non-negative [n]: [n] zero bytes. *)
Definition zeros (n : nat) : bytes := replicate n x00.

Definition byte_of_Z (z : Z) : byte :=
  match Byte.of_N (Z.to_N (z mod 256)) with
  | Some b => b
  | None => x00
  end.

Definition Z_of_byte (b : byte) : Z := Z.of_N (Byte.to_N b).

(** Range of Go's [int64] and its wrap-around. *)
Definition int64_min : Z := - 2 ^ 63.
Definition int64_max : Z := 2 ^ 63 - 1.

Definition in_int64 (z : Z) : Prop := int64_min <= z <= int64_max.

Definition wrap64 (z : Z) : Z := (z + 2 ^ 63) mod 2 ^ 64 - 2 ^ 63.

(** Little-endian encoding of the low [n] bytes of [u]. *)
Fixpoint le_encode (n : nat) (u : Z) : bytes :=
  match n with
  | O => []
  | S n' => byte_of_Z u :: le_encode n' (u / 256)
  end.

Fixpoint le_decode (l : bytes) : Z :=
  match l with
  | [] => 0
  | b :: l' => Z_of_byte b + 256 * le_decode l'
  end.

(** [binary.LittleEndian] on an [int64]: eight bytes, two's complement. *)
Definition put_int64 (v : Z) : bytes := le_encode 8 (v mod 2 ^ 64).

Definition get_int64 (l : bytes) : Z := wrap64 (le_decode l).

(** ** Errors

    Go's [error] values that the engine produces or inspects; [nil] is
    [None] in an [option error]. *)

Inductive error : Type :=
  | EOF                       (* io.EOF *)
  | ErrUnexpectedEOF          (* io.ErrUnexpectedEOF *)
  | ENOTSUP                   (* syscall.ENOTSUP *)
  | ErrPunchHoleNotSupported  (* sparse.go *)
  | ErrNew (msg : string)     (* errors.New(msg) *)
  | Errorf (fmt : string) (arg : Z)   (* fmt.Errorf(fmt, arg) *)
  | ErrIO (code : Z).         (* any other error of the OS or the network *)

#[global] Instance error_eq_decision : EqDecision error.
Proof. solve_decision. Defined.

(** ** Results of calls

    A call returns normally, returns a non-nil [error], or panics (Go's
    run-time panic, as [make] with a negative length raises). *)

Inductive outcome (A : Type) : Type :=
  | Ok (a : A)
  | Fail (e : error)
  | Panic.
Arguments Ok {A} a.
Arguments Fail {A} e.
Arguments Panic {A}.

(** The [error] a function of result type [error] hands to its caller. *)
Definition returned_error (o : outcome unit) : option error :=
  match o with
  | Fail e => Some e
  | _ => None
  end.

(** A call that works on a state [S]: the state it leaves and how it ended.
    [x ← m; k] is the Go idiom [x, err := m(); if err != nil { return err }]. *)
Definition Exec (S A : Type) : Type := S -> S * outcome A.

#[global] Instance Exec_ret {S} : MRet (Exec S) := fun A a s => (s, Ok a).

#[global] Instance Exec_bind {S} : MBind (Exec S) := fun A B k m s =>
  match m s with
  | (s', Ok a) => k a s'
  | (s', Fail e) => (s', Fail e)
  | (s', Panic) => (s', Panic)
  end.

(** Turn a call's [error] result into an early return. *)
Definition check {S} (m : S -> S * option error) : Exec S unit := fun s =>
  match m s with
  | (s', None) => (s', Ok tt)
  | (s', Some e) => (s', Fail e)
  end.

Definition fail {S A} (e : error) : Exec S A := fun s => (s, Fail e).

Definition panic {S A} : Exec S A := fun s => (s, Panic).

(** ** Readers and writers

    An [io.Reader] is the bytes still to come and the error it reports once
    they are exhausted ([EOF] for a clean end of stream). *)

Record Reader : Type := mkReader { pending : bytes; closing : error }.

(** [r.Read(p)] with [len(p) = n > 0]: what is there, at most [n] bytes. *)
Definition Read (r : Reader) (n : nat) : Reader * (bytes * option error) :=
  match pending r with
  | [] => (r, ([], Some (closing r)))
  | _ => (mkReader (drop n (pending r)) (closing r), (take n (pending r), None))
  end.

(** [io.ReadFull(r, buf)] with [len(buf) = n]: exactly [n] bytes, or the
    bytes read and an error; a stream that ends cleanly after some but not
    all bytes gives [ErrUnexpectedEOF]. *)
Definition ReadFull (r : Reader) (n : nat) : Reader * (bytes * option error) :=
  if decide (n = 0)%nat then (r, ([], None))
  else if decide (n <= length (pending r))%nat then
    (mkReader (drop n (pending r)) (closing r), (take n (pending r), None))
  else
    match pending r with
    | [] => (r, ([], Some (closing r)))
    | _ => (mkReader [] (closing r),
            (pending r,
             Some (if decide (closing r = EOF) then ErrUnexpectedEOF
                   else closing r)))
    end.

(** [binary.Read(r, binary.LittleEndian, &v)] for [v : int64]. *)
Definition binary_Read (r : Reader) : Reader * (Z + error) :=
  let '(r', (bs, err)) := ReadFull r 8 in
  match err with
  | Some e => (r', inr e)
  | None => (r', inl (get_int64 bs))
  end.

(** An [io.Writer]: a state and a [Write] that may fail. *)
Class Writer (W : Type) : Type := Write : W -> bytes -> W * option error.

(** [bytes.Buffer]: appends, never fails. *)
#[global] Instance Buffer_Writer : Writer bytes := fun b p => (b ++ p, None).

(** [binary.Write(w, binary.LittleEndian, v)] for [v : int64]. *)
Definition binary_Write {W} `{Writer W} (w : W) (v : Z) : W * option error :=
  Write w (put_int64 v).

(** ** File hasher (hasher.go) *)

Definition DefaultBlockSize : Z := 64 * 1024.
Definition defaultConcurrency : Z := 25.

Record OffsetHash : Type := mkOffsetHash { Offset : Z; Hash : bytes }.

(** The fields of [FileHasher] that hold data; the two channels [queue] and
    [res] live in the run of [HashFile] below. *)
Record FileHasher : Type := mkFileHasher {
  hashes : gmap Z bytes;
  blockSize : Z;
  fileSize : Z
}.

Definition NewFileHasher (blockSize : Z) : FileHasher :=
  mkFileHasher ∅ blockSize 0.

(** [int64SortFunc] (client.go). *)
Definition int64SortFunc (i j : Z) : Z :=
  if decide (j > i) then -1 else if decide (j < i) then 1 else 0.

Definition int64_before (i j : Z) : Prop := int64SortFunc i j <= 0.

#[global] Instance int64_before_dec i j : Decision (int64_before i j).
Proof. unfold int64_before. apply _. Defined.

(** [slices.SortFunc(keys, int64SortFunc)]: the ascending rearrangement. *)
Definition SortFunc (keys : list Z) : list Z := merge_sort int64_before keys.

(** [binary.Read] and [io.ReadFull] as calls on the reader. *)
Definition read_int64 : Exec Reader Z := fun r =>
  match binary_Read r with
  | (r', inl v) => (r', Ok v)
  | (r', inr e) => (r', Fail e)
  end.

Definition read_full (n : nat) : Exec Reader bytes := fun r =>
  match ReadFull r n with
  | (r', (bs, None)) => (r', Ok bs)
  | (r', (_, Some e)) => (r', Fail e)
  end.

Module FileHasher.

Definition GetHashes (f : FileHasher) : gmap Z bytes := hashes f.

Definition BlockSize (f : FileHasher) : Z := blockSize f.

(** [int(math.Min(float64(defaultConcurrency), float64(int(fileSize/f.blockSize))))]:
    Go's [/] truncates and panics on a zero divisor; the passage through
    [float64] is exact, since the minimum is either 25 or a quotient below
    25 (for quotients that are not below [-2^53]). *)
Definition concurrentHashCount (f : FileHasher) (fileSize : Z) : outcome Z :=
  if decide (blockSize f = 0) then Panic
  else Ok (Z.min defaultConcurrency (fileSize ÷ blockSize f)).

Section MapRange.
(** [for k, v := range m] visits every entry of [m] once, in an order Go
    leaves unspecified: [range] is any such enumeration. *)
Variable range : gmap Z bytes -> list (Z * bytes).

(** Body of the first loop of [DiffHashes]: the state is [diff] and the
    caller's map [cmpHash], which the loop mutates. *)
Definition diff_local (st : list Z * gmap Z bytes) (kv : Z * bytes)
  : list Z * gmap Z bytes :=
  let '(diff, cmpHash) := st in
  let '(k, v) := kv in
  match cmpHash !! k with
  | None => (diff ++ [k], cmpHash)
  | Some w =>
      ((if bytes_Equal v w then diff else diff ++ [k]), delete k cmpHash)
  end.

(** Body of the second loop, over what is left of [cmpHash]. *)
Definition diff_remaining (fileSize : Z) (diff : list Z) (kv : Z * bytes)
  : list Z :=
  if decide (kv.1 < fileSize) then diff ++ [kv.1] else diff.

(** [DiffHashes]: the offsets, the caller's map as the call leaves it,
    and the error. *)
Definition DiffHashes (f : FileHasher) (blockSize' : Z) (cmpHash : gmap Z bytes)
  : list Z * gmap Z bytes * option error :=
  if decide (blockSize' ≠ blockSize f) then
    ([], cmpHash, Some (ErrNew "block size mismatch"))
  else
    let '(diff, cmpHash') :=
      fold_left diff_local (range (hashes f)) ([], cmpHash) in
    (fold_left (diff_remaining (fileSize f)) (range cmpHash') diff,
     cmpHash', None).

Context {W : Type} `{Writer W}.

(** The loop of [SerializeHashes] over the sorted keys; [f.hashes[k]] of
    an absent key is the nil slice. *)
Fixpoint write_hashes (hashes : gmap Z bytes) (keys : list Z) : Exec W unit :=
  match keys with
  | [] => mret tt
  | k :: keys' =>
      check (fun w => binary_Write w k);;
      if decide (length (default [] (hashes !! k)) ≠ 64%nat) then
        fail (ErrNew "invalid hash length")
      else
        check (fun w => Write w (default [] (hashes !! k)));;
        write_hashes hashes keys'
  end.

Definition SerializeHashes (f : FileHasher) : Exec W unit :=
  check (fun w => binary_Write w (blockSize f));;
  check (fun w => binary_Write w (Z.of_nat (size (hashes f))));;
  write_hashes (hashes f) (SortFunc (range (hashes f)).*1).

End MapRange.

(** The loop of [DeserializeHashes]: [count] iterations are left, [length]
    and [blockSize] are the two header fields. *)
Fixpoint read_hashes (count : nat) (length blockSize : Z) (hashes : gmap Z bytes)
  : Exec Reader (gmap Z bytes) :=
  match count with
  | O => mret hashes
  | S count' =>
      offset ← read_int64;
      if decide (offset < 0 ∨ offset > wrap64 (length * blockSize)) then
        fail (Errorf "invalid offset %d" offset)
      else
        hash ← read_full 64;
        read_hashes count' length blockSize (<[offset := hash]> hashes)
  end.

Definition DeserializeHashes : Exec Reader (Z * gmap Z bytes) :=
  blockSize ← read_int64;
  length ← read_int64;
  hashes ← read_hashes (Z.to_nat length) length blockSize ∅;
  mret (blockSize, hashes).

End FileHasher.

(** ** The run of [HashFile]

    [HashFile] starts the goroutine [calculateOffsets], a goroutine that
    waits for the [sync.WaitGroup] and then signals [done], and [count]
    workers, and then serves [res] and [done] in a [select] loop.  Its runs
    are the paths of a step relation over the state of these goroutines. *)

(** A worker goroutine: about to open the file, in [for offset := range
    f.queue], blocked on [f.res <- offsetHash], or returned. *)
Inductive worker : Type :=
  | Opening
  | Ranging
  | Sending (oh : OffsetHash)
  | Exited.

(** The goroutine [wg.Wait(); done <- struct{}{}]. *)
Inductive waiter : Type :=
  | Waiting
  | Signalling
  | Gone.

(** The goroutine of [HashFile] itself: in [for i := 0; i < count; i++], in
    the [select] loop, returned, or stopped by a panic. *)
Inductive hashing : Type :=
  | Spawning (i : Z)
  | Selecting
  | Returned (size : Z) (err : option error)
  | Crashed.

Record HashRun : Type := mkHashRun {
  hasher_of : FileHasher;
  queue : list Z;            (* f.queue, capacity 25 *)
  producer : option Z;       (* [i] of calculateOffsets; [None]: queue closed *)
  res : list OffsetHash;     (* f.res, capacity 25 *)
  wg : Z;                    (* the WaitGroup's counter *)
  workers : list worker;
  wait : waiter;
  pc : hashing
}.

(** The file that is hashed: its bytes, and the error [os.Open] gives. *)
Record SourceFile : Type := mkSourceFile {
  content : bytes;
  open_error : option error
}.

Definition getFileSize (file : SourceFile) : Z * option error :=
  match open_error file with
  | Some e => (0, Some e)
  | None => (Z.of_nat (length (content file)), None)
  end.

(** What [rs.Seek(offset, 0)] and [rs.Read(buf)] with [len(buf)] the block
    size deliver. *)
Definition block_at (file : SourceFile) (blockSize offset : Z) : bytes :=
  take (Z.to_nat blockSize) (drop (Z.to_nat offset) (content file)).

Definition store_hash (f : FileHasher) (oh : OffsetHash) : FileHasher :=
  mkFileHasher (<[Offset oh := Hash oh]> (hashes f)) (blockSize f) (fileSize f).

Section HashFile.
(** BLAKE2b-512 ([blake2b.New512(nil)], [h.Write], [h.Sum(nil)]). *)
Variable blake2b512 : bytes -> bytes.
Variable file : SourceFile.

(** The state in which [HashFile] leaves [getFileSize] with [size]. *)
Definition HashFile_start (f : FileHasher) (size : Z) : HashRun :=
  mkHashRun (mkFileHasher (hashes f) (blockSize f) size)
    [] (Some 0) [] 0 [] Waiting (Spawning 0).

Inductive HashFile_step : HashRun -> HashRun -> Prop :=
  (* calculateOffsets: [f.queue <- i], [i += f.blockSize] *)
  | producer_push f q i r n ws wt p :
      i < fileSize f -> (length q < 25)%nat ->
      HashFile_step (mkHashRun f q (Some i) r n ws wt p)
        (mkHashRun f (q ++ [i]) (Some (wrap64 (i + blockSize f))) r n ws wt p)
  (* calculateOffsets: loop exit and the deferred [close(f.queue)] *)
  | producer_close f q i r n ws wt p :
      ¬ i < fileSize f ->
      HashFile_step (mkHashRun f q (Some i) r n ws wt p)
        (mkHashRun f q None r n ws wt p)
  (* [wg.Wait()] returns once the counter is zero *)
  | waiter_wake f q pr r ws p :
      HashFile_step (mkHashRun f q pr r 0 ws Waiting p)
        (mkHashRun f q pr r 0 ws Signalling p)
  (* concurrentHashCount panics *)
  | main_crash f q pr r n ws wt :
      FileHasher.concurrentHashCount f (fileSize f) = Panic ->
      HashFile_step (mkHashRun f q pr r n ws wt (Spawning 0))
        (mkHashRun f q pr r n ws wt Crashed)
  (* [wg.Add(1)] and [go func(h hash.Hash) {...}(h)] *)
  | main_spawn f q pr r n ws wt i count :
      FileHasher.concurrentHashCount f (fileSize f) = Ok count -> i < count ->
      HashFile_step (mkHashRun f q pr r n ws wt (Spawning i))
        (mkHashRun f q pr r (n + 1) (ws ++ [Opening]) wt (Spawning (i + 1)))
  | main_spawned f q pr r n ws wt i count :
      FileHasher.concurrentHashCount f (fileSize f) = Ok count -> ¬ i < count ->
      HashFile_step (mkHashRun f q pr r n ws wt (Spawning i))
        (mkHashRun f q pr r n ws wt Selecting)
  (* [case offsetHash := <-f.res] *)
  | main_receive f q pr oh r n ws wt :
      HashFile_step (mkHashRun f q pr (oh :: r) n ws wt Selecting)
        (mkHashRun (store_hash f oh) q pr r n ws wt Selecting)
  (* [case <-done: return f.fileSize, nil] *)
  | main_done f q pr r n ws :
      HashFile_step (mkHashRun f q pr r n ws Signalling Selecting)
        (mkHashRun f q pr r n ws Gone (Returned (fileSize f) None))
  (* [os.Open(fileName)] in a worker *)
  | worker_opened f q pr r n ws wt p j :
      ws !! j = Some Opening ->
      HashFile_step (mkHashRun f q pr r n ws wt p)
        (mkHashRun f q pr r n (<[j := Ranging]> ws) wt p)
  | worker_open_failed f q pr r n ws wt p j :
      ws !! j = Some Opening ->
      HashFile_step (mkHashRun f q pr r n ws wt p)
        (mkHashRun f q pr r (n - 1) (<[j := Exited]> ws) wt p)
  (* a worker takes an offset and [calculateHash] reaches [f.res <- offsetHash] *)
  | worker_hashed f o q pr r n ws wt p j :
      ws !! j = Some Ranging -> block_at file (blockSize f) o ≠ [] ->
      HashFile_step (mkHashRun f (o :: q) pr r n ws wt p)
        (mkHashRun f q pr r n
           (<[j := Sending (mkOffsetHash o
                    (blake2b512 (block_at file (blockSize f) o)))]> ws) wt p)
  (* a worker takes an offset and [calculateHash] returns an error *)
  | worker_hash_failed f o q pr r n ws wt p j :
      ws !! j = Some Ranging ->
      HashFile_step (mkHashRun f (o :: q) pr r n ws wt p)
        (mkHashRun f q pr r (n - 1) (<[j := Exited]> ws) wt p)
  | worker_sent f q pr r n ws wt p j oh :
      ws !! j = Some (Sending oh) -> (length r < 25)%nat ->
      HashFile_step (mkHashRun f q pr r n ws wt p)
        (mkHashRun f q pr (r ++ [oh]) n (<[j := Ranging]> ws) wt p)
  (* the queue is closed and drained: the worker returns *)
  | worker_finished f r n ws wt p j :
      ws !! j = Some Ranging ->
      HashFile_step (mkHashRun f [] None r n ws wt p)
        (mkHashRun f [] None r (n - 1) (<[j := Exited]> ws) wt p).

(** [HashFile file f f' r]: a call on the hasher [f] can return [r] and
    leave the hasher as [f']. *)
Inductive HashFile (f : FileHasher) : FileHasher -> Z * option error -> Prop :=
  | HashFile_unreadable e :
      getFileSize file = (0, Some e) ->
      HashFile f f (0, Some e)
  | HashFile_returned size s size' err :
      getFileSize file = (size, None) ->
      rtc HashFile_step (HashFile_start f size) s ->
      pc s = Returned size' err ->
      HashFile f (hasher_of s) (size', err).

End HashFile.

(** What holds of every state of a run that starts no worker. *)
Record idle_run (B size : Z) (s : HashRun) : Prop := mk_idle_run {
  idle_hashes : hashes (hasher_of s) = ∅;
  idle_blockSize : blockSize (hasher_of s) = B;
  idle_fileSize : fileSize (hasher_of s) = size;
  idle_res : res s = [];
  idle_wg : wg s = 0;
  idle_workers : workers s = [];
  idle_pc :
    (pc s = Spawning 0 ∧ wait s ≠ Gone)
    ∨ (pc s = Selecting ∧ wait s ≠ Gone)
    ∨ pc s = Returned size None
}.

(** ** Block framing codec (block_reader.go) *)

Definition Hole : byte := x00.
Definition Block : byte := x01.

(** [buf] is a slice: [buf_array] is its backing array (of length
    [cap(buf)]) and [buf_len] is [len(buf)]. *)
Record BlockReader : Type := mkBlockReader {
  source : Reader;
  buf_array : bytes;
  buf_len : nat;
  offset : Z;
  offsetType : byte
}.

Definition NewBlockReader (source : Reader) (blockSize : Z) : outcome BlockReader :=
  if decide (blockSize < 0) then Panic
  else Ok (mkBlockReader source (zeros (Z.to_nat blockSize))
             (Z.to_nat blockSize) 0 x00).

Definition nocallback {S : Type} (s : S) : S := s.

(** [handleReadError(err, callback)]; the callback works on the state [S]
    it closes over. *)
Definition handleReadError {S : Type} (err : option error) (callback : S -> S)
  (s : S) : S * (bool * option error) :=
  if decide (err = Some EOF ∨ err = Some ErrUnexpectedEOF) then
    (callback s, (false, None))
  else
    (s, (false, err)).

(** What a read of [data] into a buffer holding [old] leaves in it. *)
Definition read_into (old data : bytes) : bytes :=
  data ++ drop (length data) old.

Module BlockReader.

Definition Offset (b : BlockReader) : Z := offset b.

Definition IsHole (b : BlockReader) : bool := bool_decide (offsetType b = Hole).

Definition Block (b : BlockReader) : bytes := take (buf_len b) (buf_array b).

Definition set_source (b : BlockReader) (r : Reader) : BlockReader :=
  mkBlockReader r (buf_array b) (buf_len b) (offset b) (offsetType b).

Definition set_offset (b : BlockReader) (o : Z) : BlockReader :=
  mkBlockReader (source b) (buf_array b) (buf_len b) o (offsetType b).

Definition set_offsetType (b : BlockReader) (t : byte) : BlockReader :=
  mkBlockReader (source b) (buf_array b) (buf_len b) (offset b) t.

(** [io.ReadFull(b.source, b.buf[:cap(b.buf)])] writes into the array. *)
Definition set_array (b : BlockReader) (a : bytes) : BlockReader :=
  mkBlockReader (source b) a (buf_len b) (offset b) (offsetType b).

(** [b.buf = b.buf[:n]]. *)
Definition truncate (n : nat) (b : BlockReader) : BlockReader :=
  mkBlockReader (source b) (buf_array b) n (offset b) (offsetType b).

Definition Next (b : BlockReader) : BlockReader * (bool * option error) :=
  match binary_Read (source b) with
  | (src, inr err) => handleReadError (Some err) nocallback (set_source b src)
  | (src, inl off) =>
      let b := set_offset (set_source b src) off in
      let '(src, (offsetType, err)) := Read (source b) 1 in
      let b := set_source b src in
      if decide (err ≠ None ∨ length offsetType ≠ 1%nat) then
        handleReadError err nocallback b
      else
        let b := set_offsetType b (default x00 (head offsetType)) in
        if IsHole b then (b, (true, None))
        else
          let '(src, (data, err)) := ReadFull (source b) (length (buf_array b)) in
          let b := set_array (set_source b src) (read_into (buf_array b) data) in
          match err with
          | Some e => handleReadError (Some e) (truncate (length data)) b
          | None => (b, (true, None))
          end
  end.

End BlockReader.

(** ** The target file (os.File) and sparse.go

    The file is what the operating system has been asked to do to it: the
    calls made so far, in order.  [fault] is the error the system answers
    to a call, given the calls before it. *)

Inductive syscall : Type :=
  | Fstat                                   (* f.Stat() *)
  | Ftruncate (size : Z)                    (* f.Truncate(size) *)
  | Fallocate (mode offset size : Z)        (* syscall.Fallocate(fd, mode, offset, size) *)
  | Pwrite (data : bytes) (offset : Z)      (* f.WriteAt(data, offset) *)
  | Lseek (offset : Z)                      (* f.Seek(offset, io.SeekStart) *)
  | Writev (data : bytes)                   (* f.Write(data) *)
  | Fsync.                                  (* f.Sync() *)

Record os_File : Type := mk_os_File {
  file_mode : Z;   (* info.Mode() *)
  fault : list syscall -> syscall -> option error;
  calls : list syscall
}.

Definition sys (c : syscall) (f : os_File) : os_File * option error :=
  (mk_os_File (file_mode f) (fault f) (calls f ++ [c]), fault f (calls f) c).

Definition ModeDevice : Z := Z.shiftl 1 26.
Definition ModeCharDevice : Z := Z.shiftl 1 21.

Definition FALLOC_FL_KEEP_SIZE : Z := 1.
Definition FALLOC_FL_PUNCH_HOLE : Z := 2.

Definition PunchHole (f : os_File) (offset size : Z) : os_File * option error :=
  let '(f, err) :=
    sys (Fallocate (Z.lor FALLOC_FL_KEEP_SIZE FALLOC_FL_PUNCH_HOLE) offset size) f in
  (f, if decide (err = Some ENOTSUP) then Some ErrPunchHoleNotSupported else err).

(** A call whose result the caller drops. *)
Definition ignore_error {S : Type} (m : S -> S * option error) : Exec S unit :=
  fun s => ((m s).1, Ok tt).

Definition as_outcome (err : option error) : outcome unit :=
  match err with
  | Some e => Fail e
  | None => Ok tt
  end.

(** ** Sync server, target role (server.go) *)

Record BlockRsyncOptions : Type := mkBlockRsyncOptions {
  Preallocation : bool;
  BlockSize : Z
}.

Record BlockrsyncServer : Type := mkBlockrsyncServer {
  targetFileSize : Z;
  hasher : FileHasher;
  opts : BlockRsyncOptions
}.

Definition NewBlockrsyncServer (opts : BlockRsyncOptions) : BlockrsyncServer :=
  mkBlockrsyncServer 0 (NewFileHasher (BlockSize opts)) opts.

(** What [StartServer] gets from outside the engine: the opened target
    file, the hasher and result that the background [HashFile] leaves, the
    results of [net.Listen] and [listener.Accept] (the accepted
    connection's inbound stream, as the Snappy reader delivers it), and the
    result of the hash-of-hashes exchange. *)
Record ServerEnv : Type := mkServerEnv {
  env_open : os_File + error;
  env_hashed : FileHasher * (Z * option error);
  env_listen : option error;
  env_accept : Reader + error;
  env_compare : bool + error
}.

Module BlockrsyncServer.

Definition set_targetFileSize (b : BlockrsyncServer) (size : Z) : BlockrsyncServer :=
  mkBlockrsyncServer size (hasher b) (opts b).

(** [f.Stat()] and then [info.Mode()]. *)
Definition Stat : Exec os_File Z := fun f =>
  match sys Fstat f with
  | (f, None) => (f, Ok (file_mode f))
  | (f, Some e) => (f, Fail e)
  end.

Definition truncateFileIfNeeded (b : BlockrsyncServer) (sourceSize targetSize : Z)
  : Exec os_File unit :=
  mode ← Stat;
  if decide (Z.land mode (Z.lor ModeDevice ModeCharDevice) = 0) then
    check (sys (Ftruncate sourceSize))
  else if decide (targetSize > sourceSize) then
    ignore_error (fun f => PunchHole f sourceSize (wrap64 (targetSize - sourceSize)))
  else
    mret tt.

(** [f.WriteAt] of an [*os.File] returns a non-nil error whenever it writes
    fewer bytes than it was given, so [err != nil || int64(n) != emptySize]
    is [err != nil]. *)
Definition handleEmptyBlock (b : BlockrsyncServer) (offset : Z) : Exec os_File unit :=
  let emptySize :=
    Z.min (wrap64 (targetFileSize b - offset)) (FileHasher.BlockSize (hasher b)) in
  if Preallocation (opts b) then
    if decide (emptySize < 0) then panic
    else check (sys (Pwrite (zeros (Z.to_nat emptySize)) offset))
  else
    ignore_error (fun f => PunchHole f offset (FileHasher.BlockSize (hasher b))).

Definition writeBlockToOffset (block : bytes) (offset : Z) : Exec os_File unit :=
  check (sys (Lseek offset));;
  check (sys (Writev block)).

(** The loop [for cont { ... }] of [writeBlocksToFile]; [None] when [fuel]
    iterations do not finish it. *)
Fixpoint receive (fuel : nat) (b : BlockrsyncServer) (blockReader : BlockReader)
  (f : os_File) : option (BlockReader * os_File * outcome unit) :=
  match fuel with
  | O => None
  | S fuel' =>
      let '(blockReader, (cont, err)) := BlockReader.Next blockReader in
      match err with
      | Some _ => Some (blockReader, f, Ok tt)   (* Ignore error *)
      | None =>
          let '(f, r) :=
            (if BlockReader.IsHole blockReader then
               handleEmptyBlock b (BlockReader.Offset blockReader)
             else
               writeBlockToOffset (BlockReader.Block blockReader)
                 (BlockReader.Offset blockReader)) f in
          match r with
          | Ok _ =>
              if cont then receive fuel' b blockReader f
              else Some (blockReader, f, Ok tt)
          | _ => Some (blockReader, f, r)
          end
      end
  end.

(** [writeBlocksToFile]: the server, the file and the reader as the call
    leaves them, and its result. Every turn of the loop but the last
    consumes a record, so the bytes to come bound the turns. *)
Definition writeBlocksToFile (b : BlockrsyncServer) (f : os_File) (reader : Reader)
  : option (BlockrsyncServer * os_File * Reader * outcome unit) :=
  match binary_Read reader with
  | (reader, inr err) =>
      Some (b, f, reader, as_outcome (handleReadError (Some err) nocallback tt).2.2)
  | (reader, inl sourceSize) =>
      let b := set_targetFileSize b (Z.max (targetFileSize b) sourceSize) in
      match truncateFileIfNeeded b sourceSize (targetFileSize b) f with
      | (f, Fail err) =>
          Some (b, f, reader, as_outcome (handleReadError (Some err) nocallback tt).2.2)
      | (f, Panic) => Some (b, f, reader, Panic)
      | (f, Ok _) =>
          match NewBlockReader reader (FileHasher.BlockSize (hasher b)) with
          | Ok blockReader =>
              '(blockReader, f, r) ← receive (S (length (pending reader))) b blockReader f;
              Some (b, f, source blockReader, r)
          | _ => Some (b, f, reader, Panic)
          end
      end
  end.

Section StartServer.
Context {W : Type} `{Writer W}.
Variable range : gmap Z bytes -> list (Z * bytes).

Definition writeHashes (b : BlockrsyncServer) : Exec W unit :=
  FileHasher.SerializeHashes range (hasher b).

(** [StartServer] with the connection's writer [writer] (the Snappy
    writer); the background goroutine sets [b.targetFileSize] only when
    [HashFile] returns no error. *)
Definition StartServer (b : BlockrsyncServer) (env : ServerEnv) (writer : W)
  : option (BlockrsyncServer * W * option os_File * outcome unit) :=
  match env_open env with
  | inr err => Some (b, writer, None, Fail err)
  | inl f =>
      let '(hasher', (size, hash_err)) := env_hashed env in
      let b := mkBlockrsyncServer
                 (if hash_err is None then size else targetFileSize b)
                 hasher' (opts b) in
      match env_listen env, env_accept env, env_compare env with
      | Some err, _, _ => Some (b, writer, Some f, Fail err)
      | None, inr err, _ => Some (b, writer, Some f, Fail err)
      | None, inl _, inr err => Some (b, writer, Some f, Fail err)
      | None, inl _, inl true => Some (b, writer, Some f, Ok tt)
      | None, inl conn, inl false =>
          match writeHashes b writer with
          | (writer, Ok _) =>
              '(b, f, _, r) ← writeBlocksToFile b f conn;
              match r with
              | Ok _ =>
                  let '(f, err) := sys Fsync f in
                  Some (b, writer, Some f, as_outcome err)
              | _ => Some (b, writer, Some f, r)
              end
          | (writer, r) => Some (b, writer, Some f, r)
          end
      end
  end.

End StartServer.

End BlockrsyncServer.

(** ** Sync client, source role (client.go) *)

(** An [io.ReaderAt]: [ReadAt f len off] is the bytes that
    [f.ReadAt(buf, off)] with [len(buf) = len] puts at the start of [buf]
    (their number is the [n] it returns) and its error. *)
Class ReaderAt (F : Type) : Type := ReadAt : F -> nat -> Z -> bytes * option error.

(** [bytes.Reader], and a regular file that reads without I/O errors. *)
#[global] Instance bytes_Reader : ReaderAt bytes := fun s len off =>
  if decide (off < 0) then
    ([], Some (ErrNew "bytes.Reader.ReadAt: negative offset"))
  else if decide (off >= Z.of_nat (length s)) then ([], Some EOF)
  else
    let data := take len (drop (Z.to_nat off) s) in
    (data, if decide (length data < len)%nat then Some EOF else None).

(** The calls a [Progress] receives; [syncProgress] is [None] for Go's nil. *)
Inductive ProgressCall : Type :=
  | Start (size : Z)
  | Update (pos : Z).

Record BlockrsyncClient : Type := mkBlockrsyncClient {
  client_hasher : FileHasher;
  sourceSize : Z;
  client_opts : BlockRsyncOptions
}.

(** What [writeBlocksToServer] works on: the writer, the slice [buf] and
    the progress reporter. *)
Record Sender (W : Type) : Type := mkSender {
  writer : W;
  buf : bytes;
  syncProgress : option (list ProgressCall)
}.
Arguments mkSender {W} writer buf syncProgress.
Arguments writer {W} s.
Arguments buf {W} s.
Arguments syncProgress {W} s.

(** Modelled from the spec: the package variable [emptyBlock] is declared
    in a file that is not among the sources; it is the zeroed buffer of the
    block size that the source role compares a block with. *)
Definition emptyBlock (blockSize : Z) : bytes := zeros (Z.to_nat blockSize).

Module BlockrsyncClient.

Definition isEmptyBlock (blockSize : Z) (buf : bytes) : bool :=
  bytes_Equal buf (emptyBlock blockSize).

Section WriteBlocks.
Context {W : Type} `{Writer W} {F : Type} `{ReaderAt F}.

Definition write (p : bytes) : Exec (Sender W) unit := fun s =>
  match Write (writer s) p with
  | (w, None) => (mkSender w (buf s) (syncProgress s), Ok tt)
  | (w, Some e) => (mkSender w (buf s) (syncProgress s), Fail e)
  end.

Definition set_buf (buf : bytes) : Exec (Sender W) unit := fun s =>
  (mkSender (writer s) buf (syncProgress s), Ok tt).

Definition get_buf : Exec (Sender W) bytes := fun s => (s, Ok (buf s)).

(** [if syncProgress != nil { syncProgress.<call> }]. *)
Definition report (c : ProgressCall) : Exec (Sender W) unit := fun s =>
  (mkSender (writer s) (buf s) ((fun l => l ++ [c]) <$> syncProgress s), Ok tt).

(** [n, err := f.ReadAt(buf, offset)] with the early return on an error
    other than [io.EOF]; the result is [n]. *)
Definition read_block (f : F) (offset : Z) : Exec (Sender W) nat := fun s =>
  let '(data, err) := ReadAt f (length (buf s)) offset in
  let s := mkSender (writer s) (read_into (buf s) data) (syncProgress s) in
  match err with
  | Some e => if decide (e ≠ EOF) then (s, Fail e) else (s, Ok (length data))
  | None => (s, Ok (length data))
  end.

(** The loop [for i, offset := range offsets] of [writeBlocksToServer]. *)
Fixpoint send_blocks (b : BlockrsyncClient) (f : F) (i : Z) (offsets : list Z)
  : Exec (Sender W) unit :=
  match offsets with
  | [] => mret tt
  | offset :: offsets' =>
      write (put_int64 offset);;
      n ← read_block f offset;
      buf ← get_buf;
      (if isEmptyBlock (FileHasher.BlockSize (client_hasher b)) buf then
         write [Hole]
       else
         write [Block];;
         set_buf (take n buf);;
         write (take n buf));;
      report (Update (wrap64 (i * FileHasher.BlockSize (client_hasher b))));;
      send_blocks b f (i + 1) offsets'
  end.

Definition writeBlocksToServer (b : BlockrsyncClient) (offsets : list Z) (f : F)
  : Exec (Sender W) unit :=
  write (put_int64 (sourceSize b));;
  let offsets := SortFunc offsets in
  report (Start (wrap64 (Z.of_nat (length offsets)
                         * FileHasher.BlockSize (client_hasher b))));;
  if decide (FileHasher.BlockSize (client_hasher b) < 0) then panic
  else
    set_buf (zeros (Z.to_nat (FileHasher.BlockSize (client_hasher b))));;
    send_blocks b f 0 offsets.

End WriteBlocks.

End BlockrsyncClient.

(** ** The dial loops (client.go, proxy/client.go)

    [dial k] is the error of the [k]-th call of [net.Dial] ([None]: the
    connection is made).  A loop leaves the number of calls it made and the
    sleeps it took, in seconds. *)

Record Dialing : Type := mkDialing {
  dials : nat;
  sleeps : list Z
}.

Module NetworkConnectionProvider.

Section Connect.
Variable dial : nat -> option error.

(** The loop [for conn == nil] with [retryCount]; the result is the call
    that connected or the error, [None] when [fuel] turns do not end it. *)
Fixpoint Connect_loop (fuel : nat) (retryCount : Z) (d : Dialing)
  : option (Dialing * outcome nat) :=
  match fuel with
  | O => None
  | S fuel' =>
      let err := dial (dials d) in
      let d' := mkDialing (S (dials d)) (sleeps d) in
      match err with
      | None => Some (d', Ok (dials d))
      | Some _ =>
          if decide (retryCount > 30) then
            Some (d', Fail (Errorf "unable to connect to target after %d retries"
                              retryCount))
          else
            Connect_loop fuel' (retryCount + 1)
              (mkDialing (dials d') (sleeps d' ++ [10]))
      end
  end.

Definition Connect (fuel : nat) : option (Dialing * outcome nat) :=
  Connect_loop fuel 0 (mkDialing 0 []).

End Connect.

End NetworkConnectionProvider.

Module ProxyClient.

Section ConnectToTarget.
Variable dial : nat -> option error.

(** The loop [for retry] of [ConnectToTarget]. *)
Fixpoint dial_loop (fuel : nat) (retryCount : Z) (d : Dialing)
  : option (Dialing * outcome nat) :=
  match fuel with
  | O => None
  | S fuel' =>
      let err := dial (dials d) in
      let d' := mkDialing (S (dials d)) (sleeps d) in
      match err with
      | None => Some (d', Ok (dials d))
      | Some _ =>
          let retryCount := retryCount + 1 in
          let d' := mkDialing (dials d') (sleeps d' ++ [1]) in
          if decide (retryCount > 30) then
            Some (d', Fail (Errorf "unable to connect to target after %d retries"
                              retryCount))
          else
            dial_loop fuel' retryCount d'
      end
  end.

Definition dial_target (fuel : nat) : option (Dialing * outcome nat) :=
  dial_loop fuel 0 (mkDialing 0 []).

End ConnectToTarget.

End ProxyClient.

(** ** Sample data *)

(** A hasher over blocks of 4 bytes that hashed an 8-byte file, and a peer
    map that differs at offset 4 and has two more blocks. *)
Definition local_example : FileHasher :=
  mkFileHasher {[0 := [x01]; 4 := [x02]]} 4 8.

Definition peer_example : gmap Z bytes :=
  {[4 := [x03]; 8 := [x04]; 12 := [x05]]}.

(** The wire form of the entries of a hash map for a list of keys: each
    offset followed by its digest. *)
Definition encode_entries (hashes : gmap Z bytes) (keys : list Z) : bytes :=
  concat ((fun k => put_int64 k ++ default [] (hashes !! k)) <$> keys).

(** A hash map with a gap: one block hashed at offset [2 * 4096] of a file
    of three blocks. *)
Definition sparse_example : FileHasher :=
  mkFileHasher {[8192 := zeros 64]} 4096 12288.

(** A complete hash map: both blocks of a file of two blocks of 4096 bytes. *)
Definition dense_example : FileHasher :=
  mkFileHasher {[0 := zeros 64; 4096 := replicate 64 x01]} 4096 8192.

(** A file of three bytes, to be hashed by blocks of four. *)
Definition short_file : SourceFile := mkSourceFile [x01; x02; x03] None.

(** ** Block records

    The records of the block stream as the wire grammar has them, their
    encoding, and what the target does with one.  The reception loop is
    compared with these. *)

Inductive record : Type :=
  | HoleRecord (offset : Z)
  | BlockRecord (offset : Z) (payload : bytes).

Definition encode_record (r : record) : bytes :=
  match r with
  | HoleRecord offset => put_int64 offset ++ [Hole]
  | BlockRecord offset payload => put_int64 offset ++ Block :: payload
  end.

Definition encode_records (rs : list record) : bytes :=
  concat (encode_record <$> rs).

(** A record that a reader of block size [B] decodes in full. *)
Definition complete_record (B : nat) (r : record) : Prop :=
  match r with
  | HoleRecord offset => in_int64 offset
  | BlockRecord offset payload => in_int64 offset ∧ length payload = B
  end.

(** The record that the reader's fields [offset], [offsetType] and [buf]
    hold. *)
Definition holds (b : BlockReader) (r : record) : Prop :=
  match r with
  | HoleRecord off => offset b = off ∧ offsetType b = Hole
  | BlockRecord off payload =>
      offset b = off ∧ offsetType b ≠ Hole ∧ BlockReader.Block b = payload
  end.

Definition apply_record (b : BlockrsyncServer) (r : record) : Exec os_File unit :=
  match r with
  | HoleRecord off => BlockrsyncServer.handleEmptyBlock b off
  | BlockRecord off payload => BlockrsyncServer.writeBlockToOffset payload off
  end.

Fixpoint apply_records (b : BlockrsyncServer) (rs : list record) : Exec os_File unit :=
  match rs with
  | [] => mret tt
  | r :: rs' => apply_record b r;; apply_records b rs'
  end.

(** The file [f] after one more call [c]. *)
Definition called (f : os_File) (c : syscall) : os_File :=
  mk_os_File (file_mode f) (fault f) (calls f ++ [c]).

(** What the target does to the file for a HOLE record at [offset]. *)
Definition hole_call (b : BlockrsyncServer) (offset : Z) : syscall :=
  if Preallocation (opts b) then
    Pwrite (zeros (Z.to_nat (Z.min (FileHasher.BlockSize (hasher b))
                              (targetFileSize b - offset)))) offset
  else
    Fallocate (Z.lor FALLOC_FL_KEEP_SIZE FALLOC_FL_PUNCH_HOLE) offset
      (FileHasher.BlockSize (hasher b)).

(** The OS answers [e] to some call on [f]. *)
Definition faulty (f : os_File) (e : error) : Prop :=
  ∃ h c, fault f h c = Some e.

(** ** Sample servers, files and streams *)

(** A server for blocks of 4 bytes, as [NewBlockrsyncServer] makes it. *)
Definition punching_server : BlockrsyncServer :=
  NewBlockrsyncServer (mkBlockRsyncOptions false 4).

Definition preallocating_server : BlockrsyncServer :=
  NewBlockrsyncServer (mkBlockRsyncOptions true 4).

(** A regular file on which every call succeeds. *)
Definition regular_file : os_File := mk_os_File 0 (fun _ _ => None) [].

(** A regular file and a block device on a filesystem that cannot punch
    holes: [fallocate] answers [ENOTSUP]. *)
Definition no_punch (h : list syscall) (c : syscall) : option error :=
  match c with
  | Fallocate _ _ _ => Some ENOTSUP
  | _ => None
  end.

Definition unpunchable_file : os_File := mk_os_File 0 no_punch [].

Definition unpunchable_device : os_File := mk_os_File ModeDevice no_punch [].

(** A block reader of block size 4 on a stream that holds the offset 8,
    the kind BLOCK and two of the four payload bytes. *)
Definition truncated_stream : Reader :=
  mkReader (put_int64 8 ++ Block :: [x07; x09]) EOF.

Definition truncated_reader : BlockReader :=
  mkBlockReader truncated_stream (zeros 4) 4 0 Hole.

(** A stream that holds a HOLE record at offset 12. *)
Definition hole_stream : Reader := mkReader (put_int64 12 ++ [Hole]) EOF.

Definition hole_reader : BlockReader :=
  mkBlockReader hole_stream (zeros 4) 4 0 Hole.

(** The reader of [hole_stream] once [Next] has decoded the record. *)
Definition hole_decoded : BlockReader :=
  mkBlockReader (mkReader [] EOF) (zeros 4) 4 12 Hole.

(** Two records for a target of block size 4. *)
Definition two_records : list record :=
  [BlockRecord 0 [x01; x02; x03; x04]; HoleRecord 4].

(** A connection that is reset (an error that is not of the EOF class)
    once the source size 8 has arrived. *)
Definition reset_stream : Reader := mkReader (put_int64 8) (ErrIO 104).

(** What [StartServer] meets when the target is a fresh file, the peer's
    hash of hashes differs, and the connection delivers [conn]. *)
Definition serving (f : os_File) (conn : Reader) : ServerEnv :=
  mkServerEnv (inl f) (NewFileHasher 4, (0, None)) None (inl conn) (inl false).

(** A source of 8 bytes that sends one HOLE record, at offset 0. *)
Definition one_hole_stream : Reader :=
  mkReader (put_int64 8 ++ put_int64 0 ++ [Hole]) EOF.

(** A call on the file that keeps the fault behaviour of the file, and
    that fails only with an answer of the OS. *)
Definition file_op {A : Type} (m : Exec os_File A) : Prop :=
  ∀ f, fault (m f).1 = fault f ∧ ∀ e, (m f).2 = Fail e -> faulty f e.


(** A block reader of block size 4 on a connection that has been reset. *)
Definition reset_reader : BlockReader :=
  mkBlockReader (mkReader [] (ErrIO 104)) (zeros 4) 4 0 Hole.

(** ** What the source emits

    One turn of the loop of [writeBlocksToServer]: the offset, the buffer as
    [ReadAt] has left it, and the number [n] of bytes read. *)
Record emission : Type := mkEmission {
  em_offset : Z;
  em_buffer : bytes;
  em_n : nat
}.

(** [reads f B buf es]: the turns [es] are what successive calls of
    [f.ReadAt(buf, offset)] give, from the buffer [buf] on; a turn that
    emits a BLOCK leaves the slice cut to the bytes read. *)
Fixpoint reads {F : Type} `{ReaderAt F} (f : F) (B : Z) (buf : bytes)
  (es : list emission) : Prop :=
  match es with
  | [] => True
  | e :: es' =>
      (ReadAt f (length buf) (em_offset e)).2 ∈ [None; Some EOF]
      ∧ em_n e = length (ReadAt f (length buf) (em_offset e)).1
      ∧ em_buffer e = read_into buf (ReadAt f (length buf) (em_offset e)).1
      ∧ reads f B
          (if bytes_Equal (em_buffer e) (emptyBlock B) then em_buffer e
           else take (em_n e) (em_buffer e))
          es'
  end.

(** The client and the file of client_test.go: block size 2, a declared
    source size of 40, and the bytes [1, 2, 0, 0, 3, 4]. *)
Definition test_client : BlockrsyncClient :=
  mkBlockrsyncClient (NewFileHasher 2) 40 (mkBlockRsyncOptions false 2).

Definition test_file : bytes := [x01; x02; x00; x00; x03; x04].

Definition fresh_sender : Sender bytes := mkSender [] [] None.

(** A target that refuses every connection. *)
Definition unreachable (k : nat) : option error := Some (ErrIO 111).

(** [ErrorWriter] of client_test.go: writes into a buffer until
    [writeUntilErrorCount] writes have been made, then fails. *)
Record ErrorWriter : Type := mkErrorWriter {
  ew_buf : bytes;
  writeUntilErrorCount : Z;
  currentCount : Z
}.

#[global] Instance ErrorWriter_Writer : Writer ErrorWriter := fun e p =>
  if decide (currentCount e = writeUntilErrorCount e) then
    (e, Some (ErrNew "error"))
  else
    (mkErrorWriter (ew_buf e ++ p) (writeUntilErrorCount e) (currentCount e + 1),
     None).

(** [createBytesReader(4)] of block_reader_test.go. *)
Definition createBytesReader4 : Reader :=
  mkReader (put_int64 4096 ++ [x01] ++ [x00; x01; x02; x03]) EOF.

Definition reader_on (r : Reader) : BlockReader :=
  mkBlockReader r (zeros 4) 4 0 x00.

(** The errors of a read: the error of the stream, or [ErrUnexpectedEOF]
    when a stream that ends cleanly ends within the bytes asked for. *)
Definition read_error (r : Reader) (e : error) : Prop :=
  e = closing r ∨ (closing r = EOF ∧ e = ErrUnexpectedEOF).

(** ** What a run of [HashFile] keeps

    An offset that [calculateOffsets] hands out, and a digest that
    belongs to it. *)
Definition block_offset (B size o : Z) : Prop :=
  0 <= o < size ∧ o mod B = 0.

Definition good_hash (blake2b512 : bytes -> bytes) (file : SourceFile)
  (B size : Z) (oh : OffsetHash) : Prop :=
  block_offset B size (Offset oh)
  ∧ Hash oh = blake2b512 (block_at file B (Offset oh)).

Definition good_worker (blake2b512 : bytes -> bytes) (file : SourceFile)
  (B size : Z) (w : worker) : Prop :=
  match w with
  | Sending oh => good_hash blake2b512 file B size oh
  | _ => True
  end.

(** The invariant of a run that started from the map [H0]. *)
Record sound_run (blake2b512 : bytes -> bytes) (file : SourceFile)
  (B size : Z) (H0 : gmap Z bytes) (s : HashRun) : Prop := mk_sound_run {
  sound_blockSize : blockSize (hasher_of s) = B;
  sound_fileSize : fileSize (hasher_of s) = size;
  sound_producer :
    ∀ i, producer s = Some i -> 0 <= i < size + B ∧ i mod B = 0;
  sound_queue : Forall (block_offset B size) (queue s);
  sound_workers : Forall (good_worker blake2b512 file B size) (workers s);
  sound_res : Forall (good_hash blake2b512 file B size) (res s);
  sound_hashes :
    ∀ k h, hashes (hasher_of s) !! k = Some h ->
      H0 !! k = Some h ∨ good_hash blake2b512 file B size (mkOffsetHash k h);
  sound_pc :
    ∀ size' err, pc s = Returned size' err -> size' = size ∧ err = None
}.

(** The calls that applying a record makes on the file. *)
Definition record_calls (b : BlockrsyncServer) (r : record) : list syscall :=
  match r with
  | HoleRecord off => [hole_call b off]
  | BlockRecord off payload => [Lseek off; Writev payload]
  end.

(** A HOLE record for which [handleEmptyBlock] has a buffer to write: with
    preallocation the offset must not lie beyond the file size. *)
Definition hole_in_range (b : BlockrsyncServer) (r : record) : Prop :=
  match r with
  | HoleRecord off =>
      Preallocation (opts b) = true ->
      0 <= FileHasher.BlockSize (hasher b) ∧ off <= targetFileSize b
      ∧ in_int64 (targetFileSize b - off)
  | BlockRecord _ _ => True
  end.

(** A file on which no call fails. *)
Definition faultless (f : os_File) : Prop := ∀ h c, fault f h c = None.

(** The file [f] after the calls [cs]. *)
Definition called_all (f : os_File) (cs : list syscall) : os_File :=
  mk_os_File (file_mode f) (fault f) (calls f ++ cs).

(** [info.Mode()&(os.ModeDevice|os.ModeCharDevice) != 0], bit by bit. *)
Definition is_device (mode : Z) : bool :=
  Z.testbit mode 26 || Z.testbit mode 21.

(** The calls by which the target resizes a file of mode [mode] that
    answers [Stat]. *)
Definition resize_calls (mode sourceSize targetSize : Z) : list syscall :=
  Fstat ::
  (if is_device mode then
     if decide (targetSize > sourceSize) then
       [Fallocate (Z.lor FALLOC_FL_KEEP_SIZE FALLOC_FL_PUNCH_HOLE) sourceSize
          (wrap64 (targetSize - sourceSize))]
     else []
   else [Ftruncate sourceSize]).

(** The record for a whole block of the source [src] at [offset]. *)
Definition source_record (src : bytes) (B : Z) (offset : Z) : record :=
  let block := take (Z.to_nat B) (drop (Z.to_nat offset) src) in
  if bytes_Equal block (emptyBlock B) then HoleRecord offset
  else BlockRecord offset block.

(** The offset of a whole block of a source of [len] bytes. *)
Definition whole_block (B : Z) (len : nat) (offset : Z) : Prop :=
  0 <= offset ∧ offset + B <= Z.of_nat len.

(** ** The proxy (proxy/server.go, proxy/client.go) *)

Definition identifierLength : nat := 32.
Definition blockRsyncPort : Z := 3222.

(** [os.Getenv]: the value of the variable, the empty string when it is
    not set. *)
Definition os_Getenv (environ : gmap string string) (key : string) : string :=
  default EmptyString (environ !! key).

(** The loop of [io.Copy(dst, src)]: reads of at most [chunk] bytes, each
    written to [dst] in full; [None] when [fuel] turns do not end it. *)
Fixpoint io_Copy_loop {W : Type} `{Writer W} (chunk fuel : nat) (dst : W)
  (src : Reader) : option (W * Reader * option error) :=
  match fuel with
  | O => None
  | S fuel' =>
      let '(src, (data, er)) := Read src chunk in
      let '(dst, ew) :=
        match data with
        | [] => (dst, None)
        | _ => Write dst data
        end in
      match ew with
      | Some e => Some (dst, src, Some e)
      | None =>
          match er with
          | Some e => Some (dst, src, if decide (e = EOF) then None else Some e)
          | None => io_Copy_loop chunk fuel' dst src
          end
      end
  end.

(** [io.Copy] with its buffer of 32 KiB.  Every turn but the last consumes
    a byte, so the bytes to come bound the turns. *)
Definition io_Copy {W : Type} `{Writer W} (dst : W) (src : Reader)
  : option (W * Reader * option error) :=
  io_Copy_loop (32 * 1024) (S (length (pending src))) dst src.

Module ProxyServer.

(** [getTargetFileFromIdentifier]: the file, the header and the error, all
    three as Go returns them.  [fmt.Errorf] with several or with string
    arguments is the error of the formatted message. *)
Definition getTargetFileFromIdentifier (environ : gmap string string)
  (conn : Reader) : Reader * (string * string * option error) :=
  let '(conn, (header, err)) := ReadFull conn identifierLength in
  match err with
  | Some e => (conn, (EmptyString, EmptyString, Some e))
  | None =>
      if decide (length header ≠ identifierLength) then
        (conn, (EmptyString, EmptyString,
                Some (ErrNew ("expected " +:+ pretty identifierLength
                              +:+ " bytes, got " +:+ pretty (length header)))))
      else
        let file := os_Getenv environ (String.string_of_list_byte header) in
        if decide (file = EmptyString) then
          let file := os_Getenv environ ("id-" +:+ String.string_of_list_byte header) in
          if decide (file = EmptyString) then
            (conn, (EmptyString, EmptyString,
                    Some (ErrNew ("no filepath found for "
                                  +:+ String.string_of_list_byte header))))
          else (conn, (file, String.string_of_list_byte header, None))
        else (conn, (file, String.string_of_list_byte header, None))
  end.

(** The critical section of [processConnection], between [mu.Lock()] and
    [mu.Unlock()]: thread [i] takes the header unless [processing] has a
    positive entry for it.  A map lookup of an absent key is 0. *)
Definition claim (processing : gmap string Z) (header : string) (i : Z)
  : gmap string Z * bool :=
  if decide (default 0 (processing !! header) > 0) then (processing, false)
  else (<[header := i]> processing, true).

(** What a turn of the loop of [processConnection] does with a connection
    it has accepted, up to the call of [startsBlockrsyncServer]. *)
Inductive turn : Type :=
  | Ignored                              (* conn.Close(); continue *)
  | Serving (file : string) (port : Z).  (* startsBlockrsyncServer(conn, file, port) *)

(** After an error of [getTargetFileFromIdentifier] the connection is
    closed and the turn goes on, with the empty file and header. *)
Definition accepted (environ : gmap string string) (i : Z) (conn : Reader)
  (processing : gmap string Z) : gmap string Z * Reader * turn :=
  let '(conn, (file, header, _)) := getTargetFileFromIdentifier environ conn in
  match claim processing header i with
  | (processing, false) => (processing, conn, Ignored)
  | (processing, true) => (processing, conn, Serving file (blockRsyncPort + i))
  end.

Section Dial.
Variable dial : nat -> option error.

(** The loop [for notConnect] of [startsBlockrsyncServer]: the call that
    connected, [None] when [fuel] turns do not end it. *)
Fixpoint dial_loop (fuel : nat) (d : Dialing) : option (Dialing * nat) :=
  match fuel with
  | O => None
  | S fuel' =>
      let err := dial (dials d) in
      let d' := mkDialing (S (dials d)) (sleeps d) in
      match err with
      | Some _ => dial_loop fuel' (mkDialing (dials d') (sleeps d' ++ [1]))
      | None => Some (d', dials d)
      end
  end.

End Dial.

End ProxyServer.

(** What [ConnectToTarget] of the proxy client gets from outside: the
    results of [net.Listen] and [listener.Accept] (the inbound stream of
    the accepted connection) and of the calls of [net.Dial]. *)
Record ProxyClientEnv : Type := mkProxyClientEnv {
  proxy_listen : option error;
  proxy_accept : Reader + error;
  proxy_dial : nat -> option error
}.

(** [ConnectToTarget] of the proxy client, with what is written to the
    connection it dialled; [None] when [fuel] dials do not end the loop.
    The copy in the other direction runs beside it and its result is
    dropped. *)
Definition ProxyClient_ConnectToTarget {W : Type} `{Writer W} (fuel : nat)
  (identifier : string) (env : ProxyClientEnv) (outConn : W)
  : option (W * outcome unit) :=
  if decide (String.length identifier ≠ identifierLength) then
    Some (outConn, Fail (Errorf "identifier must be %d characters"
                           (Z.of_nat identifierLength)))
  else
    match proxy_listen env, proxy_accept env with
    | Some err, _ => Some (outConn, Fail err)
    | None, inr err => Some (outConn, Fail err)
    | None, inl inConn =>
        match ProxyClient.dial_target (proxy_dial env) fuel with
        | None => None
        | Some (_, Fail err) => Some (outConn, Fail err)
        | Some (_, Panic) => Some (outConn, Panic)
        | Some (_, Ok _) =>
            match Write outConn (String.list_byte_of_string identifier) with
            | (outConn, Some err) => Some (outConn, Fail err)
            | (outConn, None) =>
                '(outConn, _, err) ← io_Copy outConn inConn;
                Some (outConn, as_outcome err)
            end
        end
    end.

(** A connection whose header names no file: it delivers fewer than 32
    bytes, or neither the header nor the header with the prefix [id-] is a
    variable with a value. *)
Definition unresolved (environ : gmap string string) (conn : Reader) : Prop :=
  let id := String.string_of_list_byte (take 32 (pending conn)) in
  (length (pending conn) < 32)%nat
  ∨ (os_Getenv environ id = EmptyString
     ∧ os_Getenv environ ("id-" +:+ id) = EmptyString).

(** ** More sample data *)

(** Go's map iteration in another order. *)
Definition range_reversed (m : gmap Z bytes) : list (Z * bytes) :=
  reverse (map_to_list m).

(** The wire form of a hash map of block size 4096 with one entry, and one
    of block size 4 whose only offset lies beyond [count * blockSize]. *)
Definition one_hash_stream : Reader :=
  mkReader (put_int64 4096 ++ put_int64 1 ++ put_int64 0 ++ zeros 64) EOF.

Definition bad_offset_stream : Reader :=
  mkReader (put_int64 4 ++ put_int64 1 ++ put_int64 100 ++ zeros 64) EOF.

(** A file of two blocks of 4 bytes, the first of them empty, and the
    client that sends it. *)
Definition two_block_file : SourceFile :=
  mkSourceFile [x00; x00; x00; x00; x01; x02; x03; x04] None.

Definition two_block_client : BlockrsyncClient :=
  mkBlockrsyncClient (NewFileHasher 4) 8 (mkBlockRsyncOptions false 4).

(** A block reader of block size 4 on a stream that holds a BLOCK record
    at offset 8 and one more byte. *)
Definition block_stream_reader : BlockReader :=
  mkBlockReader
    (mkReader (encode_record (BlockRecord 8 [x01; x02; x03; x04]) ++ [x09]) EOF)
    (zeros 4) 4 0 Hole.

(** A sender with a progress reporter that has not been called. *)
Definition reporting_sender : Sender bytes := mkSender [] [] (Some []).

(** An identifier, an environment that names a file for it, one that does
    so with the prefix [id-], and a connection that delivers it and two
    more bytes. *)
Definition sample_identifier : string := "0123456789abcdef0123456789abcdef".

Definition sample_environ : gmap string string :=
  {[ sample_identifier := "/dev/vdb" ]}.

Definition prefixed_environ : gmap string string :=
  {[ "id-0123456789abcdef0123456789abcdef" := "/dev/vdc" ]}.

Definition identified_conn : Reader :=
  mkReader (String.list_byte_of_string sample_identifier ++ [x01; x02]) EOF.

(** A target that accepts the third call of [net.Dial], and what the proxy
    client meets when it listens, accepts a stream of two bytes and dials
    that target. *)
Definition flaky_dial (k : nat) : option error :=
  if decide (k < 2)%nat then Some (ErrIO 111) else None.

Definition sample_proxy_env : ProxyClientEnv :=
  mkProxyClientEnv None (inl (mkReader [x01; x02] EOF)) flaky_dial.

(** The client of [two_block_file] once it has hashed it. *)
Definition hashed_client : BlockrsyncClient :=
  mkBlockrsyncClient local_example 8 (mkBlockRsyncOptions false 4).

(** A file of one block of 4 bytes. *)
Definition one_block_file : SourceFile :=
  mkSourceFile [x01; x02; x03; x04] None.

(** * Properties

    From here on, what holds of the definitions above. *)

(** * The wire format of integers and of the hash map *)

Lemma Z_of_byte_of_Z (z : Z) : Z_of_byte (byte_of_Z z) = z mod 256.
Proof.
  unfold Z_of_byte, byte_of_Z.
  assert (Hr : 0 <= z mod 256 < 256) by (apply Z.mod_pos_bound; lia).
  destruct (Byte.of_N (Z.to_N (z mod 256))) as [b|] eqn:Hb.
  - apply Byte.to_of_N in Hb. rewrite Hb. lia.
  - exfalso. pose proof (Byte.to_of_N_option_map (Z.to_N (z mod 256))) as Ho.
    rewrite Hb in Ho. simpl in Ho.
    destruct (N.leb_spec (Z.to_N (z mod 256)) 255); [discriminate|lia].
Qed.

Lemma Z_of_byte_range (b : byte) : 0 <= Z_of_byte b < 256.
Proof.
  unfold Z_of_byte. pose proof (Byte.to_N_bounded b). lia.
Qed.

Lemma length_le_encode (n : nat) (u : Z) : length (le_encode n u) = n.
Proof.
  revert u. induction n as [|n IH]; intros u; simpl; [done|]. by rewrite IH.
Qed.

Lemma le_decode_encode (n : nat) (u : Z) :
  le_decode (le_encode n u) = u mod 256 ^ Z.of_nat n.
Proof.
  revert u. induction n as [|n IH]; intros u.
  - simpl. by rewrite Z.mod_1_r.
  - cbn [le_encode le_decode]. rewrite IH, Z_of_byte_of_Z.
    rewrite Nat2Z.inj_succ, Z.pow_succ_r by lia.
    rewrite Z.rem_mul_r by lia. lia.
Qed.

Lemma wrap64_id (v : Z) : in_int64 v -> wrap64 v = v.
Proof.
  unfold in_int64, int64_min, int64_max, wrap64. intros Hv.
  rewrite Z.mod_small by lia. lia.
Qed.

Lemma wrap64_mod (v : Z) : wrap64 (v mod 2 ^ 64) = wrap64 v.
Proof.
  unfold wrap64. f_equal.
  rewrite <- Zplus_mod_idemp_l. rewrite Z.mod_mod by lia.
  by rewrite Zplus_mod_idemp_l.
Qed.

Lemma length_put_int64 (v : Z) : length (put_int64 v) = 8%nat.
Proof. apply length_le_encode. Qed.

Lemma get_put_int64 (v : Z) : in_int64 v -> get_int64 (put_int64 v) = v.
Proof.
  intros Hv. unfold get_int64, put_int64. rewrite le_decode_encode.
  change (256 ^ Z.of_nat 8) with (2 ^ 64).
  rewrite Z.mod_mod by lia. rewrite wrap64_mod. by apply wrap64_id.
Qed.

(** ** Reading back what was written *)

Lemma ReadFull_app (a rest : bytes) (c : error) :
  ReadFull (mkReader (a ++ rest) c) (length a) = (mkReader rest c, (a, None))
  ∨ (a = [] ∧ ReadFull (mkReader (a ++ rest) c) (length a)
               = (mkReader rest c, ([], None))).
Proof.
  unfold ReadFull. destruct a as [|x a].
  - right. split; [done|]. simpl. done.
  - left. rewrite decide_False by done. cbn [pending closing].
    rewrite decide_True by (rewrite length_app; lia).
    by rewrite drop_app_length, take_app_length.
Qed.

Lemma ReadFull_exact (a rest : bytes) (c : error) :
  ReadFull (mkReader (a ++ rest) c) (length a) = (mkReader rest c, (a, None)).
Proof.
  destruct (ReadFull_app a rest c) as [?|[-> ?]]; done.
Qed.

Lemma read_int64_put (v : Z) (rest : bytes) (c : error) :
  in_int64 v ->
  read_int64 (mkReader (put_int64 v ++ rest) c) = (mkReader rest c, Ok v).
Proof.
  intros Hv. unfold read_int64, binary_Read.
  pose proof (ReadFull_exact (put_int64 v) rest c) as Hr.
  rewrite length_put_int64 in Hr. rewrite Hr. by rewrite get_put_int64.
Qed.

Lemma read_full_exact (a rest : bytes) (c : error) :
  read_full (length a) (mkReader (a ++ rest) c) = (mkReader rest c, Ok a).
Proof.
  unfold read_full. by rewrite ReadFull_exact.
Qed.

(** ** [SerializeHashes] into a buffer *)

Lemma write_hashes_buffer (H : gmap Z bytes) (keys : list Z) (w : bytes) :
  (∀ k, k ∈ keys -> ∃ h, H !! k = Some h ∧ length h = 64%nat) ->
  FileHasher.write_hashes H keys w = (w ++ encode_entries H keys, Ok tt).
Proof.
  revert w. induction keys as [|k keys IH]; intros w Hall.
  - simpl. unfold encode_entries. simpl. by rewrite app_nil_r.
  - destruct (Hall k) as (h & Hh & Hlen); [left|].
    cbn [FileHasher.write_hashes].
    unfold mbind, Exec_bind, check, binary_Write, Write, Buffer_Writer.
    rewrite Hh. cbn [default].
    rewrite decide_False by (intros Hne; apply Hne, Hlen).
    rewrite IH by (intros k' Hk'; apply Hall; by right).
    unfold encode_entries. rewrite fmap_cons. cbn [concat].
    rewrite Hh. cbn [default]. by rewrite <- !app_assoc.
Qed.

Lemma length_encode_entries (H : gmap Z bytes) (keys : list Z) :
  (∀ k, k ∈ keys -> ∃ h, H !! k = Some h ∧ length h = 64%nat) ->
  length (encode_entries H keys) = (72 * length keys)%nat.
Proof.
  induction keys as [|k keys IH]; intros Hall; [done|].
  destruct (Hall k) as (h & Hh & Hlen); [left|].
  unfold encode_entries in *. rewrite fmap_cons. cbn [concat].
  rewrite !length_app, length_put_int64, Hh. cbn [default].
  rewrite IH by (intros k' Hk'; apply Hall; by right).
  unfold id. rewrite Hlen. cbn [length]. lia.
Qed.

(** ** [DeserializeHashes] on the entries *)

Lemma read_hashes_entries (H : gmap Z bytes) (L B : Z) (c : error) (keys : list Z) :
  ∀ (acc : gmap Z bytes) (rest : bytes),
    (∀ k, k ∈ keys ->
       in_int64 k ∧ 0 <= k <= wrap64 (L * B)
       ∧ ∃ h, H !! k = Some h ∧ length h = 64%nat) ->
    FileHasher.read_hashes (length keys) L B acc
      (mkReader (encode_entries H keys ++ rest) c)
    = (mkReader rest c,
       Ok (fold_left (fun m k => <[k := default [] (H !! k)]> m) keys acc)).
Proof.
  induction keys as [|k keys IH]; intros acc rest Hall; [done|].
  destruct (Hall k) as (Hk & Hrange & h & Hh & Hlen); [left|].
  cbn [length FileHasher.read_hashes fold_left].
  unfold encode_entries. rewrite fmap_cons. cbn [concat].
  rewrite Hh. cbn [default]. rewrite <- !app_assoc.
  unfold mbind at 1. unfold Exec_bind at 1.
  rewrite read_int64_put by done.
  rewrite decide_False by lia.
  unfold mbind at 1. unfold Exec_bind at 1.
  rewrite <- Hlen. rewrite read_full_exact.
  fold (encode_entries H keys). rewrite IH; [done|].
  intros k' Hk'. apply Hall. by right.
Qed.

Lemma lookup_fold_insert (H : gmap Z bytes) (keys : list Z) :
  ∀ (acc : gmap Z bytes) (k : Z),
    fold_left (fun m k => <[k := default [] (H !! k)]> m) keys acc !! k
    = if decide (k ∈ keys) then Some (default [] (H !! k)) else acc !! k.
Proof.
  induction keys as [|k0 keys IH]; intros acc k; cbn [fold_left].
  - by rewrite decide_False by apply not_elem_of_nil.
  - rewrite IH. destruct (decide (k ∈ keys)) as [Hin|Hin].
    + by rewrite decide_True by (by right).
    + rewrite lookup_insert. destruct (decide (k0 = k)) as [->|Hne].
      * by rewrite decide_True by left.
      * rewrite decide_False; [done|]. intros [?|?]%elem_of_cons; congruence.
Qed.

(** ** Sorting the keys *)

Lemma int64_before_le (i j : Z) : int64_before i j ↔ i <= j.
Proof.
  unfold int64_before, int64SortFunc. repeat case_decide; lia.
Qed.

Lemma int64_before_total : Total int64_before.
Proof.
  intros i j. rewrite !int64_before_le. lia.
Qed.

Lemma SortFunc_perm (keys : list Z) : SortFunc keys ≡ₚ keys.
Proof. apply merge_sort_Permutation. Qed.

Lemma SortFunc_sorted (keys : list Z) : Sorted Z.le (SortFunc keys).
Proof.
  assert (Hs : Sorted int64_before (SortFunc keys))
    by apply (@Sorted_merge_sort _ int64_before _ int64_before_total).
  induction Hs as [|x l Hs IH Hhd]; constructor; [done|].
  destruct Hhd; constructor. by apply int64_before_le.
Qed.

Section Roundtrip.
Variable range : gmap Z bytes -> list (Z * bytes).
Hypothesis range_perm : forall m, range m ≡ₚ map_to_list m.

Lemma sorted_keys_elem (H : gmap Z bytes) (k : Z) :
  k ∈ SortFunc (range H).*1 ↔ is_Some (H !! k).
Proof.
  rewrite SortFunc_perm, (range_perm H), <- elem_of_dom.
  rewrite list_elem_of_fmap. split.
  - intros [[k' v] [-> Hin]]. apply elem_of_map_to_list in Hin.
    apply elem_of_dom. eauto.
  - intros [v Hv]%elem_of_dom. exists (k, v). split; [done|].
    by apply elem_of_map_to_list.
Qed.

Lemma sorted_keys_length (H : gmap Z bytes) :
  length (SortFunc (range H).*1) = size H.
Proof.
  rewrite SortFunc_perm, length_fmap, (range_perm H).
  apply length_map_to_list.
Qed.

(** C2, as amended: for every hasher whose digests are all 64 bytes long,
    [SerializeHashes] succeeds and writes exactly [16 + 72 * |H|] bytes,
    the block size, the count and the entries by ascending offset; and when
    moreover the block size is positive and every key [k] satisfies
    [0 <= k <= |H| * B] with [|H| * B] an [int64], [DeserializeHashes]
    reads exactly [(B, H)] back from these bytes. *)
Theorem SerializeHashes_roundtrip (f : FileHasher) (c : error) :
  (∀ k h, hashes f !! k = Some h -> length h = 64%nat) ->
  ∃ out keys,
    FileHasher.SerializeHashes range f [] = (out, Ok tt)
    ∧ Z.of_nat (length out) = 16 + 72 * Z.of_nat (size (hashes f))
    ∧ Sorted Z.le keys ∧ keys ≡ₚ (map_to_list (hashes f)).*1
    ∧ out = put_int64 (blockSize f)
            ++ put_int64 (Z.of_nat (size (hashes f)))
            ++ encode_entries (hashes f) keys
    ∧ (0 < blockSize f -> in_int64 (blockSize f) ->
       in_int64 (Z.of_nat (size (hashes f)) * blockSize f) ->
       (∀ k, is_Some (hashes f !! k) ->
             0 <= k <= Z.of_nat (size (hashes f)) * blockSize f) ->
       FileHasher.DeserializeHashes (mkReader out c)
       = (mkReader [] c, Ok (blockSize f, hashes f))).
Proof.
  intros Hdigest.
  set (keys := SortFunc (range (hashes f)).*1).
  assert (Hkeys : ∀ k, k ∈ keys ->
            ∃ h, hashes f !! k = Some h ∧ length h = 64%nat).
  { intros k [h Hh]%sorted_keys_elem. eauto. }
  exists (put_int64 (blockSize f) ++ put_int64 (Z.of_nat (size (hashes f)))
          ++ encode_entries (hashes f) keys), keys.
  split_and!.
  - unfold FileHasher.SerializeHashes.
    unfold mbind, Exec_bind, check, binary_Write, Write, Buffer_Writer.
    fold keys. rewrite write_hashes_buffer by done.
    by rewrite app_nil_l, <- app_assoc.
  - rewrite !length_app, !length_put_int64, length_encode_entries by done.
    unfold keys. rewrite sorted_keys_length. lia.
  - apply SortFunc_sorted.
  - unfold keys. by rewrite SortFunc_perm, (range_perm (hashes f)).
  - done.
  - intros HB HBr Hprod Hbound.
    assert (Hsize : in_int64 (Z.of_nat (size (hashes f)))).
    { unfold in_int64, int64_min, int64_max in *. nia. }
    unfold FileHasher.DeserializeHashes.
    unfold mbind at 1. unfold Exec_bind at 1.
    rewrite read_int64_put by done.
    unfold mbind at 1. unfold Exec_bind at 1.
    rewrite read_int64_put by done.
    unfold mbind at 1. unfold Exec_bind at 1.
    assert (Hlen : length keys = size (hashes f))
      by apply sorted_keys_length.
    rewrite Nat2Z.id, <- Hlen.
    rewrite <- (app_nil_r (encode_entries (hashes f) keys)).
    rewrite (read_hashes_entries (hashes f)).
    + unfold mret, Exec_ret. do 2 f_equal. f_equal.
      apply map_eq. intros k. rewrite lookup_fold_insert, lookup_empty.
      destruct (decide (k ∈ keys)) as [Hin|Hin].
      * apply Hkeys in Hin as (h & -> & _). done.
      * destruct (hashes f !! k) eqn:Hk; [|done].
        exfalso. apply Hin, sorted_keys_elem. eauto.
    + intros k Hk. rewrite Hlen, wrap64_id by done.
      pose proof (Hkeys k Hk) as (h & Hh & Hh64).
      assert (0 <= k <= Z.of_nat (size (hashes f)) * blockSize f)
        by (apply Hbound; eauto).
      split_and!; [|lia|lia|eauto].
      unfold in_int64, int64_min, int64_max in *. lia.
Qed.

End Roundtrip.

Lemma SerializeHashes_roundtrip_witness :
  (forall m : gmap Z bytes, map_to_list m ≡ₚ map_to_list m)
  ∧ (∀ k h, hashes dense_example !! k = Some h -> length h = 64%nat)
  ∧ ∃ out,
      FileHasher.SerializeHashes map_to_list dense_example [] = (out, Ok tt)
      ∧ Z.of_nat (length out) = 16 + 72 * 2
      ∧ FileHasher.DeserializeHashes (mkReader out EOF)
        = (mkReader [] EOF, Ok (4096, hashes dense_example)).
Proof.
  assert (Hdigest : ∀ k h, hashes dense_example !! k = Some h -> length h = 64%nat).
  { intros k h. unfold dense_example. cbn [hashes].
    rewrite lookup_insert_Some, lookup_singleton_Some.
    intros [[_ <-]|[_ [_ <-]]]; reflexivity. }
  split; [intros m; apply Permutation_refl|]. split; [exact Hdigest|].
  destruct (SerializeHashes_roundtrip map_to_list (fun m => Permutation_refl _)
              dense_example EOF Hdigest)
    as (out & keys & Hser & Hlen & _ & _ & _ & Hback).
  exists out. split; [exact Hser|]. split; [exact Hlen|].
  apply Hback.
  - reflexivity.
  - vm_compute. split; discriminate.
  - vm_compute. split; discriminate.
  - intros k. unfold dense_example. cbn [hashes blockSize].
    intros [h Hh]. revert Hh.
    rewrite lookup_insert_Some, lookup_singleton_Some.
    change (size _) with 2%nat. intros [[<- _]|[_ [<- _]]]; lia.
Defined.

(** C2 as stated fails: a digest of 64 bytes at a key that is a
    non-negative multiple of the block size below the file size, and
    [DeserializeHashes] rejects what [SerializeHashes] wrote. *)
Lemma SerializeHashes_roundtrip_gap :
  (∀ k h, hashes sparse_example !! k = Some h ->
     length h = 64%nat ∧ 0 <= k < fileSize sparse_example
     ∧ k mod blockSize sparse_example = 0)
  ∧ ∃ out,
      FileHasher.SerializeHashes map_to_list sparse_example [] = (out, Ok tt)
      ∧ (FileHasher.DeserializeHashes (mkReader out EOF)).2
        = Fail (Errorf "invalid offset %d" 8192)
      ∧ (FileHasher.DeserializeHashes (mkReader out EOF)).2
        ≠ Ok (blockSize sparse_example, hashes sparse_example).
Proof.
  split.
  - intros k h. unfold sparse_example. cbn [hashes fileSize blockSize].
    rewrite lookup_singleton_Some. intros [<- <-]. split; [reflexivity|].
    split; [lia|reflexivity].
  - eexists. split; [vm_compute; reflexivity|].
    split; [vm_compute; reflexivity|]. vm_compute. discriminate.
Qed.

(** * Properties of the hasher *)

Section DiffHashes.
Variable range : gmap Z bytes -> list (Z * bytes).
Hypothesis range_perm : forall m, range m ≡ₚ map_to_list m.

Lemma range_NoDup_keys (m : gmap Z bytes) : NoDup (range m).*1.
Proof.
  rewrite (range_perm m). apply NoDup_fst_map_to_list.
Qed.

Lemma range_elem (m : gmap Z bytes) k v : (k, v) ∈ range m ↔ m !! k = Some v.
Proof.
  rewrite (range_perm m). apply elem_of_map_to_list.
Qed.

Lemma range_key (m : gmap Z bytes) k : k ∈ (range m).*1 ↔ k ∈ dom m.
Proof.
  rewrite elem_of_dom, list_elem_of_fmap. split.
  - intros [[k' v] [-> Hin]]. apply range_elem in Hin. eauto.
  - intros [v Hv]. exists (k, v). split; [done|]. by apply range_elem.
Qed.

(** The first loop of [DiffHashes] over any list of entries with distinct
    keys. *)
Lemma diff_local_fold (l : list (Z * bytes)) :
  ∀ diff cmp diff' cmp',
    NoDup l.*1 ->
    fold_left FileHasher.diff_local l (diff, cmp) = (diff', cmp') ->
    (∀ k, cmp' !! k = if decide (k ∈ l.*1) then None else cmp !! k)
    ∧ (∀ k, k ∈ diff' ↔ k ∈ diff ∨ ∃ v, (k, v) ∈ l ∧ cmp !! k ≠ Some v)
    ∧ (NoDup diff -> (∀ k, k ∈ diff -> k ∉ l.*1) -> NoDup diff').
Proof.
  induction l as [|[k0 v0] l IH]; intros diff cmp diff' cmp' Hnd Hfold.
  - simpl in Hfold. injection Hfold as <- <-. split_and!.
    + intros k. by rewrite decide_False by (simpl; apply not_elem_of_nil).
    + intros k. split; [auto|]. intros [?|(v & Hin & _)]; [done|].
      by apply elem_of_nil in Hin.
    + auto.
  - simpl in Hnd. apply NoDup_cons in Hnd as [Hk0 Hnd].
    cbn [fold_left] in Hfold.
    destruct (FileHasher.diff_local (diff, cmp) (k0, v0)) as [d1 c1] eqn:Hstep.
    destruct (IH d1 c1 diff' cmp' Hnd Hfold) as (Hc & Hd & Hn). clear IH Hfold.
    assert (Hc1 : ∀ k, c1 !! k = if decide (k = k0) then None else cmp !! k).
    { intros k. unfold FileHasher.diff_local in Hstep.
      destruct (cmp !! k0) eqn:Hk; injection Hstep as <- <-.
      - rewrite lookup_delete. destruct (decide (k0 = k)); subst;
          case_decide; congruence.
      - case_decide; subst; done. }
    assert (Hd1 : ∀ k, k ∈ d1 ↔ k ∈ diff ∨ (k = k0 ∧ cmp !! k0 ≠ Some v0)).
    { intros k. unfold FileHasher.diff_local in Hstep.
      destruct (cmp !! k0) as [w|] eqn:Hk; injection Hstep as <- <-.
      - unfold bytes_Equal. case_bool_decide; subst.
        + split; [auto|]. intros [?|[_ ?]]; [done|congruence].
        + rewrite elem_of_app, list_elem_of_singleton.
          split; [intros [?| ->]; [auto|right; split; [done|congruence]]|].
          intros [?|[? _]]; auto.
      - rewrite elem_of_app, list_elem_of_singleton.
        split; [intros [?| ->]; auto|]. intros [?|[? _]]; auto. }
    split_and!.
    + intros k. rewrite Hc, Hc1, fmap_cons. cbn [fst].
      destruct (decide (k ∈ k0 :: l.*1)) as [Hin|Hin].
      * destruct (decide (k ∈ l.*1)); [done|]. case_decide; [done|].
        by apply elem_of_cons in Hin as [?|?].
      * rewrite decide_False by (intros ?; apply Hin; by right).
        rewrite decide_False by (intros ->; apply Hin; left). done.
    + intros k. rewrite Hd, Hd1. split.
      * intros [[?|[ -> ?]]|(v & Hin & Hne)]; [by left|right..].
        -- exists v0. split; [left|done].
        -- exists v. split; [by right|]. rewrite Hc1 in Hne.
           case_decide; [subst|done].
           exfalso. apply Hk0. apply list_elem_of_fmap. by exists (k0, v).
      * intros [?|(v & Hin & Hne)]; [by left; left|].
        apply elem_of_cons in Hin as [[= -> ->]|Hin]; [left; right; done|].
        right. exists v. split; [done|]. rewrite Hc1.
        case_decide; [done|done].
    + intros Hnd0 Hdisj. apply Hn.
      * unfold FileHasher.diff_local in Hstep.
        destruct (cmp !! k0) as [w|] eqn:Hk; injection Hstep as <- <-.
        -- case_match; [done|]. apply NoDup_app. split_and!; [done| |apply NoDup_singleton].
           intros x Hx ->%list_elem_of_singleton. apply (Hdisj _ Hx). simpl. left.
        -- apply NoDup_app. split_and!; [done| |apply NoDup_singleton].
           intros x Hx ->%list_elem_of_singleton. apply (Hdisj _ Hx). simpl. left.
      * intros k [Hk|[ -> _]]%Hd1; [|done].
        intros Hin. apply (Hdisj _ Hk). simpl. by right.
Qed.

(** The second loop, over any list of entries with distinct keys. *)
Lemma diff_remaining_fold (size : Z) (l : list (Z * bytes)) :
  ∀ diff,
    let diff' := fold_left (FileHasher.diff_remaining size) l diff in
    (∀ k, k ∈ diff' ↔ k ∈ diff ∨ (k ∈ l.*1 ∧ k < size))
    ∧ (NoDup l.*1 -> NoDup diff -> (∀ k, k ∈ diff -> k ∉ l.*1) -> NoDup diff').
Proof.
  induction l as [|[k0 v0] l IH]; intros diff; simpl.
  - split; [|auto]. intros k. split; [auto|]. intros [?|[Hin _]]; [done|].
    by apply elem_of_nil in Hin.
  - destruct (IH (FileHasher.diff_remaining size diff (k0, v0))) as [Hd Hn].
    assert (Hd1 : ∀ k, k ∈ FileHasher.diff_remaining size diff (k0, v0)
                       ↔ k ∈ diff ∨ (k = k0 ∧ k < size)).
    { intros k. unfold FileHasher.diff_remaining. simpl. case_decide.
      - rewrite elem_of_app, list_elem_of_singleton.
        split; [intros [?| ->]; auto|]. intros [?|[? _]]; auto.
      - split; [auto|]. intros [?|[ -> ?]]; [done|lia]. }
    split.
    + intros k. rewrite Hd, Hd1, elem_of_cons.
      split; [intros [[?|[ -> ?]]|[? ?]]; auto|].
      intros [?|[[->|?] ?]]; auto.
    + intros [Hk0 Hnd]%NoDup_cons Hnd0 Hdisj. apply Hn; [done| |].
      * unfold FileHasher.diff_remaining. simpl. case_decide; [|done].
        apply NoDup_app. split_and!; [done| |apply NoDup_singleton].
        intros x Hx ->%list_elem_of_singleton. apply (Hdisj _ Hx). left.
      * intros k [Hk|[ -> _]]%Hd1; [|done].
        intros Hin. apply (Hdisj _ Hk). by right.
Qed.

(** C1 (diff correctness): for hash maps over the same block size,
    [DiffHashes] succeeds, no offset appears twice in its result, and the
    offsets are exactly the keys of the local map that the peer's map lacks
    or maps to different bytes, together with the peer's keys that the
    local map lacks and that lie below the local file size. *)
Theorem DiffHashes_diff_set (f : FileHasher) (H_tgt : gmap Z bytes) :
  ∃ diff rest,
    FileHasher.DiffHashes range f (FileHasher.BlockSize f) H_tgt = (diff, rest, None)
    ∧ NoDup diff
    ∧ ∀ k, k ∈ diff ↔
        (k ∈ dom (hashes f) ∧ (k ∉ dom H_tgt ∨ hashes f !! k ≠ H_tgt !! k))
        ∨ (k ∈ dom H_tgt ∧ (k ∉ dom (hashes f)) ∧ k < fileSize f).
Proof.
  unfold FileHasher.DiffHashes, FileHasher.BlockSize.
  rewrite decide_False; [|intros Hne; apply Hne; reflexivity].
  destruct (fold_left FileHasher.diff_local (range (hashes f)) ([], H_tgt))
    as [d1 c1] eqn:Hfold.
  destruct (diff_local_fold _ _ _ _ _ (range_NoDup_keys _) Hfold) as (Hc & Hd & Hn).
  destruct (diff_remaining_fold (fileSize f) (range c1) d1) as [Hd2 Hn2].
  eexists _, _. split; [reflexivity|].
  assert (Hc1 : ∀ k, k ∈ dom c1 ↔ k ∈ dom H_tgt ∧ k ∉ dom (hashes f)).
  { intros k. rewrite (elem_of_dom c1), Hc.
    destruct (decide (k ∈ (range (hashes f)).*1)) as [Hin|Hin];
      rewrite range_key in Hin.
    - split; [by intros []|]. intros [_ Hno]. done.
    - rewrite <- elem_of_dom. split; [auto|]. by intros []. }
  split.
  - apply Hn2; [apply range_NoDup_keys|apply Hn| ].
    + apply NoDup_nil_2.
    + intros k Hk. by apply elem_of_nil in Hk.
    + intros k [Hk|(v & Hin & Hne)]%Hd; [by apply elem_of_nil in Hk|].
      rewrite range_key, Hc1. apply range_elem in Hin.
      intros [_ Hno]. apply Hno, elem_of_dom. eauto.
  - intros k. rewrite Hd2, Hd, range_key, Hc1. split.
    + intros [[Hk|(v & Hin & Hne)]|[Hk ?]].
      * by apply elem_of_nil in Hk.
      * apply range_elem in Hin. left. split; [apply elem_of_dom; eauto|].
        destruct (H_tgt !! k) as [w|] eqn:Hw.
        -- right. congruence.
        -- left. by apply not_elem_of_dom.
      * right. tauto.
    + intros [[[v Hv]%elem_of_dom Hdiff]|?]; [|right; tauto].
      left. right. exists v. split; [by apply range_elem|].
      destruct Hdiff as [Hno%not_elem_of_dom|Hne]; congruence.
Qed.

End DiffHashes.

Lemma DiffHashes_diff_set_witness :
  (forall m : gmap Z bytes, map_to_list m ≡ₚ map_to_list m)
  ∧ ∃ diff rest,
      FileHasher.DiffHashes map_to_list local_example
        (FileHasher.BlockSize local_example) peer_example = (diff, rest, None)
      ∧ NoDup diff
      ∧ ∀ k, k ∈ diff ↔
          (k ∈ dom (hashes local_example)
           ∧ (k ∉ dom peer_example ∨ hashes local_example !! k ≠ peer_example !! k))
          ∨ (k ∈ dom peer_example ∧ (k ∉ dom (hashes local_example))
             ∧ k < fileSize local_example).
Proof.
  split; [intros m; apply Permutation_refl|].
  apply (DiffHashes_diff_set map_to_list (fun m => Permutation_refl _) local_example).
Defined.

(** * Hashing a file shorter than a block *)

Section ShortFile.
Variable blake2b512 : bytes -> bytes.
Variable file : SourceFile.

Lemma concurrentHashCount_short (f : FileHasher) (size : Z) :
  0 <= size < blockSize f ->
  FileHasher.concurrentHashCount f size = Ok 0.
Proof.
  intros Hsize. unfold FileHasher.concurrentHashCount, defaultConcurrency.
  rewrite decide_False by lia. rewrite Z.quot_small by lia. done.
Qed.

Lemma idle_run_step (B size : Z) (s s' : HashRun) :
  0 <= size < B ->
  idle_run B size s -> HashFile_step blake2b512 file s s' -> idle_run B size s'.
Proof.
  intros Hsize [Hh HB Hs Hr Hn Hw Hpc] Hstep.
  assert (Hcount : FileHasher.concurrentHashCount (hasher_of s) (fileSize (hasher_of s))
                   = Ok 0).
  { rewrite Hs. apply concurrentHashCount_short. by rewrite HB. }
  destruct Hstep; cbn [hasher_of res wg workers pc wait] in *; subst;
    try (by rewrite lookup_nil in *);
    try (constructor; cbn [hasher_of res wg workers pc wait]; done).
  - constructor; cbn [hasher_of res wg workers pc wait]; try done.
    destruct Hpc as [[? _]|[[? _]|?]]; [left|right; left|right; right]; done.
  - congruence.
  - exfalso. destruct Hpc as [[Hp _]|[[Hp _]|Hp]]; try discriminate.
    injection Hp as ->. rewrite Hcount in *. simplify_eq. lia.
  - constructor; cbn [hasher_of res wg workers pc wait]; try done.
    right. left. split; [done|]. destruct Hpc as [[_ ?]|[[_ ?]|?]]; done.
  - constructor; cbn [hasher_of res wg workers pc wait]; try done.
    right. right. done.
Qed.

Lemma idle_run_start (f : FileHasher) (size : Z) :
  hashes f = ∅ -> idle_run (blockSize f) size (HashFile_start f size).
Proof.
  intros Hf. constructor; cbn; try done. left. done.
Qed.

Lemma idle_run_reachable (B size : Z) (s s' : HashRun) :
  0 <= size < B ->
  idle_run B size s -> rtc (HashFile_step blake2b512 file) s s' ->
  idle_run B size s'.
Proof.
  intros Hsize Hs Hrun. induction Hrun as [|s s1 s2 Hstep _ IH]; [done|].
  apply IH. by eapply idle_run_step.
Qed.

(** A run without workers can always be completed: the waiter wakes up and
    [select] takes [done]. *)
Lemma idle_run_completes (B size : Z) (s : HashRun) :
  0 <= size < B ->
  idle_run B size s ->
  ∃ s', rtc (HashFile_step blake2b512 file) s s'
        ∧ pc s' = Returned size None ∧ hashes (hasher_of s') = ∅.
Proof.
  intros Hsize Hs.
  assert (Hsel : ∀ s, idle_run B size s -> pc s = Selecting ->
            ∃ s', rtc (HashFile_step blake2b512 file) s s'
                  ∧ pc s' = Returned size None ∧ hashes (hasher_of s') = ∅).
  { clear s Hs. intros [f q pr r n ws wt p] [Hh HB Hf Hr Hn Hw Hpc] Hp.
    cbn in *. subst. destruct wt.
    - eexists. split; [|split].
      + eapply rtc_l; [apply waiter_wake|]. apply rtc_once. apply main_done.
      + done.
      + done.
    - eexists. split; [|split].
      + apply rtc_once. apply main_done.
      + done.
      + done.
    - destruct Hpc as [[? _]|[[_ ?]|?]]; done. }
  destruct (idle_pc _ _ _ Hs) as [[Hp Hwt]|[[Hp Hwt]|Hp]].
  - destruct s as [f q pr r n ws wt p]. cbn in Hp. subst p.
    assert (Hstep : HashFile_step blake2b512 file
              (mkHashRun f q pr r n ws wt (Spawning 0))
              (mkHashRun f q pr r n ws wt Selecting)).
    { apply main_spawned with (count := 0); [|lia].
      destruct Hs. cbn in *. subst.
      by apply concurrentHashCount_short. }
    destruct (Hsel _ (idle_run_step _ _ _ _ Hsize Hs Hstep) eq_refl)
      as (s' & Hrun & Hret).
    exists s'. split; [|done]. by eapply rtc_l.
  - by apply Hsel.
  - exists s. split; [done|]. split; [done|]. by destruct Hs.
Qed.

(** C9: for a file of [size] bytes with [0 <= size < blockSize] and a
    fresh hasher, the worker count is 0; [HashFile] can return, every
    return of it is [(size, nil)], and it leaves [GetHashes()] empty: the
    one short block is not hashed and no error reports it.  No run of it
    gets stuck before the return. *)
Theorem HashFile_short_file (f : FileHasher) :
  open_error file = None ->
  hashes f = ∅ ->
  Z.of_nat (length (content file)) < blockSize f ->
  let size := Z.of_nat (length (content file)) in
  FileHasher.concurrentHashCount f size = Ok 0
  ∧ (∃ f', HashFile blake2b512 file f f' (size, None))
  ∧ (∀ f' r, HashFile blake2b512 file f f' r ->
       r = (size, None) ∧ FileHasher.GetHashes f' = ∅)
  ∧ (∀ s, rtc (HashFile_step blake2b512 file) (HashFile_start f size) s ->
       ∃ s', rtc (HashFile_step blake2b512 file) s s'
             ∧ pc s' = Returned size None).
Proof.
  intros Hopen Hfresh Hshort size.
  assert (Hsize : 0 <= size < blockSize f) by (unfold size; lia).
  assert (Hget : getFileSize file = (size, None)).
  { unfold getFileSize. by rewrite Hopen. }
  pose proof (idle_run_start f size Hfresh) as Hstart.
  split_and!.
  - by apply concurrentHashCount_short.
  - destruct (idle_run_completes _ _ _ Hsize Hstart) as (s' & Hrun & Hret & _).
    exists (hasher_of s'). by eapply HashFile_returned.
  - intros f' r Hcall. destruct Hcall as [e He|size0 s size' err Hsz Hrun Hret].
    + congruence.
    + rewrite Hget in Hsz. injection Hsz as <-.
      pose proof (idle_run_reachable _ _ _ _ Hsize Hstart Hrun) as Hs.
      destruct (idle_pc _ _ _ Hs) as [[Hp _]|[[Hp _]|Hp]]; try congruence.
      rewrite Hret in Hp. injection Hp as -> ->. split; [done|].
      apply (idle_hashes _ _ _ Hs).
  - intros s Hrun.
    pose proof (idle_run_reachable _ _ _ _ Hsize Hstart Hrun) as Hs.
    destruct (idle_run_completes _ _ _ Hsize Hs) as (s' & Hrun' & Hret & _).
    eauto.
Qed.

End ShortFile.

Lemma HashFile_short_file_witness :
  open_error short_file = None
  ∧ hashes (NewFileHasher 4) = ∅
  ∧ Z.of_nat (length (content short_file)) < blockSize (NewFileHasher 4)
  ∧ FileHasher.concurrentHashCount (NewFileHasher 4) 3 = Ok 0
  ∧ (∃ f', HashFile (fun b => b) short_file (NewFileHasher 4) f' (3, None))
  ∧ (∀ f' r, HashFile (fun b => b) short_file (NewFileHasher 4) f' r ->
       r = (3, None) ∧ FileHasher.GetHashes f' = ∅).
Proof.
  split; [reflexivity|]. split; [reflexivity|]. split; [simpl; lia|].
  destruct (HashFile_short_file (fun b => b) short_file (NewFileHasher 4))
    as (Hcount & Hret & Hall & _).
  - reflexivity.
  - reflexivity.
  - simpl. lia.
  - split; [exact Hcount|]. split; [exact Hret|exact Hall].
Defined.

(** * The block reader *)

Lemma handleReadError_stops {S : Type} (err : option error) (cb : S -> S) (s : S) :
  (handleReadError err cb s).2.1 = false.
Proof.
  unfold handleReadError. by case_decide.
Qed.

(** [Next] reports an error only when it is not of the EOF class. *)
Lemma handleReadError_error {S : Type} (err : option error) (cb : S -> S) (s : S)
  (e : error) :
  (handleReadError err cb s).2.2 = Some e ->
  err = Some e ∧ e ≠ EOF ∧ e ≠ ErrUnexpectedEOF.
Proof.
  unfold handleReadError. case_decide as Hc; cbn; [done|].
  intros ->. split; [done|]. split; intros ->; apply Hc; auto.
Qed.

Lemma binary_Read_ok (r r' : Reader) (v : Z) :
  binary_Read r = (r', inl v) ->
  (8 <= length (pending r))%nat
  ∧ r' = mkReader (drop 8 (pending r)) (closing r).
Proof.
  unfold binary_Read, ReadFull. rewrite decide_False by done.
  case_decide as Hlen.
  - intros [= <- _]. done.
  - destruct (pending r); intros [=].
Qed.

Lemma binary_Read_put (v : Z) (rest : bytes) (c : error) :
  in_int64 v ->
  binary_Read (mkReader (put_int64 v ++ rest) c) = (mkReader rest c, inl v).
Proof.
  intros Hv. unfold binary_Read.
  pose proof (ReadFull_exact (put_int64 v) rest c) as Hr.
  rewrite length_put_int64 in Hr. rewrite Hr. by rewrite get_put_int64.
Qed.

(** [handleReadError] never asks for more. *)
Ltac handled_is_last H :=
  match type of H with
  | handleReadError ?e ?cb ?s = _ =>
      let Hs := fresh in
      pose proof (handleReadError_stops e cb s) as Hs;
      rewrite H in Hs; discriminate Hs
  end.

(** A call of [Next] that asks for more has consumed a record. *)
Lemma Next_cont_consumes (b b' : BlockReader) (err : option error) :
  BlockReader.Next b = (b', (true, err)) ->
  (length (pending (source b')) < length (pending (source b)))%nat.
Proof.
  unfold BlockReader.Next.
  destruct (binary_Read (source b)) as [src [off|e]] eqn:Hoff.
  - apply binary_Read_ok in Hoff as [Hlen ->].
    cbn [BlockReader.set_source BlockReader.set_offset source buf_array buf_len
           offset offsetType].
    destruct (Read _ 1) as [src [ty err1]] eqn:Hty.
    cbn [BlockReader.set_source source buf_array buf_len offset offsetType].
    case_decide.
    + intros Hn. handled_is_last Hn.
    + assert (Hsrc : (length (pending src) <= length (drop 8 (pending (source b))))%nat).
      { unfold Read in Hty. cbn [pending closing] in Hty.
        destruct (drop 8 (pending (source b))) eqn:Hd; injection Hty as <- _ _;
          cbn [pending]; [simpl; lia|]. rewrite length_drop. simpl. lia. }
      rewrite length_drop in Hsrc.
      cbn [BlockReader.set_offsetType source buf_array buf_len offset offsetType].
      destruct (BlockReader.IsHole _).
      * intros [= <- _]. cbn. lia.
      * cbn [BlockReader.set_offsetType BlockReader.set_source BlockReader.set_offset
               source buf_array buf_len offset offsetType].
        destruct (ReadFull src (length (buf_array b))) as [src2 [data err2]] eqn:Hfull.
        cbn [BlockReader.set_array BlockReader.set_source source buf_array buf_len
               offset offsetType].
        destruct err2 as [e2|].
        -- intros Hn. handled_is_last Hn.
        -- intros [= <- _]. cbn.
           unfold ReadFull in Hfull.
           repeat case_decide; try (destruct (pending src); discriminate);
             injection Hfull as <- _; cbn; rewrite ?length_drop; lia.
  - intros Hn. handled_is_last Hn.
Qed.

(** ** The reception loop always returns *)

Lemma receive_total (b : BlockrsyncServer) (fuel : nat) :
  ∀ (blockReader : BlockReader) (f : os_File),
    (length (pending (source blockReader)) < fuel)%nat ->
    is_Some (BlockrsyncServer.receive fuel b blockReader f).
Proof.
  induction fuel as [|fuel IH]; intros br f Hfuel; [lia|].
  cbn [BlockrsyncServer.receive].
  destruct (BlockReader.Next br) as [br' [cont err]] eqn:Hnext.
  destruct err; [eauto|].
  match goal with |- context [let '(_, _) := ?m f in _] =>
    destruct (m f) as [f' r] end.
  destruct r; eauto. destruct cont; eauto.
  apply IH. apply Next_cont_consumes in Hnext. lia.
Qed.

Theorem writeBlocksToFile_returns (b : BlockrsyncServer) (f : os_File) (reader : Reader) :
  is_Some (BlockrsyncServer.writeBlocksToFile b f reader).
Proof.
  unfold BlockrsyncServer.writeBlocksToFile.
  destruct (binary_Read reader) as [reader1 [sourceSize|e]]; [|eauto].
  destruct (BlockrsyncServer.truncateFileIfNeeded _ _ _ f) as [f1 [[]|e|]]; eauto.
  destruct (NewBlockReader _ _) as [br|e|] eqn:Hnew; eauto.
  assert (Hsrc : source br = reader1).
  { unfold NewBlockReader in Hnew. case_decide; [done|]. by injection Hnew as <-. }
  destruct (receive_total
              (BlockrsyncServer.set_targetFileSize b
                 (targetFileSize b `max` sourceSize))
              (S (length (pending reader1))) br f1) as [[[br' f'] r] ->].
  - rewrite Hsrc. lia.
  - cbn. eauto.
Qed.

(** * Decoding records *)

Ltac simpl_reader :=
  unfold BlockReader.set_source, BlockReader.set_offset,
    BlockReader.set_offsetType, BlockReader.set_array, BlockReader.truncate,
    BlockReader.IsHole, BlockReader.Offset, BlockReader.Block;
  cbn [source buf_array buf_len offset offsetType head default id].

Lemma set_source_same (b : BlockReader) : BlockReader.set_source b (source b) = b.
Proof. by destruct b. Qed.

Lemma binary_Read_end (c : error) :
  binary_Read (mkReader [] c) = (mkReader [] c, inr c).
Proof. reflexivity. Qed.

(** The stream has ended cleanly before an offset: [Next] stops and leaves
    the reader as it was. *)
Lemma Next_clean_end (b : BlockReader) :
  source b = mkReader [] EOF ->
  BlockReader.Next b = (b, (false, None)).
Proof.
  intros Hsrc. unfold BlockReader.Next. rewrite Hsrc, binary_Read_end.
  rewrite <- Hsrc, set_source_same. done.
Qed.

Lemma Read_one (x : byte) (rest : bytes) (c : error) :
  Read (mkReader (x :: rest) c) 1 = (mkReader rest c, ([x], None)).
Proof. unfold Read. cbn. by rewrite drop_0. Qed.

Lemma Next_hole (b : BlockReader) (off : Z) (rest : bytes) (c : error) :
  in_int64 off ->
  source b = mkReader (put_int64 off ++ Hole :: rest) c ->
  BlockReader.Next b
  = (mkBlockReader (mkReader rest c) (buf_array b) (buf_len b) off Hole,
     (true, None)).
Proof.
  intros Hoff Hsrc. unfold BlockReader.Next.
  rewrite Hsrc, binary_Read_put by done. simpl_reader.
  rewrite Read_one.
  rewrite decide_False by (intros [?|?]; done).
  simpl_reader. by rewrite bool_decide_eq_true_2.
Qed.

Lemma read_into_full (old data : bytes) :
  length data = length old -> read_into old data = data.
Proof.
  intros Hlen. unfold read_into. rewrite Hlen, drop_all. apply app_nil_r.
Qed.

Lemma Next_block (b : BlockReader) (off : Z) (ty : byte) (payload rest : bytes)
  (c : error) :
  in_int64 off -> ty ≠ Hole ->
  length payload = length (buf_array b) ->
  source b = mkReader (put_int64 off ++ ty :: payload ++ rest) c ->
  BlockReader.Next b
  = (mkBlockReader (mkReader rest c) payload (buf_len b) off ty, (true, None)).
Proof.
  intros Hoff Hty Hlen Hsrc. unfold BlockReader.Next.
  rewrite Hsrc, binary_Read_put by done. simpl_reader.
  rewrite Read_one.
  rewrite decide_False by (intros [?|?]; done).
  simpl_reader. rewrite bool_decide_eq_false_2 by done.
  rewrite <- Hlen, ReadFull_exact. simpl_reader.
  by rewrite read_into_full.
Qed.

(** The stream ends inside a payload: [io.ReadFull] reports
    [ErrUnexpectedEOF] with the bytes it got. *)
Lemma ReadFull_short (payload : bytes) (n : nat) :
  (0 < length payload < n)%nat ->
  ReadFull (mkReader payload EOF) n
  = (mkReader [] EOF, (payload, Some ErrUnexpectedEOF)).
Proof.
  intros Hlen. unfold ReadFull. rewrite decide_False by lia.
  cbn [pending closing]. rewrite decide_False by lia.
  destruct payload; [simpl in Hlen; lia|]. done.
Qed.

Lemma Next_short_block (b : BlockReader) (off : Z) (ty : byte) (payload : bytes) :
  in_int64 off -> ty ≠ Hole ->
  (0 < length payload < length (buf_array b))%nat ->
  source b = mkReader (put_int64 off ++ ty :: payload) EOF ->
  BlockReader.Next b
  = (mkBlockReader (mkReader [] EOF) (read_into (buf_array b) payload)
       (length payload) off ty,
     (false, None)).
Proof.
  intros Hoff Hty Hlen Hsrc. unfold BlockReader.Next.
  rewrite Hsrc, binary_Read_put by done. simpl_reader.
  rewrite Read_one.
  rewrite decide_False by (intros [?|?]; done).
  simpl_reader. rewrite bool_decide_eq_false_2 by done.
  rewrite ReadFull_short by done. simpl_reader.
  unfold handleReadError. rewrite decide_True by auto. done.
Qed.

(** ** Applying what the reader holds *)

Lemma apply_held (b : BlockrsyncServer) (br : BlockReader) (r : record) :
  holds br r ->
  (if BlockReader.IsHole br then
     BlockrsyncServer.handleEmptyBlock b (BlockReader.Offset br)
   else
     BlockrsyncServer.writeBlockToOffset (BlockReader.Block br)
       (BlockReader.Offset br))
  = apply_record b r.
Proof.
  unfold BlockReader.IsHole, BlockReader.Offset. destruct r as [off|off payload]; cbn.
  - intros [-> ->]. by rewrite bool_decide_eq_true_2.
  - intros (-> & Hty & ->). by rewrite bool_decide_eq_false_2.
Qed.

Lemma apply_records_app (b : BlockrsyncServer) (rs1 rs2 : list record) (f : os_File) :
  apply_records b (rs1 ++ rs2) f
  = (apply_records b rs1;; apply_records b rs2) f.
Proof.
  revert f. induction rs1 as [|r rs1 IH]; intros f; [done|].
  cbn [app apply_records]. unfold mbind, Exec_bind.
  destruct (apply_record b r f) as [f1 [[]| |]]; [|done|done].
  rewrite IH. done.
Qed.

(** The reception loop on a stream of complete records that ends cleanly:
    every record is applied in turn and, when [Next] then reports the end,
    what the reader still holds (the last record, or [prev] when there was
    none) is applied once more. *)
Lemma receive_records (b : BlockrsyncServer) (rs : list record) :
  ∀ (fuel : nat) (br : BlockReader) (prev : record) (f : os_File),
    Forall (complete_record (length (buf_array br))) rs ->
    buf_len br = length (buf_array br) ->
    holds br prev ->
    source br = mkReader (encode_records rs) EOF ->
    (length rs < fuel)%nat ->
    ∃ br',
      BlockrsyncServer.receive fuel b br f
      = Some (br', (apply_records b (rs ++ [default prev (last rs)]) f).1,
              (apply_records b (rs ++ [default prev (last rs)]) f).2).
Proof.
  induction rs as [|r rs IH]; intros fuel br prev f Hall Hcap Hprev Hsrc Hfuel.
  - destruct fuel as [|fuel]; [simpl in Hfuel; lia|].
    exists br.
    cbn [BlockrsyncServer.receive]. rewrite Next_clean_end by done.
    rewrite (apply_held b br prev Hprev).
    cbn [app last default apply_records]. unfold mbind, Exec_bind, mret, Exec_ret.
    destruct (apply_record b prev f) as [f1 [[]| |]]; done.
  - destruct fuel as [|fuel]; [simpl in Hfuel; lia|].
    apply Forall_cons in Hall as [Hr Hall].
    unfold encode_records in Hsrc. rewrite fmap_cons in Hsrc. cbn [concat] in Hsrc.
    fold (encode_records rs) in Hsrc.
    assert (Hlast : default prev (last (r :: rs)) = default r (last rs)).
    { rewrite last_cons. by destruct (last rs). }
    rewrite Hlast.
    cbn [BlockrsyncServer.receive].
    destruct r as [off|off payload]; cbn [complete_record encode_record] in *.
    + rewrite <- app_assoc in Hsrc. cbn [app] in Hsrc.
      rewrite (Next_hole br off _ EOF Hr Hsrc).
      match goal with |- context [let '(_, _) := ?m f in _] =>
        replace m with (apply_record b (HoleRecord off))
          by (symmetry; apply apply_held; done) end.
      cbn [app apply_records]. unfold mbind, Exec_bind.
      destruct (apply_record b (HoleRecord off) f) as [f1 [[]| |]];
        [|eexists; reflexivity..].
      apply IH; cbn; try done. simpl in Hfuel. lia.
    + destruct Hr as [Hoff Hlen].
      rewrite <- app_assoc in Hsrc. cbn [app] in Hsrc.
      rewrite (Next_block br off Block payload _ EOF Hoff ltac:(done) Hlen Hsrc).
      match goal with |- context [let '(_, _) := ?m f in _] =>
        replace m with (apply_record b (BlockRecord off payload)) end.
      2:{ symmetry. apply apply_held. cbn. split; [done|]. split; [done|].
          unfold BlockReader.Block. cbn. rewrite Hcap, <- Hlen. apply firstn_all. }
      cbn [app apply_records]. unfold mbind, Exec_bind.
      destruct (apply_record b (BlockRecord off payload) f) as [f1 [[]| |]];
        [|eexists; reflexivity..].
      apply IH; cbn; try done.
      * by rewrite Hlen.
      * by rewrite Hcap.
      * split; [done|]. split; [done|].
        unfold BlockReader.Block. cbn. rewrite Hcap, <- Hlen. apply firstn_all.
      * simpl in Hfuel. lia.
Qed.

(** * The target's file operations *)

Lemma sys_called (c : syscall) (f : os_File) :
  sys c f = (called f c, fault f (calls f) c).
Proof. done. Qed.

Lemma PunchHole_called (f : os_File) (offset size : Z) :
  (PunchHole f offset size).1
  = called f (Fallocate (Z.lor FALLOC_FL_KEEP_SIZE FALLOC_FL_PUNCH_HOLE) offset size).
Proof. done. Qed.

Lemma handleEmptyBlock_punch (b : BlockrsyncServer) (off : Z) (f : os_File) :
  Preallocation (opts b) = false ->
  BlockrsyncServer.handleEmptyBlock b off f = (called f (hole_call b off), Ok tt).
Proof.
  intros Hp. unfold BlockrsyncServer.handleEmptyBlock, hole_call. rewrite Hp.
  unfold ignore_error. by rewrite PunchHole_called.
Qed.

Lemma handleEmptyBlock_prealloc (b : BlockrsyncServer) (off : Z) (f : os_File) :
  Preallocation (opts b) = true ->
  0 <= FileHasher.BlockSize (hasher b) ->
  off <= targetFileSize b ->
  in_int64 (targetFileSize b - off) ->
  BlockrsyncServer.handleEmptyBlock b off f
  = (called f (hole_call b off), as_outcome (fault f (calls f) (hole_call b off))).
Proof.
  intros Hp HB Hoff Hr. unfold BlockrsyncServer.handleEmptyBlock, hole_call.
  rewrite Hp, wrap64_id by done.
  rewrite decide_False by lia.
  rewrite (Z.min_comm (targetFileSize b - off)).
  unfold check. rewrite sys_called. by destruct (fault f _ _).
Qed.

(** * Reception of records *)

Lemma Block_not_Hole : Block ≠ Hole.
Proof. discriminate. Qed.

(** C5: when the stream ends inside the payload of a BLOCK record after
    [n] bytes, [0 < n < B], [io.ReadFull] reports [ErrUnexpectedEOF],
    [Next] returns [(false, nil)] with [Block()] cut to exactly these [n]
    bytes, and the turn of the reception loop that decoded the record
    seeks to its offset and writes these bytes; the loop ends there with
    the result of that write, no error of the decoder is returned. *)
Theorem truncated_block_applied (b : BlockrsyncServer) (br : BlockReader)
  (off : Z) (payload : bytes) (f : os_File) (fuel : nat) :
  in_int64 off ->
  (0 < length payload < length (buf_array br))%nat ->
  source br = mkReader (put_int64 off ++ Block :: payload) EOF ->
  (ReadFull (mkReader payload EOF) (length (buf_array br))).2
  = (payload, Some ErrUnexpectedEOF)
  ∧ ∃ br',
      BlockReader.Next br = (br', (false, None))
      ∧ BlockReader.Block br' = payload
      ∧ BlockReader.Offset br' = off
      ∧ BlockReader.IsHole br' = false
      ∧ BlockrsyncServer.receive (S fuel) b br f
        = Some (br', (BlockrsyncServer.writeBlockToOffset payload off f).1,
                (BlockrsyncServer.writeBlockToOffset payload off f).2)
      ∧ (fault f (calls f) (Lseek off) = None ->
         fault f (calls f ++ [Lseek off]) (Writev payload) = None ->
         BlockrsyncServer.writeBlockToOffset payload off f
         = (called (called f (Lseek off)) (Writev payload), Ok tt)).
Proof.
  intros Hoff Hlen Hsrc. split; [by rewrite ReadFull_short|].
  eexists. split; [exact (Next_short_block br off Block payload Hoff
                             Block_not_Hole Hlen Hsrc)|].
  assert (Hblock : take (length payload) (read_into (buf_array br) payload) = payload).
  { unfold read_into. by rewrite take_app_length. }
  split_and!.
  - exact Hblock.
  - done.
  - done.
  - cbn [BlockrsyncServer.receive].
    rewrite (Next_short_block br off Block payload Hoff Block_not_Hole Hlen Hsrc).
    simpl_reader. rewrite bool_decide_eq_false_2 by done. rewrite Hblock.
    destruct (BlockrsyncServer.writeBlockToOffset payload off f) as [f1 [[]| |]]; done.
  - intros H1 H2. unfold BlockrsyncServer.writeBlockToOffset.
    unfold mbind, Exec_bind, check. rewrite sys_called, H1.
    rewrite sys_called. cbn [called calls fault]. by rewrite H2.
Qed.

Lemma truncated_block_applied_witness :
  in_int64 8
  ∧ (0 < length [x07; x09] < length (buf_array truncated_reader))%nat
  ∧ source truncated_reader = mkReader (put_int64 8 ++ Block :: [x07; x09]) EOF
  ∧ ∃ br',
      BlockReader.Next truncated_reader = (br', (false, None))
      ∧ BlockReader.Block br' = [x07; x09]
      ∧ BlockrsyncServer.receive 1 punching_server truncated_reader regular_file
        = Some (br', called (called regular_file (Lseek 8)) (Writev [x07; x09]),
                Ok tt).
Proof.
  assert (H8 : in_int64 8) by (vm_compute; split; discriminate).
  assert (Hlen : (0 < length [x07; x09] < length (buf_array truncated_reader))%nat)
    by (simpl; lia).
  split; [exact H8|]. split; [exact Hlen|]. split; [reflexivity|].
  destruct (truncated_block_applied punching_server truncated_reader 8
              [x07; x09] regular_file 0 H8 Hlen eq_refl)
    as (_ & br' & Hnext & Hblock & _ & _ & Hrecv & Hwrite).
  exists br'. split; [exact Hnext|]. split; [exact Hblock|].
  rewrite Hrecv, Hwrite; reflexivity.
Defined.

(** C6, as amended: the turn of the reception loop that has decoded a
    HOLE record at [off] makes exactly one call on the file.  With
    preallocation, a block size that is not negative, [off] not beyond the
    effective size [max(targetFileSize, sourceSize)] that
    [writeBlocksToFile] has set, and [size - off] within [int64], it
    writes [min(B, size - off)] zero bytes at [off]; without preallocation
    it punches a hole of length [B] at [off]. *)
Theorem hole_record_applied (b0 : BlockrsyncServer) (sourceSize : Z)
  (br br' : BlockReader) (cont : bool) (f : os_File) (fuel : nat) :
  let b := BlockrsyncServer.set_targetFileSize b0
             (Z.max (targetFileSize b0) sourceSize) in
  let B := FileHasher.BlockSize (hasher b0) in
  let size := Z.max (targetFileSize b0) sourceSize in
  let off := BlockReader.Offset br' in
  BlockReader.Next br = (br', (cont, None)) ->
  BlockReader.IsHole br' = true ->
  (Preallocation (opts b0) = true ->
     0 <= B ∧ off <= size ∧ in_int64 (size - off)) ->
  ∃ r,
    hole_call b off
    = (if Preallocation (opts b0)
       then Pwrite (zeros (Z.to_nat (Z.min B (size - off)))) off
       else Fallocate (Z.lor FALLOC_FL_KEEP_SIZE FALLOC_FL_PUNCH_HOLE) off B)
    ∧ BlockrsyncServer.handleEmptyBlock b off f = (called f (hole_call b off), r)
    ∧ (Preallocation (opts b0) = true ->
       r = as_outcome (fault f (calls f) (hole_call b off)))
    ∧ BlockrsyncServer.receive (S fuel) b br f
      = match r with
        | Ok _ =>
            if cont then BlockrsyncServer.receive fuel b br' (called f (hole_call b off))
            else Some (br', called f (hole_call b off), Ok tt)
        | _ => Some (br', called f (hole_call b off), r)
        end.
Proof.
  intros b B size off Hnext Hhole Hpre.
  assert (Hcall : ∃ r,
    BlockrsyncServer.handleEmptyBlock b off f = (called f (hole_call b off), r)
    ∧ (Preallocation (opts b0) = true ->
       r = as_outcome (fault f (calls f) (hole_call b off)))).
  { destruct (Preallocation (opts b0)) eqn:Hp.
    - destruct (Hpre eq_refl) as (HB & Hoff & Hr).
      eexists. split; [by apply handleEmptyBlock_prealloc|]. done.
    - eexists. split; [by apply handleEmptyBlock_punch|]. done. }
  destruct Hcall as (r & Hcall & Hr). exists r.
  split_and!; try done.
  cbn [BlockrsyncServer.receive]. rewrite Hnext, Hhole. fold off. rewrite Hcall.
  by destruct r as [[]| |].
Qed.

Lemma hole_record_applied_witness :
  BlockReader.Next hole_reader = (hole_decoded, (true, None))
  ∧ BlockReader.IsHole hole_decoded = true
  ∧ (Preallocation (opts preallocating_server) = true ->
       0 <= 4 ∧ 12 <= Z.max 0 16 ∧ in_int64 (Z.max 0 16 - 12))
  ∧ BlockrsyncServer.handleEmptyBlock
      (BlockrsyncServer.set_targetFileSize preallocating_server 16) 12 regular_file
    = (called regular_file (Pwrite (zeros 4) 12), Ok tt).
Proof.
  assert (Hnext : BlockReader.Next hole_reader = (hole_decoded, (true, None)))
    by reflexivity.
  assert (Hpre : Preallocation (opts preallocating_server) = true ->
            0 <= 4 ∧ 12 <= Z.max 0 16 ∧ in_int64 (Z.max 0 16 - 12)).
  { intros _. split; [lia|]. split; [lia|]. vm_compute. split; discriminate. }
  split; [exact Hnext|]. split; [reflexivity|]. split; [exact Hpre|].
  destruct (hole_record_applied preallocating_server 16 hole_reader hole_decoded
              true regular_file 0 Hnext eq_refl Hpre)
    as (r & Hcall & Hdone & Hr & _).
  refine (eq_trans Hdone _). rewrite (Hr eq_refl). reflexivity.
Defined.

(** C6 as stated fails: with preallocation, a HOLE record at offset 12 of
    a target whose effective size is 8 makes [handleEmptyBlock] panic on
    [make([]byte, -4)]; nothing is written at offset 12.  So does a HOLE
    record at offset [-2^63], which is not beyond the size: [8 - off]
    overflows to [-2^63 + 8]. *)
Lemma hole_beyond_size_panics :
  Z.min 4 (Z.max 0 8 - 12) = -4
  ∧ BlockrsyncServer.handleEmptyBlock
      (BlockrsyncServer.set_targetFileSize preallocating_server 8) 12 regular_file
    = (regular_file, Panic)
  ∧ BlockrsyncServer.writeBlocksToFile preallocating_server regular_file
      (mkReader (put_int64 8 ++ put_int64 12 ++ [Hole]) EOF)
    = Some (BlockrsyncServer.set_targetFileSize preallocating_server 8,
            called (called regular_file Fstat) (Ftruncate 8),
            mkReader [] EOF, Panic)
  ∧ wrap64 (8 - int64_min) = int64_min + 8
  ∧ BlockrsyncServer.handleEmptyBlock
      (BlockrsyncServer.set_targetFileSize preallocating_server 8) int64_min
      regular_file
    = (regular_file, Panic).
Proof.
  split; [reflexivity|]. split; [reflexivity|].
  split; [vm_compute; reflexivity|]. split; [reflexivity|].
  vm_compute. reflexivity.
Qed.

(** * Whole streams *)

Lemma length_encode_records (rs : list record) :
  (length rs <= length (encode_records rs))%nat.
Proof.
  induction rs as [|r rs IH]; [done|].
  unfold encode_records in *. rewrite fmap_cons. cbn [concat length].
  rewrite length_app.
  assert (1 <= length (encode_record r))%nat; [|lia].
  destruct r; cbn [encode_record]; rewrite length_app, length_put_int64; lia.
Qed.

(** [writeBlocksToFile] on a source size followed by complete records and
    a clean end: the file is resized, every record is applied in turn, and
    what the reader last held is applied once more. *)
Lemma writeBlocksToFile_records (b : BlockrsyncServer) (sourceSize : Z)
  (rs : list record) (f f1 : os_File) :
  let b1 := BlockrsyncServer.set_targetFileSize b
              (Z.max (targetFileSize b) sourceSize) in
  let B := FileHasher.BlockSize (hasher b) in
  in_int64 sourceSize -> 0 <= B ->
  Forall (complete_record (Z.to_nat B)) rs ->
  BlockrsyncServer.truncateFileIfNeeded b1 sourceSize (targetFileSize b1) f
  = (f1, Ok tt) ->
  ∃ rd,
    BlockrsyncServer.writeBlocksToFile b f
      (mkReader (put_int64 sourceSize ++ encode_records rs) EOF)
    = Some (b1,
            (apply_records b1 (rs ++ [default (HoleRecord 0) (last rs)]) f1).1,
            rd,
            (apply_records b1 (rs ++ [default (HoleRecord 0) (last rs)]) f1).2).
Proof.
  intros b1 B Hsize HB Hall Htrunc.
  unfold BlockrsyncServer.writeBlocksToFile.
  rewrite binary_Read_put by done. fold b1. rewrite Htrunc.
  unfold NewBlockReader. change (FileHasher.BlockSize (hasher b1)) with B.
  rewrite decide_False by lia.
  set (br := mkBlockReader _ _ _ _ _).
  destruct (receive_records b1 rs (S (length (encode_records rs))) br
              (HoleRecord 0) f1) as [br' Hrecv].
  - unfold br. cbn [buf_array]. unfold zeros. by rewrite length_replicate.
  - unfold br. cbn [buf_array buf_len]. unfold zeros. by rewrite length_replicate.
  - done.
  - done.
  - pose proof (length_encode_records rs). lia.
  - cbn [pending]. rewrite Hrecv. cbn. eauto.
Qed.



(** The same on two records: the HOLE record that came last is applied
    twice. *)
Example two_records_received :
  ∃ b rd,
    BlockrsyncServer.writeBlocksToFile punching_server regular_file
      (mkReader (put_int64 8 ++ encode_records two_records) EOF)
    = Some (b, mk_os_File 0 (fun _ _ => None)
                 [Fstat; Ftruncate 8; Lseek 0; Writev [x01; x02; x03; x04];
                  Fallocate 3 4 4; Fallocate 3 4 4],
            rd, Ok tt).
Proof.
  eexists _, _. vm_compute. reflexivity.
Qed.

(** * Which errors the target returns *)

(** An error that [Next] returns is not of the EOF class. *)
Lemma Next_error (b : BlockReader) (e : error) :
  (BlockReader.Next b).2.2 = Some e -> e ≠ EOF ∧ e ≠ ErrUnexpectedEOF.
Proof.
  unfold BlockReader.Next.
  destruct (binary_Read (source b)) as [src [off|e0]].
  - destruct (Read _ 1) as [src1 [ty err1]]. case_decide.
    + intros He. by apply handleReadError_error in He as [_ ?].
    + destruct (BlockReader.IsHole _); [done|].
      destruct (ReadFull _ _) as [src2 [data [e2|]]]; [|done].
      intros He. by apply handleReadError_error in He as [_ ?].
  - intros He. by apply handleReadError_error in He as [_ ?].
Qed.

Lemma ReadFull_cases (r r' : Reader) (n : nat) (data : bytes) (err : option error) :
  ReadFull r n = (r', (data, err)) ->
  closing r' = closing r
  ∧ pending r = data ++ pending r'
  ∧ match err with
    | None => length data = n
    | Some e => pending r' = [] ∧ (length data < n)%nat ∧ read_error r e
    end.
Proof.
  unfold ReadFull, read_error. case_decide as Hn.
  - intros [= <- <- <-]. subst. done.
  - case_decide as Hlen.
    + intros [= <- <- <-]. cbn. split; [done|]. split; [by rewrite take_drop|].
      rewrite length_take. lia.
    + destruct (pending r) as [|x p] eqn:Hp.
      * intros [= <- <- <-]. rewrite Hp. cbn. split_and!; auto. lia.
      * intros [= <- <- <-]. cbn. rewrite app_nil_r. split_and!; try done.
        -- cbn in Hlen. lia.
        -- case_decide; auto.
Qed.

Lemma handleReadError_cases {S : Type} (err : error) (cb : S -> S) (s s' : S)
  (cont : bool) (res : option error) :
  handleReadError (Some err) cb s = (s', (cont, res)) ->
  cont = false
  ∧ ((res = None ∧ s' = cb s ∧ (err = EOF ∨ err = ErrUnexpectedEOF))
     ∨ (res = Some err ∧ s' = s ∧ err ≠ EOF ∧ err ≠ ErrUnexpectedEOF)).
Proof.
  unfold handleReadError. case_decide as Hc.
  - intros [= <- <- <-]. split; [done|]. left.
    destruct Hc as [[= ->]|[= ->]]; auto.
  - intros [= <- <- <-]. split; [done|]. right. split_and!; try done.
    all: intros ->; apply Hc; auto.
Qed.

Lemma read_error_class (r : Reader) (e : error) :
  read_error r e ->
  (e ≠ EOF -> e ≠ ErrUnexpectedEOF -> e = closing r)
  ∧ (e = EOF ∨ e = ErrUnexpectedEOF ->
     closing r = EOF ∨ closing r = ErrUnexpectedEOF).
Proof.
  unfold read_error. intros [->|[Hc ->]]; split; auto; try done.
Qed.

(** An error that [Next] returns is the error the stream ended with. *)
Lemma Next_error_closing (b : BlockReader) (e : error) :
  (BlockReader.Next b).2.2 = Some e -> e = closing (source b).
Proof.
  unfold BlockReader.Next, binary_Read.
  destruct (ReadFull (source b) 8) as [r1 [d1 e1]] eqn:H1.
  apply ReadFull_cases in H1 as (Hc1 & Hp1 & He1).
  destruct e1 as [e1|].
  { destruct He1 as (_ & _ & Herr).
    destruct (handleReadError (Some e1) nocallback (BlockReader.set_source b r1))
      as [s' [cont res]] eqn:Hh.
    apply handleReadError_cases in Hh as [_ [(-> & _)|(-> & _ & Hn1 & Hn2)]];
      [done|].
    cbn. intros [= <-]. apply read_error_class in Herr as [Hother _]. auto. }
  simpl_reader. unfold Read. cbn [pending closing].
  destruct (pending r1) as [|x p1].
  { rewrite decide_True by (left; done).
    match goal with |- context [handleReadError ?a ?c ?s] =>
      destruct (handleReadError a c s) as [s' [cont res]] eqn:Hh end.
    apply handleReadError_cases in Hh as [_ [(-> & _)|(-> & _)]]; [done|].
    cbn. intros [= <-]. done. }
  cbn [take drop length]. rewrite take_0, drop_0.
  rewrite decide_False by (intros [?|?]; done).
  simpl_reader. case_bool_decide; [done|].
  destruct (ReadFull (mkReader p1 (closing r1)) (length (buf_array b)))
    as [r2 [d2 e2]] eqn:H2.
  apply ReadFull_cases in H2 as (Hc2 & Hp2 & He2). cbn [pending closing] in *.
  destruct e2 as [e2|]; [|done].
  destruct He2 as (_ & _ & Herr).
  match goal with |- context [handleReadError ?a ?c ?s] =>
    destruct (handleReadError a c s) as [s' [cont res]] eqn:Hh end.
  apply handleReadError_cases in Hh as [_ [(-> & _)|(-> & _ & Hn1 & Hn2)]];
    [done|].
  cbn. intros [= <-]. apply read_error_class in Herr as [Hother _].
  cbn [closing] in Hother. rewrite <- Hc1. auto.
Qed.

(** The reception loop on complete records followed by an error of the
    stream that is not of the EOF class: every record is applied in turn,
    and when [Next] then returns the error the loop ends with nil. *)
Lemma receive_reset (b : BlockrsyncServer) (e : error) (rs : list record) :
  e ≠ EOF -> e ≠ ErrUnexpectedEOF ->
  ∀ (fuel : nat) (br : BlockReader) (f : os_File),
    Forall (complete_record (length (buf_array br))) rs ->
    buf_len br = length (buf_array br) ->
    source br = mkReader (encode_records rs) e ->
    (length rs < fuel)%nat ->
    ∃ br',
      BlockrsyncServer.receive fuel b br f
      = Some (br', (apply_records b rs f).1, (apply_records b rs f).2).
Proof.
  intros He1 He2. induction rs as [|r rs IH]; intros fuel br f Hall Hcap Hsrc Hfuel.
  - destruct fuel as [|fuel]; [simpl in Hfuel; lia|].
    cbn [BlockrsyncServer.receive]. unfold BlockReader.Next.
    rewrite Hsrc. cbn [encode_records fmap list_fmap concat].
    rewrite binary_Read_end. unfold handleReadError.
    rewrite decide_False by (intros [[= ->]|[= ->]]; done).
    eexists. reflexivity.
  - destruct fuel as [|fuel]; [simpl in Hfuel; lia|].
    apply Forall_cons in Hall as [Hr Hall].
    unfold encode_records in Hsrc. rewrite fmap_cons in Hsrc. cbn [concat] in Hsrc.
    fold (encode_records rs) in Hsrc.
    cbn [BlockrsyncServer.receive].
    destruct r as [off|off payload]; cbn [complete_record encode_record] in *.
    + rewrite <- app_assoc in Hsrc. cbn [app] in Hsrc.
      rewrite (Next_hole br off _ e Hr Hsrc).
      match goal with |- context [let '(_, _) := ?m f in _] =>
        replace m with (apply_record b (HoleRecord off))
          by (symmetry; apply apply_held; done) end.
      cbn [apply_records]. unfold mbind, Exec_bind.
      destruct (apply_record b (HoleRecord off) f) as [f1 [[]| |]];
        [|eexists; reflexivity..].
      apply IH; cbn; try done. simpl in Hfuel. lia.
    + destruct Hr as [Hoff Hlen].
      rewrite <- app_assoc in Hsrc. cbn [app] in Hsrc.
      rewrite (Next_block br off Block payload _ e Hoff Block_not_Hole Hlen Hsrc).
      match goal with |- context [let '(_, _) := ?m f in _] =>
        replace m with (apply_record b (BlockRecord off payload)) end.
      2:{ symmetry. apply apply_held. cbn. split; [done|]. split; [done|].
          unfold BlockReader.Block. cbn. rewrite Hcap, <- Hlen. apply firstn_all. }
      cbn [apply_records]. unfold mbind, Exec_bind.
      destruct (apply_record b (BlockRecord off payload) f) as [f1 [[]| |]];
        [|eexists; reflexivity..].
      apply IH; cbn; try done.
      * by rewrite Hlen.
      * by rewrite Hcap.
      * simpl in Hfuel. lia.
Qed.

Lemma file_op_check_sys (c : syscall) : file_op (check (sys c)).
Proof.
  intros f. unfold check. rewrite sys_called.
  destruct (fault f (calls f) c) as [e|] eqn:He; cbn; split; try done.
  intros e' [= <-]. by exists (calls f), c.
Qed.

Lemma file_op_bind {A B : Type} (m : Exec os_File A) (k : A -> Exec os_File B) :
  file_op m -> (∀ a, file_op (k a)) -> file_op (m ≫= k).
Proof.
  intros Hm Hk f. unfold mbind, Exec_bind.
  destruct (Hm f) as [Hf Hfail]. destruct (m f) as [f1 [a|e|]]; cbn in *.
  - destruct (Hk a f1) as [Hf1 Hfail1]. split; [congruence|].
    intros e He. destruct (Hfail1 e He) as (h & c & Hc).
    exists h, c. congruence.
  - split; [done|]. intros e' [= <-]. by apply Hfail.
  - done.
Qed.

Lemma file_op_ignore_punch (offset size : Z) :
  file_op (ignore_error (fun f => PunchHole f offset size)).
Proof. intros f. unfold ignore_error. by rewrite PunchHole_called. Qed.

Lemma file_op_mret {A : Type} (a : A) : file_op (mret a : Exec os_File A).
Proof. intros f. done. Qed.

Lemma file_op_panic {A : Type} : file_op (panic : Exec os_File A).
Proof. intros f. done. Qed.

Lemma file_op_handleEmptyBlock (b : BlockrsyncServer) (off : Z) :
  file_op (BlockrsyncServer.handleEmptyBlock b off).
Proof.
  unfold BlockrsyncServer.handleEmptyBlock.
  destruct (Preallocation (opts b)); [|apply file_op_ignore_punch].
  case_decide; [apply file_op_panic|apply file_op_check_sys].
Qed.

Lemma file_op_writeBlockToOffset (block : bytes) (off : Z) :
  file_op (BlockrsyncServer.writeBlockToOffset block off).
Proof.
  unfold BlockrsyncServer.writeBlockToOffset.
  apply file_op_bind; [apply file_op_check_sys|]. intros _. apply file_op_check_sys.
Qed.

Lemma file_op_Stat : file_op BlockrsyncServer.Stat.
Proof.
  intros f. unfold BlockrsyncServer.Stat. rewrite sys_called.
  destruct (fault f (calls f) Fstat) as [e|] eqn:He; cbn; split; try done.
  intros e' [= <-]. by exists (calls f), Fstat.
Qed.

Lemma file_op_truncateFileIfNeeded (b : BlockrsyncServer) (sourceSize targetSize : Z) :
  file_op (BlockrsyncServer.truncateFileIfNeeded b sourceSize targetSize).
Proof.
  unfold BlockrsyncServer.truncateFileIfNeeded.
  apply file_op_bind; [apply file_op_Stat|]. intros mode.
  repeat case_decide;
    [apply file_op_check_sys|apply file_op_ignore_punch|apply file_op_mret].
Qed.

(** The loop returns no error but an answer of the OS to a call on the
    file. *)
Lemma receive_error_origin (b : BlockrsyncServer) (fuel : nat) :
  ∀ (br br' : BlockReader) (f f' : os_File) (e : error),
    BlockrsyncServer.receive fuel b br f = Some (br', f', Fail e) ->
    faulty f e.
Proof.
  induction fuel as [|fuel IH]; intros br br' f f' e; [done|].
  cbn [BlockrsyncServer.receive].
  destruct (BlockReader.Next br) as [br1 [cont [err|]]]; [done|].
  match goal with |- context [let '(_, _) := ?m f in _] =>
    assert (Hop : file_op m) end.
  { destruct (BlockReader.IsHole br1);
      [apply file_op_handleEmptyBlock|apply file_op_writeBlockToOffset]. }
  destruct (Hop f) as [Hfault Hfail].
  match goal with |- context [let '(_, _) := ?m f in _] =>
    destruct (m f) as [f1 [[]|e1|]] end; cbn in *.
  - destruct cont; [|done]. intros Hrec. apply IH in Hrec as (h & c & Hc).
    exists h, c. congruence.
  - intros [= _ _ <-]. by apply Hfail.
  - done.
Qed.

(** C3, as amended.  An error that [Next] returns while decoding a record
    is never of the EOF class, and it ends the loop at once with nil, not
    the error, and with no further call on the file; so on a source size
    and complete records followed by such an error of the stream,
    [writeBlocksToFile] applies the records and returns the result of
    the calls on the file, nil when they succeed.  On a stream that ends
    with [EOF] or [ErrUnexpectedEOF], [Next] returns no error: when it
    stops, the loop applies what the reader holds once more and ends with
    the result of that call.  The only errors that [writeBlocksToFile]
    returns are an error of reading the source size that is not of the
    EOF class, and the errors of calls on the target file.  And whenever
    [writeBlocksToFile] returns nil, [StartServer] calls [Sync] and
    returns its result. *)
Theorem decode_errors_end_reception (b : BlockrsyncServer) (f : os_File) :
  (∀ (br : BlockReader) (fuel : nat) (e : error),
     (BlockReader.Next br).2.2 = Some e ->
     e ≠ EOF ∧ e ≠ ErrUnexpectedEOF
     ∧ BlockrsyncServer.receive (S fuel) b br f
       = Some ((BlockReader.Next br).1, f, Ok tt))
  ∧ (∀ (sourceSize : Z) (rs : list record) (e : error) (f1 : os_File),
       let b1 := BlockrsyncServer.set_targetFileSize b
                   (Z.max (targetFileSize b) sourceSize) in
       e ≠ EOF -> e ≠ ErrUnexpectedEOF ->
       in_int64 sourceSize -> 0 <= FileHasher.BlockSize (hasher b) ->
       Forall (complete_record (Z.to_nat (FileHasher.BlockSize (hasher b)))) rs ->
       BlockrsyncServer.truncateFileIfNeeded b1 sourceSize (targetFileSize b1) f
       = (f1, Ok tt) ->
       ∃ rd,
         BlockrsyncServer.writeBlocksToFile b f
           (mkReader (put_int64 sourceSize ++ encode_records rs) e)
         = Some (b1, (apply_records b1 rs f1).1, rd, (apply_records b1 rs f1).2))
  ∧ (∀ (br : BlockReader) (fuel : nat),
       closing (source br) = EOF ∨ closing (source br) = ErrUnexpectedEOF ->
       (BlockReader.Next br).2.2 = None
       ∧ ((BlockReader.Next br).2.1 = false ->
          let br' := (BlockReader.Next br).1 in
          let last_turn :=
            if BlockReader.IsHole br' then
              BlockrsyncServer.handleEmptyBlock b (BlockReader.Offset br')
            else
              BlockrsyncServer.writeBlockToOffset (BlockReader.Block br')
                (BlockReader.Offset br') in
          BlockrsyncServer.receive (S fuel) b br f
          = Some (br', (last_turn f).1, (last_turn f).2)))
  ∧ (∀ (reader rd : Reader) (b' : BlockrsyncServer) (f' : os_File) (e : error),
       BlockrsyncServer.writeBlocksToFile b f reader = Some (b', f', rd, Fail e) ->
       ((binary_Read reader).2 = inr e ∧ e ≠ EOF ∧ e ≠ ErrUnexpectedEOF)
       ∨ faulty f e)
  ∧ (∀ (W : Type) (Wr : Writer W) (range : gmap Z bytes -> list (Z * bytes))
       (b0 b1 : BlockrsyncServer) (env : ServerEnv) (w w1 : W)
       (conn rd : Reader) (f1 : os_File),
       env_open env = inl f -> env_listen env = None ->
       env_accept env = inl conn -> env_compare env = inl false ->
       b = mkBlockrsyncServer
             (if (env_hashed env).2.2 is None then (env_hashed env).2.1
              else targetFileSize b0)
             (env_hashed env).1 (opts b0) ->
       BlockrsyncServer.writeHashes range b w = (w1, Ok tt) ->
       BlockrsyncServer.writeBlocksToFile b f conn = Some (b1, f1, rd, Ok tt) ->
       BlockrsyncServer.StartServer range b0 env w
       = Some (b1, w1, Some (called f1 Fsync),
               as_outcome (fault f1 (calls f1) Fsync))).
Proof.
  split_and!.
  - intros br fuel e He. destruct (Next_error br e He) as [H1 H2].
    split; [done|]. split; [done|].
    cbn [BlockrsyncServer.receive].
    destruct (BlockReader.Next br) as [br1 [cont err]]. cbn in He. by subst.
  - intros sourceSize rs e f1 b1 He1 He2 Hsize HB Hall Htrunc.
    unfold BlockrsyncServer.writeBlocksToFile.
    rewrite binary_Read_put by done. fold b1. rewrite Htrunc.
    unfold NewBlockReader.
    change (FileHasher.BlockSize (hasher b1)) with (FileHasher.BlockSize (hasher b)).
    rewrite decide_False by lia.
    set (br := mkBlockReader _ _ _ _ _).
    destruct (receive_reset b1 e rs He1 He2 (S (length (encode_records rs))) br f1)
      as [br' Hrecv].
    + unfold br. cbn [buf_array]. unfold zeros. by rewrite length_replicate.
    + unfold br. cbn [buf_array buf_len]. unfold zeros. by rewrite length_replicate.
    + done.
    + pose proof (length_encode_records rs). lia.
    + cbn [pending]. rewrite Hrecv. cbn. eauto.
  - intros br fuel Hclass.
    assert (Hnone : (BlockReader.Next br).2.2 = None).
    { destruct ((BlockReader.Next br).2.2) as [e|] eqn:He; [|done].
      pose proof (Next_error_closing br e He) as ->.
      destruct (Next_error br _ He) as [H1 H2]. by destruct Hclass. }
    split; [exact Hnone|]. intros Hstop br' last_turn. subst br' last_turn.
    cbn [BlockrsyncServer.receive].
    destruct (BlockReader.Next br) as [br1 [cont err]]. cbn in Hnone, Hstop. subst.
    cbn [fst].
    match goal with |- context [let '(_, _) := ?m f in _] =>
      destruct (m f) as [f1 [[]| |]] end; done.
  - intros reader rd b' f' e. unfold BlockrsyncServer.writeBlocksToFile.
    destruct (binary_Read reader) as [reader1 [sourceSize|e0]]; cbn [snd].
    + match goal with |- context [BlockrsyncServer.truncateFileIfNeeded ?b ?s ?t f] =>
        destruct (file_op_truncateFileIfNeeded b s t f) as [Hfault Hfail];
        destruct (BlockrsyncServer.truncateFileIfNeeded b s t f) as [f1 [[]|e1|]]
      end; cbn [fst snd] in Hfault, Hfail.
      * destruct (NewBlockReader _ _) as [br| |]; [|done..].
        match goal with |- context [BlockrsyncServer.receive ?n ?b ?r ?f] =>
          destruct (BlockrsyncServer.receive n b r f) as [[[br' f2] r']|] eqn:Hrec
        end; [|done].
        cbn. intros [= _ _ _ ->]. right.
        apply receive_error_origin in Hrec as (h & c & Hc).
        exists h, c. congruence.
      * intros [= _ _ _ Hr]. right. apply Hfail.
        unfold handleReadError in Hr. case_decide; cbn in Hr; congruence.
      * done.
    + intros [= _ _ _ Hr]. left.
      unfold handleReadError in Hr. case_decide as Hc; cbn in Hr; [done|].
      injection Hr as ->. split; [done|].
      split; intros ->; apply Hc; auto.
  - intros W Wr range b0 b1 env w w1 conn rd f1 Hopen Hlisten Haccept Hcmp Hb
      Hhashes Hrecv.
    unfold BlockrsyncServer.StartServer. rewrite Hopen.
    destruct (env_hashed env) as [hasher' [size hash_err]]. cbn [fst snd] in Hb.
    rewrite Hlisten, Haccept, Hcmp. rewrite <- Hb, Hhashes, Hrecv.
    cbn [mbind option_bind]. by rewrite sys_called.
Qed.

Lemma decode_errors_end_reception_witness :
  (BlockReader.Next reset_reader).2.2 = Some (ErrIO 104)
  ∧ BlockrsyncServer.receive 1 punching_server reset_reader regular_file
    = Some (reset_reader, regular_file, Ok tt)
  ∧ (∃ rd,
       BlockrsyncServer.writeBlocksToFile punching_server regular_file
         (mkReader (put_int64 8 ++ encode_records two_records) (ErrIO 104))
       = Some (BlockrsyncServer.set_targetFileSize punching_server 8,
               called_all regular_file
                 [Fstat; Ftruncate 8; Lseek 0; Writev [x01; x02; x03; x04];
                  Fallocate 3 4 4],
               rd, Ok tt))
  ∧ (BlockReader.Next hole_decoded).2 = (false, None)
  ∧ BlockrsyncServer.receive 1 punching_server hole_decoded regular_file
    = Some (hole_decoded, called regular_file (Fallocate 3 12 4), Ok tt)
  ∧ BlockrsyncServer.writeBlocksToFile punching_server regular_file
      (mkReader [] (ErrIO 104))
    = Some (punching_server, regular_file, mkReader [] (ErrIO 104),
            Fail (ErrIO 104))
  ∧ (((binary_Read (mkReader [] (ErrIO 104))).2 = inr (ErrIO 104)
      ∧ ErrIO 104 ≠ EOF ∧ ErrIO 104 ≠ ErrUnexpectedEOF)
     ∨ faulty regular_file (ErrIO 104))
  ∧ BlockrsyncServer.StartServer map_to_list punching_server
      (serving regular_file reset_stream) ([] : bytes)
    = Some (BlockrsyncServer.set_targetFileSize punching_server 8,
            put_int64 4 ++ put_int64 0,
            Some (called_all regular_file [Fstat; Ftruncate 8; Fsync]),
            Ok tt).
Proof.
  destruct (decode_errors_end_reception punching_server regular_file)
    as (Hloop & Hreset & Hclean & Hcall & Hsync).
  assert (Hin8 : in_int64 8) by (vm_compute; split; discriminate).
  assert (Hrecs : Forall (complete_record (Z.to_nat 4)) two_records).
  { repeat constructor; vm_compute; discriminate. }
  split; [reflexivity|].
  split; [exact (proj2 (proj2 (Hloop reset_reader 0%nat (ErrIO 104) eq_refl)))|].
  split.
  { exact (Hreset 8 two_records (ErrIO 104)
             (called_all regular_file [Fstat; Ftruncate 8])
             ltac:(discriminate) ltac:(discriminate) Hin8 ltac:(simpl; lia)
             Hrecs eq_refl). }
  split; [reflexivity|].
  split; [exact (proj2 (Hclean hole_decoded 0%nat (or_introl eq_refl)) eq_refl)|].
  split; [reflexivity|].
  split.
  { exact (Hcall (mkReader [] (ErrIO 104)) (mkReader [] (ErrIO 104))
             punching_server regular_file (ErrIO 104) eq_refl). }
  exact (Hsync bytes Buffer_Writer map_to_list punching_server
           (BlockrsyncServer.set_targetFileSize punching_server 8)
           (serving regular_file reset_stream) [] (put_int64 4 ++ put_int64 0)
           reset_stream (mkReader [] (ErrIO 104))
           (called_all regular_file [Fstat; Ftruncate 8])
           eq_refl eq_refl eq_refl eq_refl eq_refl eq_refl eq_refl).
Defined.

(** C3 as stated fails: the connection is reset after the source size;
    [Next] returns the error, which is not of the EOF class, and
    [writeBlocksToFile] and [StartServer] return nil. *)
Lemma decode_error_reported_as_success :
  (BlockReader.Next reset_reader).2 = (false, Some (ErrIO 104))
  ∧ ErrIO 104 ≠ EOF ∧ ErrIO 104 ≠ ErrUnexpectedEOF
  ∧ (∃ b f rd,
       BlockrsyncServer.writeBlocksToFile punching_server regular_file reset_stream
       = Some (b, f, rd, Ok tt))
  ∧ (∃ b w f,
       BlockrsyncServer.StartServer map_to_list punching_server
         (serving regular_file reset_stream) []
       = Some (b, w, f, Ok tt)).
Proof.
  split; [reflexivity|]. split; [discriminate|]. split; [discriminate|].
  split.
  - eexists _, _, _. vm_compute. reflexivity.
  - eexists _, _, _. vm_compute. reflexivity.
Qed.

(** * Hole punching that fails *)

(** C4 fails on the code: on a filesystem that cannot punch holes
    [PunchHole] returns [ErrPunchHoleNotSupported], and both callers drop
    it: [handleEmptyBlock] and [truncateFileIfNeeded] return nil, and
    [StartServer] goes on to [Sync] and returns nil. *)
Theorem PunchHole_failure_dropped :
  (PunchHole unpunchable_file 0 4).2 = Some ErrPunchHoleNotSupported
  ∧ (∀ (size B off : Z) (f : os_File),
       (BlockrsyncServer.handleEmptyBlock
          (mkBlockrsyncServer size (NewFileHasher B) (mkBlockRsyncOptions false B))
          off f).2 = Ok tt)
  ∧ BlockrsyncServer.handleEmptyBlock punching_server 0 unpunchable_file
    = (called unpunchable_file (Fallocate 3 0 4), Ok tt)
  ∧ BlockrsyncServer.truncateFileIfNeeded punching_server 8 16 unpunchable_device
    = (called (called unpunchable_device Fstat) (Fallocate 3 8 8), Ok tt)
  ∧ BlockrsyncServer.StartServer map_to_list punching_server
      (serving unpunchable_file one_hole_stream) []
    = Some (BlockrsyncServer.set_targetFileSize punching_server 8,
            put_int64 4 ++ put_int64 0,
            Some (mk_os_File 0 no_punch
                    [Fstat; Ftruncate 8; Fallocate 3 0 4; Fallocate 3 0 4; Fsync]),
            Ok tt).
Proof.
  split; [reflexivity|]. split.
  { intros size B off f. by rewrite handleEmptyBlock_punch. }
  split; [reflexivity|]. split; [reflexivity|]. vm_compute. reflexivity.
Qed.

(** * The records the source emits *)

Section SendBlocks.
Context {F : Type} `{ReaderAt F}.

Lemma write_buffer (p : bytes) (s : Sender bytes) :
  BlockrsyncClient.write p s
  = (mkSender (writer s ++ p) (buf s) (syncProgress s), Ok tt).
Proof. done. Qed.

(** One turn of the loop that succeeds. *)
Lemma send_blocks_cons (b : BlockrsyncClient) (f : F) (i offset : Z)
  (offsets : list Z) (s s' : Sender bytes) :
  let B := FileHasher.BlockSize (client_hasher b) in
  let data := (ReadAt f (length (buf s)) offset).1 in
  let buffer := read_into (buf s) data in
  BlockrsyncClient.send_blocks b f i (offset :: offsets) s = (s', Ok tt) ->
  (ReadAt f (length (buf s)) offset).2 ∈ [None; Some EOF]
  ∧ BlockrsyncClient.send_blocks b f (i + 1) offsets
      (mkSender
         (writer s ++ put_int64 offset
            ++ (if bytes_Equal buffer (emptyBlock B) then [Hole]
                else Block :: take (length data) buffer))
         (if bytes_Equal buffer (emptyBlock B) then buffer
          else take (length data) buffer)
         ((fun l => l ++ [Update (wrap64 (i * B))]) <$> syncProgress s))
    = (s', Ok tt).
Proof.
  intros B data buffer. cbn [BlockrsyncClient.send_blocks].
  unfold mbind at 1. unfold Exec_bind at 1. rewrite write_buffer.
  unfold mbind at 1. unfold Exec_bind at 1.
  unfold BlockrsyncClient.read_block at 1. cbn [writer buf syncProgress].
  fold B. unfold data, buffer.
  destruct (ReadAt f (length (buf s)) offset) as [d err]. cbn [fst snd].
  destruct err as [e|].
  - case_decide as He.
    + intros [=].
    + assert (e = EOF) as -> by (by destruct (decide (e = EOF)); [|exfalso; auto]).
      intros Hrun. split; [set_solver|]. revert Hrun.
      unfold mbind at 1. unfold Exec_bind at 1. unfold BlockrsyncClient.get_buf at 1.
      cbn [buf writer syncProgress].
      unfold BlockrsyncClient.isEmptyBlock.
      destruct (bytes_Equal _ _); unfold mbind, Exec_bind; cbn; by rewrite <- ?app_assoc.
  - intros Hrun. split; [set_solver|]. revert Hrun.
    unfold mbind at 1. unfold Exec_bind at 1. unfold BlockrsyncClient.get_buf at 1.
    cbn [buf writer syncProgress].
    unfold BlockrsyncClient.isEmptyBlock.
    destruct (bytes_Equal _ _); unfold mbind, Exec_bind; cbn; by rewrite <- ?app_assoc.
Qed.


(** What one turn puts on the wire. *)
Lemma send_blocks_records (b : BlockrsyncClient) (f : F) (offsets : list Z) :
  let B := FileHasher.BlockSize (client_hasher b) in
  ∀ (i : Z) (s s' : Sender bytes),
    BlockrsyncClient.send_blocks b f i offsets s = (s', Ok tt) ->
    ∃ es : list emission,
      em_offset <$> es = offsets
      ∧ writer s'
        = writer s
          ++ concat ((fun e =>
               put_int64 (em_offset e)
               ++ (if bytes_Equal (em_buffer e) (emptyBlock B) then [Hole]
                   else Block :: take (em_n e) (em_buffer e))) <$> es)
      ∧ reads f B (buf s) es.
Proof.
  intros B. induction offsets as [|offset offsets IH]; intros i s s' Hrun.
  - injection Hrun as <-. exists []. split; [done|]. split; [|done].
    cbn. by rewrite app_nil_r.
  - apply send_blocks_cons in Hrun as [Herr Hrun].
    apply IH in Hrun as (es & Hoffs & Hw & Hreads). cbn [writer buf] in *.
    exists (mkEmission offset
              (read_into (buf s) (ReadAt f (length (buf s)) offset).1)
              (length (ReadAt f (length (buf s)) offset).1) :: es).
    split; [by rewrite fmap_cons, Hoffs|]. split.
    + rewrite Hw, fmap_cons. cbn [concat em_offset em_buffer em_n].
      fold B. by rewrite <- !app_assoc.
    + cbn [reads em_offset em_buffer em_n]. done.
Qed.

End SendBlocks.

(** ** Reading from [bytes.Reader] *)

Lemma take_min_length {A : Type} (n : nat) (l : list A) :
  take (n `min` length l) l = take n l.
Proof.
  destruct (decide (n <= length l)%nat).
  - by rewrite Nat.min_l.
  - rewrite Nat.min_r by lia. by rewrite !take_ge by lia.
Qed.

Lemma bytes_ReadAt_ok (f : bytes) (len : nat) (off : Z) :
  (ReadAt f len off).2 ∈ [None; Some EOF] ->
  0 <= off
  ∧ (ReadAt f len off).1 = take len (drop (Z.to_nat off) f).
Proof.
  unfold ReadAt, bytes_Reader. case_decide as Hneg.
  - cbn. intros [?|[?|?%elem_of_nil]%elem_of_cons]%elem_of_cons; done.
  - intros _. split; [lia|]. case_decide as Hend; [|done].
    cbn. rewrite drop_ge by lia. by rewrite take_nil.
Qed.

(** With [bytes.Reader], the bytes of a turn are the bytes of the file at
    its offset, and fewer than [B] of them are read only where the file
    ends within the block. *)
Lemma reads_bytes (f : bytes) (B : Z) (es : list emission) :
  ∀ buf : bytes,
    0 <= B ->
    Sorted Z.le (em_offset <$> es) ->
    Z.of_nat (length buf) <= B ->
    (Z.of_nat (length buf) < B ->
       Forall (fun o => o + B > Z.of_nat (length f)) (em_offset <$> es)) ->
    reads f B buf es ->
    Forall (fun e =>
      take (em_n e) (em_buffer e)
      = take (em_n e) (drop (Z.to_nat (em_offset e)) f)
      ∧ (Z.of_nat (em_n e) < B -> em_offset e + B > Z.of_nat (length f))) es.
Proof.
  induction es as [|e es IH]; intros buf HB Hsorted Hlen Hshort Hreads; [done|].
  cbn [reads] in Hreads. destruct Hreads as (Herr & Hn & Hbuf & Hreads).
  apply bytes_ReadAt_ok in Herr as [Hoff Hdata]. rewrite Hdata in Hn, Hbuf.
  rewrite fmap_cons in Hsorted, Hshort.
  apply Sorted_StronglySorted in Hsorted; [|intros ???; lia].
  apply StronglySorted_inv in Hsorted as [Hsorted Hle].
  assert (Hn_le : (em_n e <= length buf)%nat).
  { rewrite Hn, length_take. lia. }
  assert (Htake : take (em_n e) (em_buffer e)
                  = take (length buf) (drop (Z.to_nat (em_offset e)) f)).
  { rewrite Hbuf, Hn. unfold read_into. by rewrite take_app_length. }
  assert (Hn_short : Z.of_nat (em_n e) < B ->
                     em_offset e + B > Z.of_nat (length f)).
  { intros Hlt. destruct (decide (Z.of_nat (length buf) < B)) as [Hb|Hb].
    - specialize (Hshort Hb). by apply Forall_cons in Hshort as [? _].
    - rewrite Hn, length_take, length_drop in Hlt. lia. }
  assert (Hbl : length (em_buffer e) = length buf).
  { rewrite Hbuf. unfold read_into. rewrite length_app, length_drop, <- Hn. lia. }
  constructor.
  - split; [|done]. rewrite Htake, Hn, length_take.
    by rewrite take_min_length.
  - apply (IH (if bytes_Equal (em_buffer e) (emptyBlock B) then em_buffer e
               else take (em_n e) (em_buffer e))); try done.
    + by apply StronglySorted_Sorted.
    + destruct (bytes_Equal _ _).
      * rewrite Hbl. lia.
      * rewrite length_take. lia.
    + intros Hlt.
      assert (Hcase : Z.of_nat (length buf) < B ∨ Z.of_nat (em_n e) < B).
      { destruct (bytes_Equal _ _).
        - left. rewrite Hbl in Hlt. lia.
        - right. rewrite length_take, Hbl in Hlt. lia. }
      destruct Hcase as [Hb|Hnb].
      * specialize (Hshort Hb). by apply Forall_cons in Hshort as [_ ?].
      * specialize (Hn_short Hnb). eapply Forall_impl; [exact Hle|].
        cbn. intros o Ho. lia.
Qed.

(** C7: when [writeBlocksToServer] succeeds into a buffer, what it wrote
    is the source size and then, for every offset of the sorted list in
    turn, the offset followed by the kind HOLE and no payload if the buffer
    that [ReadAt] has filled at that offset equals the zero block of length
    [B], and otherwise by the kind BLOCK and exactly the [n] bytes read.
    With a [bytes.Reader] these are the bytes of the file at the offset,
    and [n < B] only where the file ends within the block. *)
Theorem writeBlocksToServer_records :
  (∀ (F : Type) (R : ReaderAt F) (b : BlockrsyncClient) (offsets : list Z)
     (f : F) (s s' : Sender bytes),
     BlockrsyncClient.writeBlocksToServer b offsets f s = (s', Ok tt) ->
     ∃ es : list emission,
       em_offset <$> es = SortFunc offsets
       ∧ writer s'
         = writer s ++ put_int64 (sourceSize b)
           ++ concat ((fun e =>
                put_int64 (em_offset e)
                ++ (if bytes_Equal (em_buffer e)
                         (emptyBlock (FileHasher.BlockSize (client_hasher b)))
                    then [Hole]
                    else Block :: take (em_n e) (em_buffer e))) <$> es)
       ∧ reads f (FileHasher.BlockSize (client_hasher b))
           (zeros (Z.to_nat (FileHasher.BlockSize (client_hasher b)))) es)
  ∧ (∀ (b : BlockrsyncClient) (f : bytes) (es : list emission),
       0 <= FileHasher.BlockSize (client_hasher b) ->
       Sorted Z.le (em_offset <$> es) ->
       reads f (FileHasher.BlockSize (client_hasher b))
         (zeros (Z.to_nat (FileHasher.BlockSize (client_hasher b)))) es ->
       Forall (fun e =>
         take (em_n e) (em_buffer e)
         = take (em_n e) (drop (Z.to_nat (em_offset e)) f)
         ∧ (Z.of_nat (em_n e) < FileHasher.BlockSize (client_hasher b) ->
            em_offset e + FileHasher.BlockSize (client_hasher b)
            > Z.of_nat (length f))) es).
Proof.
  split.
  - intros F R b offsets f s s'. unfold BlockrsyncClient.writeBlocksToServer.
    unfold mbind at 1. unfold Exec_bind at 1. rewrite write_buffer.
    unfold mbind at 1. unfold Exec_bind at 1.
    unfold BlockrsyncClient.report at 1. cbn [writer buf syncProgress].
    case_decide as HB; [done|].
    unfold mbind at 1. unfold Exec_bind at 1.
    unfold BlockrsyncClient.set_buf at 1. cbn [writer buf syncProgress].
    intros Hrun. apply send_blocks_records in Hrun as (es & Hoffs & Hw & Hreads).
    cbn [writer buf] in *. exists es. split; [done|]. split; [|done].
    by rewrite Hw, <- app_assoc.
  - intros b f es HB Hsorted Hreads.
    apply (reads_bytes f _ es (zeros (Z.to_nat (FileHasher.BlockSize (client_hasher b)))));
      try done.
    + unfold zeros. rewrite length_replicate. lia.
    + unfold zeros. rewrite length_replicate. lia.
Qed.

Lemma writeBlocksToServer_records_witness :
  BlockrsyncClient.writeBlocksToServer test_client [4; 2] test_file fresh_sender
  = (mkSender (put_int64 40 ++ (put_int64 2 ++ [Hole])
               ++ (put_int64 4 ++ [Block; x03; x04]))
       [x03; x04] None, Ok tt)
  ∧ (∃ es : list emission,
       em_offset <$> es = [2; 4]
       ∧ reads test_file 2 (zeros 2) es
       ∧ Forall (fun e =>
           take (em_n e) (em_buffer e)
           = take (em_n e) (drop (Z.to_nat (em_offset e)) test_file)
           ∧ (Z.of_nat (em_n e) < 2 -> em_offset e + 2 > 6)) es).
Proof.
  assert (Hrun : BlockrsyncClient.writeBlocksToServer test_client [4; 2]
                   test_file fresh_sender
                 = (mkSender (put_int64 40 ++ (put_int64 2 ++ [Hole])
                              ++ (put_int64 4 ++ [Block; x03; x04]))
                      [x03; x04] None, Ok tt))
    by (vm_compute; reflexivity).
  split; [exact Hrun|].
  destruct writeBlocksToServer_records as [Hemit Hshort].
  destruct (Hemit bytes bytes_Reader test_client [4; 2] test_file fresh_sender _ Hrun)
    as (es & Hoffs & _ & Hreads).
  assert (Hsorted : em_offset <$> es = [2; 4]) by (rewrite Hoffs; reflexivity).
  exists es. split; [exact Hsorted|]. split; [exact Hreads|].
  apply (Hshort test_client test_file es); [simpl; lia| |exact Hreads].
  rewrite Hsorted. repeat constructor; lia.
Defined.

(** * The dial loops *)

Section Dial.
Variable dial : nat -> option error.

(** The sync client's loop from any count of retries: it ends within
    [32 - retryCount] further calls of [net.Dial]. *)
Lemma Connect_loop_ends (fuel : nat) :
  ∀ (retryCount : Z) (d : Dialing),
    0 <= retryCount <= 31 ->
    (Z.to_nat (32 - retryCount) <= fuel)%nat ->
    ∃ d' r,
      NetworkConnectionProvider.Connect_loop dial fuel retryCount d = Some (d', r)
      ∧ (dials d < dials d' <= dials d + Z.to_nat (32 - retryCount))%nat
      ∧ sleeps d' = sleeps d ++ replicate (dials d' - dials d - 1) 10
      ∧ (∀ k, (dials d <= k < dials d' - 1)%nat -> dial k ≠ None)
      ∧ match r with
        | Ok c => S c = dials d' ∧ dial c = None
        | Fail e =>
            dials d' = (dials d + Z.to_nat (32 - retryCount))%nat
            ∧ dial (dials d' - 1) ≠ None
            ∧ e = Errorf "unable to connect to target after %d retries" 31
        | Panic => False
        end.
Proof.
  induction fuel as [|fuel IH]; intros rc d Hrc Hfuel; [lia|].
  cbn [NetworkConnectionProvider.Connect_loop].
  destruct (dial (dials d)) as [e|] eqn:Hdial.
  - case_decide as Hlast.
    + assert (rc = 31) as -> by lia.
      eexists _, _. split; [reflexivity|]. cbn [dials sleeps].
      split; [lia|]. split.
      { replace (S (dials d) - dials d - 1)%nat with 0%nat by lia.
        by rewrite app_nil_r. }
      split; [intros k Hk; lia|].
      split; [lia|]. split; [|done].
      replace (S (dials d) - 1)%nat with (dials d) by lia. congruence.
    + destruct (IH (rc + 1) (mkDialing (S (dials d)) (sleeps d ++ [10])))
        as (d' & r & Hrun & Hd & Hs & Hfail & Hr); [lia|lia|].
      cbn [dials sleeps] in *. exists d', r. split; [exact Hrun|].
      split; [lia|]. split.
      { rewrite Hs, <- app_assoc. f_equal.
        replace (dials d' - dials d - 1)%nat
          with (S (dials d' - S (dials d) - 1)) by lia. done. }
      split.
      { intros k Hk. destruct (decide (k = dials d)) as [->|Hne]; [congruence|].
        apply Hfail. lia. }
      destruct r as [c|e'|]; [done| |done].
      destruct Hr as (Hn & Hd' & He). split; [lia|]. done.
  - eexists _, _. split; [reflexivity|]. cbn [dials sleeps].
    split; [lia|]. split.
    { replace (S (dials d) - dials d - 1)%nat with 0%nat by lia.
      by rewrite app_nil_r. }
    split; [intros k Hk; lia|]. done.
Qed.

(** The proxy client's loop. *)
Lemma dial_loop_ends (fuel : nat) :
  ∀ (retryCount : Z) (d : Dialing),
    0 <= retryCount <= 30 ->
    (Z.to_nat (31 - retryCount) <= fuel)%nat ->
    ∃ d' r,
      ProxyClient.dial_loop dial fuel retryCount d = Some (d', r)
      ∧ (dials d < dials d' <= dials d + Z.to_nat (31 - retryCount))%nat
      ∧ (∀ k, (dials d <= k < dials d' - 1)%nat -> dial k ≠ None)
      ∧ match r with
        | Ok c =>
            S c = dials d' ∧ dial c = None
            ∧ sleeps d' = sleeps d ++ replicate (dials d' - dials d - 1) 1
        | Fail e =>
            dials d' = (dials d + Z.to_nat (31 - retryCount))%nat
            ∧ dial (dials d' - 1) ≠ None
            ∧ sleeps d' = sleeps d ++ replicate (dials d' - dials d) 1
            ∧ e = Errorf "unable to connect to target after %d retries" 31
        | Panic => False
        end.
Proof.
  induction fuel as [|fuel IH]; intros rc d Hrc Hfuel; [lia|].
  cbn [ProxyClient.dial_loop].
  destruct (dial (dials d)) as [e|] eqn:Hdial.
  - case_decide as Hlast.
    + assert (rc = 30) as -> by lia.
      eexists _, _. split; [reflexivity|]. cbn [dials sleeps].
      split; [lia|]. split; [intros k Hk; lia|].
      split; [lia|]. split.
      { replace (S (dials d) - 1)%nat with (dials d) by lia. congruence. }
      split; [|done].
      by replace (S (dials d) - dials d)%nat with 1%nat by lia.
    + destruct (IH (rc + 1) (mkDialing (S (dials d)) (sleeps d ++ [1])))
        as (d' & r & Hrun & Hd & Hfail & Hr); [lia|lia|].
      cbn [dials sleeps] in *. exists d', r. split; [exact Hrun|].
      split; [lia|]. split.
      { intros k Hk. destruct (decide (k = dials d)) as [->|Hne]; [congruence|].
        apply Hfail. lia. }
      destruct r as [c|e'|]; [| |done].
      * destruct Hr as (Hc & Hnone & Hs). split; [done|]. split; [done|].
        rewrite Hs, <- app_assoc. f_equal.
        replace (dials d' - dials d - 1)%nat
          with (S (dials d' - S (dials d) - 1)) by lia. done.
      * destruct Hr as (Hn & Hd' & Hs & He). split; [lia|]. split; [done|].
        split; [|done]. rewrite Hs, <- app_assoc. f_equal.
        replace (dials d' - dials d)%nat
          with (S (dials d' - S (dials d))) by lia. done.
  - eexists _, _. split; [reflexivity|]. cbn [dials sleeps].
    split; [lia|]. split; [intros k Hk; lia|].
    split; [done|]. split; [done|].
    replace (S (dials d) - dials d - 1)%nat with 0%nat by lia.
    by rewrite app_nil_r.
Qed.

(** C8, as amended: neither dial loop runs forever.  With enough fuel for
    32 turns both return.  [Connect] makes at most 32 calls of [net.Dial],
    sleeping 10 seconds after every failed call but the last; it returns
    the first connection made, or, when all 32 calls fail, the error after
    31 retries.  The proxy client's loop makes at most 31 calls, sleeping
    1 second after every failed call; it returns the first connection
    made, or, when all 31 calls fail, the error. *)
Theorem dial_loops_give_up (fuel : nat) :
  (32 <= fuel)%nat ->
  (∃ d r,
     NetworkConnectionProvider.Connect dial fuel = Some (d, r)
     ∧ (1 <= dials d <= 32)%nat
     ∧ sleeps d = replicate (dials d - 1) 10
     ∧ (∀ k, (k < dials d - 1)%nat -> dial k ≠ None)
     ∧ match r with
       | Ok c => S c = dials d ∧ dial c = None
       | Fail e =>
           dials d = 32%nat ∧ dial 31%nat ≠ None
           ∧ e = Errorf "unable to connect to target after %d retries" 31
       | Panic => False
       end)
  ∧ (∃ d r,
       ProxyClient.dial_target dial fuel = Some (d, r)
       ∧ (1 <= dials d <= 31)%nat
       ∧ (∀ k, (k < dials d - 1)%nat -> dial k ≠ None)
       ∧ match r with
         | Ok c =>
             S c = dials d ∧ dial c = None
             ∧ sleeps d = replicate (dials d - 1) 1
         | Fail e =>
             dials d = 31%nat ∧ dial 30%nat ≠ None
             ∧ sleeps d = replicate 31 1
             ∧ e = Errorf "unable to connect to target after %d retries" 31
         | Panic => False
         end).
Proof.
  intros Hfuel. split.
  - destruct (Connect_loop_ends fuel 0 (mkDialing 0 []))
      as (d & r & Hrun & Hd & Hs & Hfail & Hr); [lia|simpl; lia|].
    cbn [dials sleeps] in *. exists d, r. split; [exact Hrun|].
    split; [simpl in Hd; lia|]. split.
    { rewrite Hs. cbn [app]. f_equal. lia. }
    split; [intros k Hk; apply Hfail; lia|].
    destruct r as [c|e|]; [done| |done].
    destruct Hr as (Hn & Hlast & He). simpl in Hn. rewrite Hn in Hlast. done.
  - destruct (dial_loop_ends fuel 0 (mkDialing 0 []))
      as (d & r & Hrun & Hd & Hfail & Hr); [lia|simpl; lia|].
    cbn [dials sleeps] in *. exists d, r. split; [exact Hrun|].
    split; [simpl in Hd; lia|].
    split; [intros k Hk; apply Hfail; lia|].
    destruct r as [c|e|]; [| |done].
    + destruct Hr as (Hc & Hnone & Hs). split; [done|]. split; [done|].
      rewrite Hs. cbn [app]. f_equal. lia.
    + destruct Hr as (Hn & Hlast & Hs & He). simpl in Hn.
      rewrite Hn in Hlast, Hs. done.
Qed.

End Dial.

Lemma dial_loops_give_up_witness :
  (32 <= 32)%nat
  ∧ (∃ d r,
       NetworkConnectionProvider.Connect unreachable 32 = Some (d, r)
       ∧ (1 <= dials d <= 32)%nat
       ∧ sleeps d = replicate (dials d - 1) 10)
  ∧ (∃ d r,
       ProxyClient.dial_target unreachable 32 = Some (d, r)
       ∧ (1 <= dials d <= 31)%nat).
Proof.
  split; [lia|].
  destruct (dial_loops_give_up unreachable 32 (le_n 32))
    as [(d & r & Hrun & Hd & Hs & _) (d' & r' & Hrun' & Hd' & _)].
  split; [exists d, r|exists d', r']; auto.
Defined.

(** C8 as stated fails: against a target that stays unreachable the sync
    client calls [net.Dial] 32 times and the proxy client 31 times before
    they give up, not at most 30 times. *)
Lemma dial_loops_exceed_30 :
  (NetworkConnectionProvider.Connect unreachable 40
   = Some (mkDialing 32 (replicate 31 10),
           Fail (Errorf "unable to connect to target after %d retries" 31))
   ∧ (30 < 32)%nat)
  ∧ (ProxyClient.dial_target unreachable 40
     = Some (mkDialing 31 (replicate 31 1),
             Fail (Errorf "unable to connect to target after %d retries" 31))
     ∧ (30 < 31)%nat).
Proof.
  split; (split; [vm_compute; reflexivity|lia]).
Qed.

(** * The repository's tests, replayed *)

(** block_reader_test.go: "should read from a reader". *)
Example test_read_from_reader :
  NewBlockReader createBytesReader4 4 = Ok (reader_on createBytesReader4)
  ∧ (BlockReader.Next (reader_on createBytesReader4)).2 = (true, None)
  ∧ BlockReader.Block (BlockReader.Next (reader_on createBytesReader4)).1
    = [x00; x01; x02; x03]
  ∧ BlockReader.Offset (BlockReader.Next (reader_on createBytesReader4)).1 = 4096.
Proof. repeat split; reflexivity. Qed.

(** "should handle errors". *)
Example test_handle_errors :
  handleReadError (Some (ErrNew "Random error")) nocallback tt
  = (tt, (false, Some (ErrNew "Random error")))
  ∧ handleReadError (Some EOF) nocallback tt = (tt, (false, None))
  ∧ handleReadError (Some ErrUnexpectedEOF) nocallback tt = (tt, (false, None)).
Proof. repeat split; reflexivity. Qed.

(** "should handle not receiving offset data". *)
Example test_no_offset_data :
  (BlockReader.Next (reader_on (mkReader [x01] EOF))).2 = (false, None)
  ∧ BlockReader.Offset (BlockReader.Next (reader_on (mkReader [x01] EOF))).1 = 0.
Proof. split; reflexivity. Qed.

(** "should handle not receiving offset type data". *)
Example test_no_offset_type :
  (BlockReader.Next (reader_on (mkReader (put_int64 4096) EOF))).2 = (false, None)
  ∧ BlockReader.Offset
      (BlockReader.Next (reader_on (mkReader (put_int64 4096) EOF))).1 = 4096.
Proof. split; reflexivity. Qed.

(** "should skip reading data if receiving a hole". *)
Example test_skip_hole :
  (BlockReader.Next (reader_on (mkReader (put_int64 4096 ++ [Hole]) EOF))).2
  = (true, None)
  ∧ BlockReader.Offset
      (BlockReader.Next (reader_on (mkReader (put_int64 4096 ++ [Hole]) EOF))).1
    = 4096.
Proof. split; reflexivity. Qed.

(** "should handle not getting complete block data". *)
Example test_incomplete_block :
  (BlockReader.Next
     (reader_on (mkReader (put_int64 4096 ++ [Block; xff]) EOF))).2
  = (false, None)
  ∧ BlockReader.Block
      (BlockReader.Next
         (reader_on (mkReader (put_int64 4096 ++ [Block; xff]) EOF))).1
    = [xff].
Proof. split; reflexivity. Qed.

(** hasher_test.go: "should determine concurrency based on file size to
    block size ratio". *)
Example test_concurrency :
  FileHasher.concurrentHashCount (NewFileHasher 4096) 46137344 = Ok 25
  ∧ FileHasher.concurrentHashCount (NewFileHasher 4096) 4096 = Ok 1
  ∧ FileHasher.concurrentHashCount (NewFileHasher 4096) 40960 = Ok 10.
Proof. repeat split; reflexivity. Qed.

(** "should fail if block size is different". *)
Example test_block_size_mismatch :
  (FileHasher.DiffHashes map_to_list (NewFileHasher DefaultBlockSize) 4096 ∅).2
  = Some (ErrNew "block size mismatch").
Proof. reflexivity. Qed.

(** client_test.go: "writeBlocksToServer should write a hole to the
    writer" and "should write a block to the writer". *)
Example test_write_hole :
  writer (BlockrsyncClient.writeBlocksToServer test_client [2] test_file
            fresh_sender).1
  = put_int64 40 ++ put_int64 2 ++ [Hole].
Proof. vm_compute. reflexivity. Qed.

Example test_write_block :
  writer (BlockrsyncClient.writeBlocksToServer test_client [4] test_file
            fresh_sender).1
  = put_int64 40 ++ put_int64 4 ++ [Block; x03; x04].
Proof. vm_compute. reflexivity. Qed.

(** "should handle first error properly" and "should handle error writing
    block". *)
Example test_write_errors :
  (BlockrsyncClient.writeBlocksToServer test_client [4] test_file
     (mkSender (mkErrorWriter [] 0 0) [] None)).2 = Fail (ErrNew "error")
  ∧ (BlockrsyncClient.writeBlocksToServer test_client [4] test_file
       (mkSender (mkErrorWriter [] 3 0) [] None)).2 = Fail (ErrNew "error").
Proof. split; vm_compute; reflexivity. Qed.

(** * More on the hasher *)

Section DiffHashesMore.
Variable range : gmap Z bytes -> list (Z * bytes).
Hypothesis range_perm : forall m, range m ≡ₚ map_to_list m.

(** The offsets of [DiffHashes] and the map it leaves, for equal block
    sizes. *)
Lemma DiffHashes_result (f : FileHasher) (H_tgt : gmap Z bytes) :
  ∃ diff rest,
    FileHasher.DiffHashes range f (blockSize f) H_tgt = (diff, rest, None)
    ∧ (∀ k, rest !! k = if decide (k ∈ dom (hashes f)) then None else H_tgt !! k)
    ∧ (∀ k, k ∈ diff ↔
         (∃ v, hashes f !! k = Some v ∧ H_tgt !! k ≠ Some v)
         ∨ (is_Some (rest !! k) ∧ k < fileSize f)).
Proof.
  unfold FileHasher.DiffHashes.
  rewrite decide_False; [|intros Hne; apply Hne; reflexivity].
  destruct (fold_left FileHasher.diff_local (range (hashes f)) ([], H_tgt))
    as [d1 c1] eqn:Hfold.
  destruct (diff_local_fold _ _ _ _ _ (range_NoDup_keys range range_perm _) Hfold)
    as (Hc & Hd & _).
  destruct (diff_remaining_fold (fileSize f) (range c1) d1) as [Hd2 _].
  eexists _, _. split; [reflexivity|]. split.
  - intros k. rewrite Hc.
    destruct (decide (k ∈ (range (hashes f)).*1)) as [Hin|Hin];
      rewrite (range_key range range_perm) in Hin.
    + by rewrite decide_True.
    + by rewrite decide_False.
  - intros k. rewrite Hd2, Hd, (range_key range range_perm), elem_of_dom. split.
    + intros [[Hk|(v & Hin & Hne)]|?]; [by apply elem_of_nil in Hk| |by right].
      left. exists v. split; [|done]. by apply (range_elem range range_perm).
    + intros [(v & Hv & Hne)|?]; [|by right].
      left. right. exists v. split; [|done]. by apply (range_elem range range_perm).
Qed.

(** X1: [DiffHashes] uses up the caller's map: when it returns, the map has
    lost every key that the local map has and kept its other entries; on
    a block size mismatch the map is left as it was. *)
Theorem DiffHashes_consumes_peer_map (f : FileHasher) (B' : Z) (H_tgt : gmap Z bytes) :
  (B' = blockSize f ->
   ∀ k, (FileHasher.DiffHashes range f B' H_tgt).1.2 !! k
        = if decide (k ∈ dom (hashes f)) then None else H_tgt !! k)
  ∧ (B' ≠ blockSize f ->
     FileHasher.DiffHashes range f B' H_tgt
     = ([], H_tgt, Some (ErrNew "block size mismatch"))).
Proof.
  split.
  - intros -> k. destruct (DiffHashes_result f H_tgt) as (diff & rest & -> & Hrest & _).
    apply Hrest.
  - intros Hne. unfold FileHasher.DiffHashes. by rewrite decide_True.
Qed.

(** X2: [DiffHashes] finds nothing to send exactly when the peer's map holds
    every local entry with the same digest and every other key of the
    peer lies at or beyond the local file size. *)
Theorem DiffHashes_empty_iff (f : FileHasher) (H_tgt : gmap Z bytes) :
  (FileHasher.DiffHashes range f (blockSize f) H_tgt).1.1 = []
  ↔ (∀ k v, hashes f !! k = Some v -> H_tgt !! k = Some v)
    ∧ (∀ k, is_Some (H_tgt !! k) -> hashes f !! k = None -> fileSize f <= k).
Proof.
  destruct (DiffHashes_result f H_tgt) as (diff & rest & -> & Hrest & Hdiff).
  cbn [fst]. split.
  - intros ->. split.
    + intros k v Hv. destruct (decide (H_tgt !! k = Some v)) as [|Hne]; [done|].
      exfalso. apply (elem_of_nil k), Hdiff. left. eauto.
    + intros k Hk Hnone. destruct (decide (fileSize f <= k)) as [|Hlt]; [done|].
      exfalso. apply (elem_of_nil k), Hdiff. right. split; [|lia].
      rewrite Hrest, decide_False; [done|]. by apply not_elem_of_dom.
  - intros [Hsame Hbeyond]. destruct diff as [|k diff]; [done|]. exfalso.
    assert (Hk : k ∈ k :: diff) by left.
    apply Hdiff in Hk as [(v & Hv & Hne)|[Hsome Hlt]].
    + apply Hne. by apply Hsame.
    + rewrite Hrest in Hsome. case_decide as Hin; [by destruct Hsome|].
      apply not_elem_of_dom in Hin. specialize (Hbeyond k Hsome Hin). lia.
Qed.

End DiffHashesMore.

Lemma DiffHashes_consumes_peer_map_witness :
  (∀ m : gmap Z bytes, map_to_list m ≡ₚ map_to_list m)
  ∧ (∀ k, (FileHasher.DiffHashes map_to_list local_example 4 peer_example).1.2 !! k
          = if decide (k ∈ dom (hashes local_example)) then None
            else peer_example !! k)
  ∧ FileHasher.DiffHashes map_to_list local_example 5 peer_example
    = ([], peer_example, Some (ErrNew "block size mismatch")).
Proof.
  split; [intros m; apply Permutation_refl|]. split.
  - apply (DiffHashes_consumes_peer_map map_to_list (fun m => Permutation_refl _)
             local_example 4 peer_example). reflexivity.
  - apply (DiffHashes_consumes_peer_map map_to_list (fun m => Permutation_refl _)
             local_example 5 peer_example). simpl. lia.
Defined.

Lemma DiffHashes_empty_iff_witness :
  (∀ m : gmap Z bytes, map_to_list m ≡ₚ map_to_list m)
  ∧ (FileHasher.DiffHashes map_to_list local_example (blockSize local_example)
       (hashes local_example)).1.1 = [].
Proof.
  split; [intros m; apply Permutation_refl|].
  apply (DiffHashes_empty_iff map_to_list (fun m => Permutation_refl _)
           local_example (hashes local_example)).
  split; [intros k v Hv; exact Hv|].
  intros k [v Hv] Hnone. rewrite Hv in Hnone. discriminate Hnone.
Defined.

(** * More on the wire format of the hash map *)

(** ** The order of the entries *)

Lemma SortFunc_unique (l1 l2 : list Z) : l1 ≡ₚ l2 -> SortFunc l1 = SortFunc l2.
Proof.
  intros Hperm. apply (Sorted_unique Z.le); try apply SortFunc_sorted.
  by rewrite !SortFunc_perm.
Qed.

(** X3: Go enumerates a map in an order of its choice, and [SerializeHashes]
    writes the same bytes for every such order, into every writer. *)
Theorem SerializeHashes_order_independent {W : Type} `{Writer W}
  (range1 range2 : gmap Z bytes -> list (Z * bytes)) (f : FileHasher) (w : W) :
  (∀ m, range1 m ≡ₚ map_to_list m) ->
  (∀ m, range2 m ≡ₚ map_to_list m) ->
  FileHasher.SerializeHashes range1 f w = FileHasher.SerializeHashes range2 f w.
Proof.
  intros H1 H2. unfold FileHasher.SerializeHashes.
  rewrite (SortFunc_unique (range1 (hashes f)).*1 (range2 (hashes f)).*1); [done|].
  by rewrite (H1 (hashes f)), (H2 (hashes f)).
Qed.

(** ** Digests of a wrong length *)

Lemma write_hashes_result (H : gmap Z bytes) (keys : list Z) (w : bytes) :
  (FileHasher.write_hashes H keys w).2
  = if decide (Forall (fun k => length (default [] (H !! k)) = 64%nat) keys)
    then Ok tt else Fail (ErrNew "invalid hash length").
Proof.
  revert w. induction keys as [|k keys IH]; intros w.
  - cbn. by rewrite decide_True.
  - cbn [FileHasher.write_hashes].
    unfold mbind, Exec_bind, check, binary_Write, Write, Buffer_Writer.
    destruct (decide (length (default [] (H !! k)) ≠ 64%nat)) as [Hlen|Hlen].
    + cbn. rewrite decide_False; [done|]. by intros [? _]%Forall_cons.
    + rewrite IH. destruct (decide (Forall _ keys)) as [Hall|Hall].
      * rewrite decide_True; [done|]. constructor; [|done].
        by destruct (decide (length (default [] (H !! k)) = 64%nat)).
      * rewrite decide_False; [done|]. by intros [_ ?]%Forall_cons.
Qed.

(** X4: [SerializeHashes] into a buffer fails exactly when the map holds a
    digest that is not 64 bytes long, and then with "invalid hash
    length". *)
Theorem SerializeHashes_hash_length (range : gmap Z bytes -> list (Z * bytes))
  (f : FileHasher) (w : bytes) :
  (∀ m, range m ≡ₚ map_to_list m) ->
  ((∀ k h, hashes f !! k = Some h -> length h = 64%nat) ->
   (FileHasher.SerializeHashes range f w).2 = Ok tt)
  ∧ (∀ k h, hashes f !! k = Some h -> length h ≠ 64%nat ->
     (FileHasher.SerializeHashes range f w).2 = Fail (ErrNew "invalid hash length")).
Proof.
  intros Hperm.
  assert (Hrun : (FileHasher.SerializeHashes range f w).2
            = if decide (Forall (fun k => length (default [] (hashes f !! k)) = 64%nat)
                           (SortFunc (range (hashes f)).*1))
              then Ok tt else Fail (ErrNew "invalid hash length")).
  { unfold FileHasher.SerializeHashes.
    unfold mbind, Exec_bind, check, binary_Write, Write, Buffer_Writer.
    apply write_hashes_result. }
  rewrite Hrun. split.
  - intros Hall. rewrite decide_True; [done|]. apply Forall_forall.
    intros k [h Hh]%(sorted_keys_elem range Hperm). rewrite Hh. cbn. eauto.
  - intros k h Hh Hbad. rewrite decide_False; [done|]. intros Hall.
    rewrite Forall_forall in Hall. specialize (Hall k).
    rewrite Hh in Hall. apply Hbad, Hall, (sorted_keys_elem range Hperm). eauto.
Qed.

(** ** What [DeserializeHashes] accepts *)

Lemma read_int64_ok (r r' : Reader) (v : Z) :
  read_int64 r = (r', Ok v) ->
  (8 <= length (pending r))%nat
  ∧ r' = mkReader (drop 8 (pending r)) (closing r)
  ∧ v = get_int64 (take 8 (pending r)).
Proof.
  unfold read_int64, binary_Read, ReadFull. rewrite decide_False by done.
  case_decide as Hlen.
  - intros [= <- <-]. done.
  - destruct (pending r); intros [=].
Qed.

Lemma read_full_ok (n : nat) (r r' : Reader) (h : bytes) :
  n ≠ 0%nat ->
  read_full n r = (r', Ok h) ->
  (n <= length (pending r))%nat
  ∧ r' = mkReader (drop n (pending r)) (closing r)
  ∧ h = take n (pending r).
Proof.
  intros Hn. unfold read_full, ReadFull. rewrite decide_False by done.
  case_decide as Hlen.
  - intros [= <- <-]. done.
  - destruct (pending r); intros [=].
Qed.

Lemma read_int64_fail (r r' : Reader) (e : error) :
  read_int64 r = (r', Fail e) -> read_error r e ∧ closing r' = closing r.
Proof.
  unfold read_int64, binary_Read, ReadFull, read_error.
  rewrite decide_False by done. case_decide as Hlen; [done|].
  destruct (pending r).
  - intros [= <- <-]. auto.
  - intros [= <- <-]. cbn. case_decide as Hc; auto.
Qed.

Lemma read_full_fail (n : nat) (r r' : Reader) (e : error) :
  read_full n r = (r', Fail e) -> read_error r e ∧ closing r' = closing r.
Proof.
  unfold read_full, ReadFull, read_error.
  case_decide; [done|]. case_decide as Hlen; [done|].
  destruct (pending r).
  - intros [= <- <-]. auto.
  - intros [= <- <-]. cbn. case_decide as Hc; auto.
Qed.

(** The loop of [DeserializeHashes] when it succeeds: it has taken 72
    bytes per entry, and every entry it has added has a valid offset and
    a digest of 64 bytes. *)
Lemma read_hashes_ok (L B : Z) (count : nat) :
  ∀ (acc H : gmap Z bytes) (r r' : Reader),
    FileHasher.read_hashes count L B acc r = (r', Ok H) ->
    (72 * count <= length (pending r))%nat
    ∧ r' = mkReader (drop (72 * count) (pending r)) (closing r)
    ∧ (∀ k h, H !! k = Some h ->
         acc !! k = Some h ∨ (0 <= k <= wrap64 (L * B) ∧ length h = 64%nat))
    ∧ (size H <= size acc + count)%nat.
Proof.
  induction count as [|count IH]; intros acc H r r'.
  - intros [= <- <-]. rewrite Nat.mul_0_r, drop_0.
    split; [lia|]. split; [by destruct r|]. split; [auto|lia].
  - cbn [FileHasher.read_hashes]. unfold mbind at 1. unfold Exec_bind at 1.
    destruct (read_int64 r) as [r1 [off|e|]] eqn:Hoff; [|done..].
    apply read_int64_ok in Hoff as (Hlen1 & -> & _).
    case_decide as Hvalid; [done|].
    unfold mbind at 1. unfold Exec_bind at 1.
    destruct (read_full 64 _) as [r2 [h|e|]] eqn:Hh; [|done..].
    apply read_full_ok in Hh as (Hlen2 & -> & ->); [|done].
    cbn [pending closing] in *. rewrite length_drop in Hlen2.
    intros Hrec. apply IH in Hrec as (Hlen3 & -> & Hentries & Hsize).
    cbn [pending closing] in *. rewrite !length_drop in Hlen3.
    split; [lia|]. split.
    { rewrite !drop_drop. do 2 f_equal. lia. }
    split.
    + intros k h' Hk. destruct (Hentries k h' Hk) as [Hacc|?]; [|by right].
      rewrite lookup_insert in Hacc. case_decide as Hoffk; [|by left].
      right. injection Hacc as <-. subst k. split; [lia|].
      rewrite length_take, length_drop. lia.
    + pose proof (map_size_insert off (take 64 (drop 8 (pending r))) acc) as Hins.
      destruct (acc !! off); unfold id in Hins; lia.
Qed.

Lemma read_hashes_fail (L B : Z) (count : nat) :
  ∀ (acc : gmap Z bytes) (r r' : Reader) (e : error),
    FileHasher.read_hashes count L B acc r = (r', Fail e) ->
    read_error r e
    ∨ ∃ off, e = Errorf "invalid offset %d" off ∧ (off < 0 ∨ off > wrap64 (L * B)).
Proof.
  induction count as [|count IH]; intros acc r r' e; [done|].
  cbn [FileHasher.read_hashes]. unfold mbind at 1. unfold Exec_bind at 1.
  destruct (read_int64 r) as [r1 [off|e1|]] eqn:Hoff; [| |done].
  - apply read_int64_ok in Hoff as (Hlen1 & -> & _).
    case_decide as Hvalid.
    { intros [= _ <-]. right. eauto. }
    unfold mbind at 1. unfold Exec_bind at 1.
    destruct (read_full 64 _) as [r2 [h|e2|]] eqn:Hh; [| |done].
    + apply read_full_ok in Hh as (Hlen2 & -> & ->); [|done].
      intros Hrec. apply IH in Hrec as [Herr|?]; [|by right]. by left.
    + apply read_full_fail in Hh as [Herr _]. intros [= _ <-]. by left.
  - apply read_int64_fail in Hoff as [Herr _]. intros [= _ <-]. by left.
Qed.

(** X5: what [DeserializeHashes] returns without an error is the block size
    and the count of the first 16 bytes of the stream, and a map of at
    most that many entries, each at an offset from 0 up to count times
    block size (as [int64] computes it) with a digest of exactly 64 bytes;
    it has taken exactly 16 + 72 * count bytes from the stream and left
    the rest in place. *)
Theorem DeserializeHashes_accepts (r r' : Reader) (B : Z) (H : gmap Z bytes) :
  FileHasher.DeserializeHashes r = (r', Ok (B, H)) ->
  let L := get_int64 (take 8 (drop 8 (pending r))) in
  B = get_int64 (take 8 (pending r))
  ∧ (16 + 72 * Z.to_nat L <= length (pending r))%nat
  ∧ r' = mkReader (drop (16 + 72 * Z.to_nat L) (pending r)) (closing r)
  ∧ (∀ k h, H !! k = Some h -> 0 <= k <= wrap64 (L * B) ∧ length h = 64%nat)
  ∧ (size H <= Z.to_nat L)%nat.
Proof.
  unfold FileHasher.DeserializeHashes. unfold mbind at 1. unfold Exec_bind at 1.
  destruct (read_int64 r) as [r1 [B0|e|]] eqn:HB; [|done..].
  apply read_int64_ok in HB as (Hlen1 & -> & ->).
  unfold mbind at 1. unfold Exec_bind at 1.
  destruct (read_int64 _) as [r2 [L0|e|]] eqn:HL; [|done..].
  apply read_int64_ok in HL as (Hlen2 & -> & ->).
  cbn [pending closing] in *. rewrite length_drop in Hlen2.
  unfold mbind at 1. unfold Exec_bind at 1.
  destruct (FileHasher.read_hashes _ _ _ _ _) as [r3 [H0|e|]] eqn:Hrec; [|done..].
  intros [= <- <- <-].
  apply read_hashes_ok in Hrec as (Hlen3 & -> & Hentries & Hsize).
  cbn [pending closing] in *. rewrite !length_drop in Hlen3.
  split; [done|]. split; [lia|]. split.
  { rewrite !drop_drop. f_equal; f_equal; lia. }
  split.
  - intros k h Hk. destruct (Hentries k h Hk) as [Hempty|?]; [|done].
    by rewrite lookup_empty in Hempty.
  - rewrite map_size_empty in Hsize. lia.
Qed.

(** X6: [DeserializeHashes] fails only with the error of the stream (a
    stream that ends too early, even cleanly, is an error here) or with
    "invalid offset" for an offset that is negative or above count times
    block size. *)
Theorem DeserializeHashes_rejects (r r' : Reader) (e : error) :
  FileHasher.DeserializeHashes r = (r', Fail e) ->
  read_error r e
  ∨ ∃ off, e = Errorf "invalid offset %d" off
           ∧ (off < 0
              ∨ off > wrap64 (get_int64 (take 8 (drop 8 (pending r)))
                              * get_int64 (take 8 (pending r)))).
Proof.
  unfold FileHasher.DeserializeHashes. unfold mbind at 1. unfold Exec_bind at 1.
  destruct (read_int64 r) as [r1 [B0|e1|]] eqn:HB; [| |done].
  - apply read_int64_ok in HB as (Hlen1 & -> & ->).
    unfold mbind at 1. unfold Exec_bind at 1.
    destruct (read_int64 _) as [r2 [L0|e2|]] eqn:HL; [| |done].
    + apply read_int64_ok in HL as (Hlen2 & -> & ->).
      cbn [pending closing] in *.
      unfold mbind at 1. unfold Exec_bind at 1.
      destruct (FileHasher.read_hashes _ _ _ _ _) as [r3 [H0|e3|]] eqn:Hrec;
        [done| |done].
      intros [= _ <-]. apply read_hashes_fail in Hrec as [Herr|?]; [by left|by right].
    + apply read_int64_fail in HL as [Herr _]. intros [= _ <-]. by left.
  - apply read_int64_fail in HB as [Herr _]. intros [= _ <-]. by left.
Qed.

Lemma range_reversed_perm (m : gmap Z bytes) : range_reversed m ≡ₚ map_to_list m.
Proof. apply reverse_Permutation. Qed.

Lemma SerializeHashes_order_independent_witness :
  (∀ m : gmap Z bytes, map_to_list m ≡ₚ map_to_list m)
  ∧ (∀ m : gmap Z bytes, range_reversed m ≡ₚ map_to_list m)
  ∧ FileHasher.SerializeHashes map_to_list dense_example ([] : bytes)
    = FileHasher.SerializeHashes range_reversed dense_example [].
Proof.
  split; [intros m; apply Permutation_refl|]. split; [apply range_reversed_perm|].
  apply (SerializeHashes_order_independent map_to_list range_reversed
           dense_example ([] : bytes) (fun m => Permutation_refl _)
           range_reversed_perm).
Defined.

Lemma SerializeHashes_hash_length_witness :
  (∀ m : gmap Z bytes, map_to_list m ≡ₚ map_to_list m)
  ∧ (FileHasher.SerializeHashes map_to_list dense_example ([] : bytes)).2 = Ok tt
  ∧ hashes local_example !! 0 = Some [x01]
  ∧ (FileHasher.SerializeHashes map_to_list local_example ([] : bytes)).2
    = Fail (ErrNew "invalid hash length").
Proof.
  split; [intros m; apply Permutation_refl|]. split; [|split; [reflexivity|]].
  - apply (proj1 (SerializeHashes_hash_length map_to_list dense_example []
                    (fun m => Permutation_refl _))).
    intros k h Hh. unfold dense_example in Hh. cbn [hashes] in Hh.
    apply lookup_insert_Some in Hh as [[_ <-]|[_ Hh]]; [reflexivity|].
    apply lookup_singleton_Some in Hh as [_ <-]. reflexivity.
  - apply (proj2 (SerializeHashes_hash_length map_to_list local_example []
                    (fun m => Permutation_refl _)) 0 [x01]); [reflexivity|].
    simpl. lia.
Defined.

Lemma DeserializeHashes_accepts_witness :
  FileHasher.DeserializeHashes one_hash_stream
  = (mkReader [] EOF, Ok (4096, {[0 := zeros 64]}))
  ∧ (88 <= length (pending one_hash_stream))%nat
  ∧ (∀ k h, ({[0 := zeros 64]} : gmap Z bytes) !! k = Some h ->
       0 <= k <= 4096 ∧ length h = 64%nat).
Proof.
  assert (Hrun : FileHasher.DeserializeHashes one_hash_stream
                 = (mkReader [] EOF, Ok (4096, {[0 := zeros 64]})))
    by (vm_compute; reflexivity).
  split; [exact Hrun|].
  destruct (DeserializeHashes_accepts one_hash_stream _ _ _ Hrun)
    as (_ & Hlen & _ & Hentries & _).
  split; [exact Hlen|exact Hentries].
Defined.

Lemma DeserializeHashes_rejects_witness :
  FileHasher.DeserializeHashes bad_offset_stream
  = (mkReader (zeros 64) EOF, Fail (Errorf "invalid offset %d" 100))
  ∧ (read_error bad_offset_stream (Errorf "invalid offset %d" 100)
     ∨ ∃ off, Errorf "invalid offset %d" 100 = Errorf "invalid offset %d" off
              ∧ (off < 0 ∨ off > 4)).
Proof.
  assert (Hrun : FileHasher.DeserializeHashes bad_offset_stream
                 = (mkReader (zeros 64) EOF, Fail (Errorf "invalid offset %d" 100)))
    by (vm_compute; reflexivity).
  split; [exact Hrun|].
  exact (DeserializeHashes_rejects bad_offset_stream _ _ Hrun).
Defined.

(** * Runs of [HashFile] *)

Section HashFileRuns.
Variable blake2b512 : bytes -> bytes.
Variable file : SourceFile.

Lemma sound_run_start (f : FileHasher) (size : Z) :
  0 < blockSize f -> 0 <= size ->
  sound_run blake2b512 file (blockSize f) size (hashes f) (HashFile_start f size).
Proof.
  intros HB Hsize. constructor; cbn; try done.
  - intros i [= <-]. split; [lia|]. by rewrite Z.mod_0_l by lia.
  - auto.
Qed.

Lemma sound_run_step (B size : Z) (H0 : gmap Z bytes) (s s' : HashRun) :
  0 < B -> size + B <= int64_max ->
  sound_run blake2b512 file B size H0 s ->
  HashFile_step blake2b512 file s s' ->
  sound_run blake2b512 file B size H0 s'.
Proof.
  intros HB Hmax [HbB Hfs Hpr Hq Hws Hres Hh Hpc] Hstep.
  destruct Hstep; cbn [hasher_of queue producer res wg workers wait pc] in *;
    constructor; cbn [hasher_of queue producer res wg workers wait pc];
    try done; subst.
  - (* producer_push *)
    intros j [= <-]. destruct (Hpr i eq_refl) as [Hi Hmod].
    rewrite wrap64_id by (unfold in_int64, int64_min, int64_max in *; lia).
    split; [lia|]. rewrite <- Zplus_mod_idemp_l, Hmod. cbn.
    by rewrite Z.mod_same by lia.
  - (* producer_push: the queue *)
    apply Forall_app. split; [done|]. constructor; [|done].
    destruct (Hpr i eq_refl) as [Hi Hmod]. split; [lia|done].
  - (* main_spawn *)
    apply Forall_app. split; [done|]. by constructor.
  - (* main_receive *)
    by apply Forall_cons in Hres as [_ ?].
  - (* main_receive: the map *)
    intros k h. unfold store_hash. cbn [hashes].
    rewrite lookup_insert. case_decide as Hk; [|by apply Hh].
    intros [= <-]. right. apply Forall_cons in Hres as [Hoh _].
    subst k. by destruct oh.
  - (* main_done *)
    intros size' err [= <- <-]. done.
  - (* worker_opened *)
    by apply Forall_insert.
  - by apply Forall_insert.
  - (* worker_hashed *)
    by apply Forall_cons in Hq as [_ ?].
  - apply Forall_insert; [done|]. cbn. apply Forall_cons in Hq as [Ho _].
    split; [done|]. done.
  - (* worker_hash_failed *)
    by apply Forall_cons in Hq as [_ ?].
  - by apply Forall_insert.
  - (* worker_sent *)
    by apply Forall_insert.
  - apply Forall_app. split; [done|]. constructor; [|done].
    rewrite Forall_forall in Hws. apply (Hws (Sending oh)).
    by eapply list_elem_of_lookup_2.
  - (* worker_finished *)
    by apply Forall_insert.
Qed.

Lemma sound_run_reachable (B size : Z) (H0 : gmap Z bytes) (s s' : HashRun) :
  0 < B -> size + B <= int64_max ->
  sound_run blake2b512 file B size H0 s ->
  rtc (HashFile_step blake2b512 file) s s' ->
  sound_run blake2b512 file B size H0 s'.
Proof.
  intros HB Hmax Hs Hrun. induction Hrun as [|s s1 s2 Hstep _ IH]; [done|].
  apply IH. by eapply sound_run_step.
Qed.

(** X7: whatever [HashFile] has put into the map when it returns is right:
    every entry that was not in the map before is at a multiple of the
    block size within the file and is the BLAKE2b digest of the bytes of
    the file at that offset (the short last block included); and the block
    size is as before. *)
Theorem HashFile_entries_sound (f f' : FileHasher) (r : Z * option error) :
  0 < blockSize f ->
  Z.of_nat (length (content file)) + blockSize f <= int64_max ->
  HashFile blake2b512 file f f' r ->
  blockSize f' = blockSize f
  ∧ ∀ k h, hashes f' !! k = Some h ->
      hashes f !! k = Some h
      ∨ (0 <= k < Z.of_nat (length (content file))
         ∧ k mod blockSize f = 0
         ∧ h = blake2b512 (block_at file (blockSize f) k)).
Proof.
  intros HB Hmax Hcall. destruct Hcall as [e He|size s size' err Hsz Hrun Hret].
  - split; [done|]. auto.
  - assert (size = Z.of_nat (length (content file))) as ->.
    { unfold getFileSize in Hsz. destruct (open_error file); by injection Hsz. }
    pose proof (sound_run_reachable _ _ _ _ _ HB Hmax
                  (sound_run_start f (Z.of_nat (length (content file))) HB
                     (Nat2Z.is_nonneg _)) Hrun) as Hs.
    split; [apply (sound_blockSize _ _ _ _ _ _ Hs)|].
    intros k h Hk.
    destruct (sound_hashes _ _ _ _ _ _ Hs k h Hk) as [?|[[Hrange Hmod] Hhash]];
      [by left|right]. done.
Qed.

(** X8: [HashFile] returns an error only when the size of the file cannot be
    found; once it has the size every return is [(size, nil)], whatever
    happened to the workers, and [fileSize] is set to it. *)
Theorem HashFile_result (f f' : FileHasher) (r : Z * option error) :
  HashFile blake2b512 file f f' r ->
  (∃ e, open_error file = Some e ∧ r = (0, Some e) ∧ f' = f)
  ∨ (open_error file = None
     ∧ r = (Z.of_nat (length (content file)), None)
     ∧ fileSize f' = Z.of_nat (length (content file))).
Proof.
  intros Hcall. destruct Hcall as [e He|size s size' err Hsz Hrun Hret].
  - left. exists e. unfold getFileSize in He.
    destruct (open_error file); [|done]. by injection He as ->.
  - right. unfold getFileSize in Hsz.
    destruct (open_error file); [done|]. injection Hsz as <-.
    split; [done|].
    assert (Hinv : ∀ s0 s1,
      rtc (HashFile_step blake2b512 file) s0 s1 ->
      fileSize (hasher_of s0) = Z.of_nat (length (content file)) ->
      (∀ a b, pc s0 = Returned a b ->
              a = Z.of_nat (length (content file)) ∧ b = None) ->
      fileSize (hasher_of s1) = Z.of_nat (length (content file))
      ∧ ∀ a b, pc s1 = Returned a b ->
               a = Z.of_nat (length (content file)) ∧ b = None).
    { clear. intros s0 s1 Hrun. induction Hrun as [|s0 s1 s2 Hstep _ IH]; [done|].
      intros Hfs Hpc. apply IH.
      - destruct Hstep; cbn in *; done.
      - destruct Hstep; cbn in *; try done.
        intros a b [= <- <-]. done. }
    destruct (Hinv _ _ Hrun eq_refl) as [Hfs Hpc]; [done|].
    destruct (Hpc _ _ Hret) as [-> ->]. done.
Qed.

(** Spawning the workers that are left. *)
Lemma spawn_all (f : FileHasher) (q : list Z) (pr : option Z) (r : list OffsetHash)
  (wt : waiter) (count : Z) (n : nat) :
  FileHasher.concurrentHashCount f (fileSize f) = Ok count ->
  ∀ (i wg : Z) (ws : list worker),
    Z.to_nat (count - i) = n ->
    ∃ wg' ws',
      rtc (HashFile_step blake2b512 file)
        (mkHashRun f q pr r wg ws wt (Spawning i))
        (mkHashRun f q pr r wg' ws' wt Selecting).
Proof.
  intros Hcount. induction n as [|n IH]; intros i wg ws Hn.
  - eexists _, _. apply rtc_once. eapply main_spawned; [done|lia].
  - destruct (IH (i + 1) (wg + 1) (ws ++ [Opening])) as (wg' & ws' & Hrun); [lia|].
    exists wg', ws'. eapply rtc_l; [|exact Hrun].
    eapply main_spawn; [done|lia].
Qed.

(** X9: nothing orders [wg.Wait()] after [wg.Add(1)]: the goroutine that
    waits can find the counter at zero before any worker is added, and
    [select] can then take [done] at once.  So for every readable file
    [HashFile] can return [(size, nil)] with the map as it was. *)
Theorem HashFile_can_return_early (f : FileHasher) :
  open_error file = None ->
  blockSize f ≠ 0 ->
  HashFile blake2b512 file f
    (mkFileHasher (hashes f) (blockSize f) (Z.of_nat (length (content file))))
    (Z.of_nat (length (content file)), None).
Proof.
  intros Hopen HB.
  set (size := Z.of_nat (length (content file))).
  set (f1 := mkFileHasher (hashes f) (blockSize f) size).
  assert (Hcount : ∃ count, FileHasher.concurrentHashCount f1 (fileSize f1) = Ok count).
  { unfold FileHasher.concurrentHashCount. cbn. rewrite decide_False by done. eauto. }
  destruct Hcount as [count Hcount].
  destruct (spawn_all f1 [] (Some 0) [] Signalling count (Z.to_nat (count - 0))
              Hcount 0 0 [] eq_refl) as (wg' & ws' & Hspawn).
  change f1 with (hasher_of (mkHashRun f1 [] (Some 0) [] wg' ws' Gone
                               (Returned (fileSize f1) None))).
  eapply HashFile_returned.
  - unfold getFileSize. by rewrite Hopen.
  - eapply rtc_l; [apply waiter_wake|]. fold f1.
    etrans; [exact Hspawn|]. apply rtc_once. apply main_done.
  - done.
Qed.

End HashFileRuns.

(** A run on [two_block_file] in which the waiter wakes first. *)
Lemma two_block_early :
  HashFile (fun b => b) two_block_file (NewFileHasher 4)
    (mkFileHasher ∅ 4 8) (8, None).
Proof.
  change (mkFileHasher ∅ 4 8)
    with (hasher_of (mkHashRun (mkFileHasher ∅ 4 8) [] (Some 0) [] 2
                       [Opening; Opening] Gone (Returned 8 None))).
  eapply HashFile_returned; [reflexivity| |reflexivity].
  eapply rtc_l; [apply waiter_wake|].
  eapply rtc_l; [eapply (main_spawn _ _ _ _ _ _ _ _ _ 0 2); [reflexivity|lia]|].
  eapply rtc_l; [eapply (main_spawn _ _ _ _ _ _ _ _ _ 1 2); [reflexivity|lia]|].
  eapply rtc_l; [eapply (main_spawned _ _ _ _ _ _ _ _ _ 2 2); [reflexivity|lia]|].
  apply rtc_once. apply main_done.
Qed.

(** A run on [one_block_file] in which the one worker hashes the block and
    the main goroutine stores the digest before [done] is signalled. *)
Lemma one_block_hashed :
  HashFile (fun b => b) one_block_file (NewFileHasher 4)
    (mkFileHasher {[0 := [x01; x02; x03; x04]]} 4 4) (4, None).
Proof.
  set (oh := mkOffsetHash 0 [x01; x02; x03; x04]).
  set (f0 := mkFileHasher ∅ 4 4).
  change (mkFileHasher {[0 := [x01; x02; x03; x04]]} 4 4)
    with (hasher_of (mkHashRun (store_hash f0 oh) [] None [] 0 [Exited] Gone
                       (Returned 4 None))).
  eapply HashFile_returned; [reflexivity| |reflexivity].
  change (HashFile_start (NewFileHasher 4) 4)
    with (mkHashRun f0 [] (Some 0) [] 0 [] Waiting (Spawning 0)).
  eapply rtc_l.
  { apply (main_spawn _ _ f0 [] (Some 0) [] 0 [] Waiting 0 1); [reflexivity|lia]. }
  eapply rtc_l.
  { apply (main_spawned _ _ f0 [] (Some 0) [] 1 [Opening] Waiting 1 1);
      [reflexivity|lia]. }
  eapply rtc_l.
  { apply (worker_opened _ _ f0 [] (Some 0) [] 1 [Opening] Waiting Selecting 0%nat).
    reflexivity. }
  eapply rtc_l.
  { apply (producer_push _ _ f0 [] 0 [] 1 [Ranging] Waiting Selecting);
      [simpl; lia|simpl; lia]. }
  eapply rtc_l.
  { apply (worker_hashed _ _ f0 0 [] (Some 4) [] 1 [Ranging] Waiting Selecting
             0%nat); [reflexivity|discriminate]. }
  eapply rtc_l.
  { apply (worker_sent _ _ f0 [] (Some 4) [] 1 [Sending oh] Waiting Selecting
             0%nat oh); [reflexivity|simpl; lia]. }
  eapply rtc_l.
  { apply (main_receive _ _ f0 [] (Some 4) oh [] 1 [Ranging] Waiting). }
  eapply rtc_l.
  { apply (producer_close _ _ (store_hash f0 oh) [] 4 [] 1 [Ranging] Waiting
             Selecting). simpl. lia. }
  eapply rtc_l.
  { apply (worker_finished _ _ (store_hash f0 oh) [] 1 [Ranging] Waiting Selecting
             0%nat). reflexivity. }
  eapply rtc_l.
  { apply (waiter_wake _ _ (store_hash f0 oh) [] None [] [Exited] Selecting). }
  apply rtc_once.
  apply (main_done _ _ (store_hash f0 oh) [] None [] 0 [Exited]).
Qed.

Lemma HashFile_entries_sound_witness :
  0 < blockSize (NewFileHasher 4)
  ∧ Z.of_nat (length (content one_block_file)) + blockSize (NewFileHasher 4)
    <= int64_max
  ∧ HashFile (fun b => b) one_block_file (NewFileHasher 4)
      (mkFileHasher {[0 := [x01; x02; x03; x04]]} 4 4) (4, None)
  ∧ ({[0 := [x01; x02; x03; x04]]} : gmap Z bytes) !! 0
    = Some [x01; x02; x03; x04]
  ∧ (hashes (NewFileHasher 4) !! 0 = Some [x01; x02; x03; x04]
     ∨ (0 <= 0 < Z.of_nat (length (content one_block_file))
        ∧ 0 mod blockSize (NewFileHasher 4) = 0
        ∧ [x01; x02; x03; x04]
          = block_at one_block_file (blockSize (NewFileHasher 4)) 0)).
Proof.
  assert (H1 : 0 < blockSize (NewFileHasher 4)) by (simpl; lia).
  assert (H2 : Z.of_nat (length (content one_block_file))
               + blockSize (NewFileHasher 4) <= int64_max)
    by (unfold int64_max; simpl; lia).
  assert (H3 : ({[0 := [x01; x02; x03; x04]]} : gmap Z bytes) !! 0
               = Some [x01; x02; x03; x04]) by reflexivity.
  split; [exact H1|]. split; [exact H2|]. split; [exact one_block_hashed|].
  split; [exact H3|].
  exact (proj2 (HashFile_entries_sound (fun b => b) one_block_file
                  (NewFileHasher 4)
                  (mkFileHasher {[0 := [x01; x02; x03; x04]]} 4 4) (4, None)
                  H1 H2 one_block_hashed) 0 [x01; x02; x03; x04] H3).
Defined.

Lemma HashFile_result_witness :
  HashFile (fun b => b) two_block_file (NewFileHasher 4)
    (mkFileHasher ∅ 4 8) (8, None)
  ∧ ((∃ e, open_error two_block_file = Some e ∧ (8, None) = (0, Some e)
           ∧ mkFileHasher ∅ 4 8 = NewFileHasher 4)
     ∨ (open_error two_block_file = None
        ∧ (8, @None error) = (Z.of_nat (length (content two_block_file)), None)
        ∧ fileSize (mkFileHasher ∅ 4 8)
          = Z.of_nat (length (content two_block_file)))).
Proof.
  split; [exact two_block_early|].
  exact (HashFile_result (fun b => b) two_block_file (NewFileHasher 4)
           (mkFileHasher ∅ 4 8) (8, None) two_block_early).
Defined.

Lemma HashFile_can_return_early_witness :
  open_error two_block_file = None
  ∧ blockSize (NewFileHasher 4) ≠ 0
  ∧ HashFile (fun b => b) two_block_file (NewFileHasher 4)
      (mkFileHasher ∅ 4 8) (8, None).
Proof.
  assert (H1 : blockSize (NewFileHasher 4) ≠ 0) by (simpl; lia).
  split; [reflexivity|]. split; [exact H1|].
  exact (HashFile_can_return_early (fun b => b) two_block_file (NewFileHasher 4)
           eq_refl H1).
Defined.

(** * More on the block reader *)

(** X10: [Next] on the encoding of a record gives that record back: it asks
    for more, reports no error, holds the record's offset, kind and
    payload, and leaves the rest of the stream. *)
Theorem Next_decodes_record (br : BlockReader) (r : record) (rest : bytes)
  (c : error) :
  complete_record (length (buf_array br)) r ->
  buf_len br = length (buf_array br) ->
  source br = mkReader (encode_record r ++ rest) c ->
  ∃ br',
    BlockReader.Next br = (br', (true, None))
    ∧ holds br' r
    ∧ source br' = mkReader rest c
    ∧ buf_len br' = length (buf_array br')
    ∧ length (buf_array br') = length (buf_array br).
Proof.
  intros Hr Hcap Hsrc. destruct r as [off|off payload];
    cbn [encode_record complete_record] in Hr, Hsrc;
    rewrite <- app_assoc in Hsrc.
  - eexists. split; [exact (Next_hole br off rest c Hr Hsrc)|].
    cbn. done.
  - destruct Hr as [Hoff Hlen].
    eexists. split; [exact (Next_block br off Block payload rest c Hoff
                              Block_not_Hole Hlen Hsrc)|].
    cbn. split_and!; try done; [|congruence].
    unfold BlockReader.Block. cbn. rewrite Hcap, <- Hlen. apply firstn_all.
Qed.

(** X11: what a call of [Next] can answer.  It never drops or reorders bytes of
    the stream; when it asks for more it has consumed at least the nine
    bytes of an offset and a type and reports no error; an error it
    reports is the one the stream ended with, never [EOF] or
    [ErrUnexpectedEOF]; and it stops without an error only when the
    stream is exhausted and ended with [EOF] or [ErrUnexpectedEOF]. *)
Theorem Next_result (br br' : BlockReader) (cont : bool) (err : option error) :
  BlockReader.Next br = (br', (cont, err)) ->
  closing (source br') = closing (source br)
  ∧ (∃ used, pending (source br) = used ++ pending (source br')
       ∧ (cont = true -> (9 <= length used)%nat))
  ∧ (cont = true -> err = None)
  ∧ (∀ e, err = Some e ->
       cont = false ∧ e = closing (source br) ∧ e ≠ EOF
       ∧ e ≠ ErrUnexpectedEOF ∧ pending (source br') = [])
  ∧ (cont = false -> err = None ->
       pending (source br') = []
       ∧ (closing (source br) = EOF ∨ closing (source br) = ErrUnexpectedEOF)).
Proof.
  unfold BlockReader.Next, binary_Read.
  destruct (ReadFull (source br) 8) as [r1 [d1 e1]] eqn:H1.
  apply ReadFull_cases in H1 as (Hc1 & Hp1 & He1).
  destruct e1 as [e1|].
  { destruct He1 as (Hnil & _ & Herr). intros Hh.
    apply handleReadError_cases in Hh as [-> Hh].
    apply read_error_class in Herr as [Hother Heof].
    unfold nocallback in Hh.
    destruct Hh as [(-> & -> & Hcls)|(-> & -> & Hn1 & Hn2)]; simpl_reader.
    - split_and!; try done; [by exists d1|]. auto.
    - split_and!; try done; [by exists d1|].
      intros e [= <-]. split_and!; auto. }
  simpl_reader. unfold Read. cbn [pending closing].
  destruct (pending r1) as [|x p1] eqn:Hr1.
  { rewrite decide_True by (left; done). intros Hh.
    apply handleReadError_cases in Hh as [-> Hh]. unfold nocallback in Hh.
    destruct Hh as [(-> & -> & Hcls)|(-> & -> & Hn1 & Hn2)]; simpl_reader.
    - split_and!; try done; [exists d1; by rewrite Hr1|].
      intros _ _. rewrite Hr1, <- Hc1. done.
    - split_and!; try done; [exists d1; by rewrite Hr1|].
      intros e [= <-]. rewrite Hr1. split_and!; auto. }
  cbn [take drop length]. rewrite take_0, drop_0.
  rewrite decide_False by (intros [?|?]; done).
  simpl_reader.
  assert (Hused : pending (source br) = (d1 ++ [x]) ++ p1)
    by (rewrite Hp1, <- app_assoc; done).
  assert (Hlen : (9 <= length (d1 ++ [x]))%nat)
    by (rewrite length_app; cbn; lia).
  case_bool_decide as Hty.
  { intros [= <- <- <-]. simpl_reader.
    split_and!; try done. exists (d1 ++ [x]). auto. }
  destruct (ReadFull (mkReader p1 (closing r1)) (length (buf_array br)))
    as [r2 [d2 e2]] eqn:H2.
  apply ReadFull_cases in H2 as (Hc2 & Hp2 & He2). cbn [pending closing] in *.
  destruct e2 as [e2|].
  - destruct He2 as (Hnil & _ & Herr). intros Hh.
    apply handleReadError_cases in Hh as [-> Hh].
    apply read_error_class in Herr as [Hother Heof]. cbn [closing] in *.
    destruct Hh as [(-> & -> & Hcls)|(-> & -> & Hn1 & Hn2)]; simpl_reader.
    + split_and!; try done; [congruence| |].
      * exists ((d1 ++ [x]) ++ d2). split; [|done].
        rewrite Hused, Hp2, Hnil. by rewrite !app_nil_r.
      * intros _ _. split; [done|]. rewrite <- Hc1. auto.
    + split_and!; try done; [congruence| |].
      * exists ((d1 ++ [x]) ++ d2). split; [|done].
        rewrite Hused, Hp2, Hnil. by rewrite !app_nil_r.
      * intros e [= <-]. split_and!; auto. rewrite <- Hc1. auto.
  - intros [= <- <- <-]. simpl_reader.
    split_and!; try done; [congruence|].
    exists ((d1 ++ [x]) ++ d2). split.
    + rewrite Hused, Hp2. by rewrite app_assoc.
    + intros _. rewrite length_app. lia.
Qed.

Lemma Next_decodes_record_witness :
  complete_record (length (buf_array block_stream_reader))
    (BlockRecord 8 [x01; x02; x03; x04])
  ∧ buf_len block_stream_reader = length (buf_array block_stream_reader)
  ∧ ∃ br',
      BlockReader.Next block_stream_reader = (br', (true, None))
      ∧ holds br' (BlockRecord 8 [x01; x02; x03; x04])
      ∧ source br' = mkReader [x09] EOF
      ∧ buf_len br' = length (buf_array br')
      ∧ length (buf_array br') = length (buf_array block_stream_reader).
Proof.
  assert (H1 : complete_record (length (buf_array block_stream_reader))
                 (BlockRecord 8 [x01; x02; x03; x04])).
  { split; [|reflexivity]. unfold in_int64, int64_min, int64_max. lia. }
  split; [exact H1|]. split; [reflexivity|].
  exact (Next_decodes_record block_stream_reader
           (BlockRecord 8 [x01; x02; x03; x04]) [x09] EOF H1 eq_refl eq_refl).
Defined.

Lemma Next_result_witness :
  BlockReader.Next hole_reader = (hole_decoded, (true, None))
  ∧ closing (source hole_decoded) = closing (source hole_reader)
  ∧ (∃ used, pending (source hole_reader) = used ++ pending (source hole_decoded)
       ∧ (true = true -> (9 <= length used)%nat)).
Proof.
  assert (Hnext : BlockReader.Next hole_reader = (hole_decoded, (true, None)))
    by (vm_compute; reflexivity).
  split; [exact Hnext|].
  destruct (Next_result hole_reader hole_decoded true None Hnext)
    as (Hclose & Hused & _).
  split; [exact Hclose|exact Hused].
Defined.

(** * More on the target's reception *)

(** X12: A stream that ends before the eight bytes of the source size: the file
    and the target size are left alone; the call succeeds when the stream
    ended with [EOF] or [ErrUnexpectedEOF] and returns the stream's error
    otherwise. *)
Theorem writeBlocksToFile_no_size (b : BlockrsyncServer) (f : os_File)
  (reader : Reader) :
  (length (pending reader) < 8)%nat ->
  BlockrsyncServer.writeBlocksToFile b f reader
  = Some (b, f, mkReader [] (closing reader),
          if decide (closing reader = EOF ∨ closing reader = ErrUnexpectedEOF)
          then Ok tt else Fail (closing reader)).
Proof.
  intros Hlen. unfold BlockrsyncServer.writeBlocksToFile, binary_Read, ReadFull.
  rewrite decide_False by lia. rewrite decide_False by lia.
  destruct reader as [p c]. cbn [pending closing] in *.
  unfold handleReadError.
  destruct p as [|x p].
  - destruct (decide (c = EOF)) as [->|Hc]; [done|].
    destruct (decide (c = ErrUnexpectedEOF)) as [->|Hc']; [done|].
    rewrite decide_False by (intros [[=]|[=]]; done).
    rewrite decide_False by (intros [?|?]; done). done.
  - destruct (decide (c = EOF)) as [->|Hc]; [done|].
    destruct (decide (c = ErrUnexpectedEOF)) as [->|Hc']; [done|].
    rewrite decide_False by (intros [[=]|[=]]; done).
    rewrite decide_False by (intros [?|?]; done). done.
Qed.

Lemma device_bits (mode : Z) :
  Z.land mode (Z.lor ModeDevice ModeCharDevice) = 0 ↔ is_device mode = false.
Proof.
  unfold is_device, ModeDevice, ModeCharDevice. rewrite orb_false_iff. split.
  - intros Hz. split.
    + pose proof (Z.land_spec mode (Z.lor (Z.shiftl 1 26) (Z.shiftl 1 21)) 26) as Hb.
      rewrite Hz, Z.bits_0 in Hb.
      change (Z.testbit (Z.lor (Z.shiftl 1 26) (Z.shiftl 1 21)) 26) with true in Hb.
      by rewrite andb_true_r in Hb.
    + pose proof (Z.land_spec mode (Z.lor (Z.shiftl 1 26) (Z.shiftl 1 21)) 21) as Hb.
      rewrite Hz, Z.bits_0 in Hb.
      change (Z.testbit (Z.lor (Z.shiftl 1 26) (Z.shiftl 1 21)) 21) with true in Hb.
      by rewrite andb_true_r in Hb.
  - intros [H26 H21]. apply Z.bits_inj'. intros n Hn.
    rewrite Z.land_spec, Z.bits_0, Z.lor_spec.
    rewrite !Z.shiftl_1_l, !Z.pow2_bits_eqb by lia.
    destruct (Z.eqb_spec 26 n) as [<-|]; [by rewrite H26|].
    destruct (Z.eqb_spec 21 n) as [<-|]; [by rewrite H21|].
    apply andb_false_r.
Qed.

(** X13: how [truncateFileIfNeeded] resizes.  A failing [Stat] is returned.
    A file whose mode has neither the device bit (26) nor the character
    device bit (21) is truncated to the source size, whatever the target
    size is, and the result is that of the truncation.  A device is never
    truncated: the range from the source size to a larger target size is
    deallocated, and the call succeeds whatever the system answers. *)
Theorem truncateFileIfNeeded_policy (b : BlockrsyncServer)
  (sourceSize targetSize : Z) (f : os_File) :
  BlockrsyncServer.truncateFileIfNeeded b sourceSize targetSize f
  = match fault f (calls f) Fstat with
    | Some e => (called f Fstat, Fail e)
    | None =>
        (called_all f (resize_calls (file_mode f) sourceSize targetSize),
         if is_device (file_mode f) then Ok tt
         else as_outcome (fault f (calls f ++ [Fstat]) (Ftruncate sourceSize)))
    end.
Proof.
  unfold BlockrsyncServer.truncateFileIfNeeded, BlockrsyncServer.Stat.
  unfold mbind, Exec_bind. rewrite sys_called.
  destruct (fault f (calls f) Fstat) as [e|]; [done|].
  cbn [file_mode called]. unfold resize_calls, called_all.
  destruct (is_device (file_mode f)) eqn:Hdev.
  - rewrite decide_False by (rewrite device_bits; congruence).
    case_decide.
    + unfold ignore_error. rewrite PunchHole_called. unfold called. cbn.
      by rewrite <- app_assoc.
    + done.
  - rewrite decide_True by (by rewrite device_bits).
    unfold check. rewrite sys_called. unfold called. cbn.
    rewrite <- app_assoc. by destruct (fault f _ _).
Qed.

Lemma writeBlocksToFile_no_size_witness :
  (length (pending (mkReader [x01] EOF)) < 8)%nat
  ∧ BlockrsyncServer.writeBlocksToFile punching_server regular_file
      (mkReader [x01] EOF)
    = Some (punching_server, regular_file, mkReader [] EOF, Ok tt).
Proof.
  assert (Hlen : (length (pending (mkReader [x01] EOF)) < 8)%nat) by (simpl; lia).
  split; [exact Hlen|].
  exact (writeBlocksToFile_no_size punching_server regular_file
           (mkReader [x01] EOF) Hlen).
Defined.

(** * From the source to the target's file *)

Lemma called_all_nil (f : os_File) : called_all f [] = f.
Proof. destruct f. unfold called_all. cbn. by rewrite app_nil_r. Qed.

Lemma called_all_app (f : os_File) (cs1 cs2 : list syscall) :
  called_all (called_all f cs1) cs2 = called_all f (cs1 ++ cs2).
Proof. unfold called_all. cbn. by rewrite app_assoc. Qed.

Lemma faultless_called_all (f : os_File) (cs : list syscall) :
  faultless f -> faultless (called_all f cs).
Proof. done. Qed.

Lemma apply_record_calls (b : BlockrsyncServer) (r : record) (f : os_File) :
  faultless f -> hole_in_range b r ->
  apply_record b r f = (called_all f (record_calls b r), Ok tt).
Proof.
  intros Hf Hr. destruct r as [off|off payload]; cbn [apply_record record_calls].
  - destruct (Preallocation (opts b)) eqn:Hp.
    + destruct (Hr Hp) as (HB & Hoff & Hin).
      rewrite handleEmptyBlock_prealloc by done. by rewrite Hf.
    + by rewrite handleEmptyBlock_punch.
  - unfold BlockrsyncServer.writeBlockToOffset, mbind, Exec_bind, check.
    rewrite !sys_called. cbn [calls called fault]. rewrite !Hf.
    rewrite sys_called. cbn [calls called fault]. rewrite Hf.
    unfold called, called_all. cbn. by rewrite <- app_assoc.
Qed.

Lemma apply_records_calls (b : BlockrsyncServer) (rs : list record) :
  ∀ f, faultless f -> Forall (hole_in_range b) rs ->
    apply_records b rs f = (called_all f (flat_map (record_calls b) rs), Ok tt).
Proof.
  induction rs as [|r rs IH]; intros f Hf Hall.
  - cbn. by rewrite called_all_nil.
  - apply Forall_cons in Hall as [Hr Hall]. cbn [apply_records flat_map].
    unfold mbind, Exec_bind. rewrite apply_record_calls by done.
    rewrite IH by done. by rewrite called_all_app.
Qed.

Lemma truncateFileIfNeeded_faultless (b : BlockrsyncServer)
  (sourceSize targetSize : Z) (f : os_File) :
  faultless f ->
  BlockrsyncServer.truncateFileIfNeeded b sourceSize targetSize f
  = (called_all f (resize_calls (file_mode f) sourceSize targetSize), Ok tt).
Proof.
  intros Hf.
  unfold BlockrsyncServer.truncateFileIfNeeded, BlockrsyncServer.Stat.
  unfold mbind, Exec_bind. rewrite sys_called, Hf.
  cbn [file_mode called]. unfold resize_calls, called_all.
  destruct (is_device (file_mode f)) eqn:Hdev.
  - rewrite decide_False by (rewrite device_bits; congruence).
    case_decide.
    + unfold ignore_error. rewrite PunchHole_called. unfold called. cbn.
      by rewrite <- app_assoc.
    + done.
  - rewrite decide_True by (by rewrite device_bits).
    unfold check. rewrite sys_called. unfold called. cbn.
    rewrite <- app_assoc. by rewrite Hf.
Qed.

(** ** The source on whole blocks *)

Lemma bytes_ReadAt_whole (src : bytes) (B : Z) (o : Z) :
  0 < B -> whole_block B (length src) o ->
  ReadAt src (Z.to_nat B) o
  = (take (Z.to_nat B) (drop (Z.to_nat o) src), None).
Proof.
  intros HB [Ho Hend]. unfold ReadAt, bytes_Reader.
  rewrite decide_False by lia. rewrite decide_False by lia.
  rewrite decide_False; [done|].
  rewrite length_take, length_drop. lia.
Qed.

Lemma length_whole_block (src : bytes) (B : Z) (o : Z) :
  0 < B -> whole_block B (length src) o ->
  length (take (Z.to_nat B) (drop (Z.to_nat o) src)) = Z.to_nat B.
Proof. intros HB [Ho Hend]. rewrite length_take, length_drop. lia. Qed.

Lemma send_blocks_whole (b : BlockrsyncClient) (src : bytes) (offsets : list Z) :
  let B := FileHasher.BlockSize (client_hasher b) in
  0 < B ->
  Forall (whole_block B (length src)) offsets ->
  ∀ (i : Z) (s : Sender bytes),
    length (buf s) = Z.to_nat B ->
    ∃ s',
      BlockrsyncClient.send_blocks b src i offsets s = (s', Ok tt)
      ∧ writer s'
        = writer s ++ encode_records (source_record src B <$> offsets).
Proof.
  intros B HB. induction offsets as [|o offsets IH]; intros Hall i s Hbuf.
  - exists s. split; [done|]. cbn. by rewrite app_nil_r.
  - apply Forall_cons in Hall as [Ho Hall].
    pose proof (length_whole_block src B o HB Ho) as Hlen.
    cbn [BlockrsyncClient.send_blocks]. fold B.
    unfold mbind at 1. unfold Exec_bind at 1. rewrite write_buffer.
    unfold mbind at 1. unfold Exec_bind at 1.
    unfold BlockrsyncClient.read_block at 1. cbn [writer buf syncProgress].
    rewrite Hbuf, bytes_ReadAt_whole by done.
    rewrite read_into_full by (by rewrite Hlen, Hbuf).
    unfold mbind at 1. unfold Exec_bind at 1.
    unfold BlockrsyncClient.get_buf at 1. cbn [buf writer syncProgress].
    unfold BlockrsyncClient.isEmptyBlock.
    rewrite fmap_cons. unfold encode_records. rewrite fmap_cons. cbn [concat].
    fold (encode_records (source_record src B <$> offsets)).
    unfold source_record at 1.
    set (block := take (Z.to_nat B) (drop (Z.to_nat o) src)) in *.
    destruct (bytes_Equal block (emptyBlock B)) eqn:Hempty.
    + unfold mbind, Exec_bind. rewrite write_buffer.
      unfold BlockrsyncClient.report. cbn [writer buf syncProgress].
      edestruct (IH Hall (i + 1)) as (s' & Hrun & Hw); [|exists s'; split; [exact Hrun|]].
      * done.
      * rewrite Hw. cbn [writer encode_record]. by rewrite <- !app_assoc.
    + rewrite Hlen, <- Hlen, firstn_all.
      unfold mbind, Exec_bind. rewrite write_buffer.
      unfold BlockrsyncClient.set_buf. cbn [writer buf syncProgress].
      rewrite write_buffer.
      unfold BlockrsyncClient.report. cbn [writer buf syncProgress].
      edestruct (IH Hall (i + 1)) as (s' & Hrun & Hw); [|exists s'; split; [exact Hrun|]].
      * done.
      * rewrite Hw. cbn [writer encode_record]. rewrite <- !app_assoc. done.
Qed.

Lemma source_record_complete (src : bytes) (B : Z) (o : Z) :
  0 < B -> Z.of_nat (length src) <= int64_max ->
  whole_block B (length src) o ->
  complete_record (Z.to_nat B) (source_record src B o).
Proof.
  intros HB Hmax Ho. pose proof (length_whole_block src B o HB Ho) as Hlen.
  destruct Ho as [Ho Hend].
  assert (in_int64 o) by (unfold in_int64, int64_min, int64_max in *; lia).
  unfold source_record. destruct (bytes_Equal _ _); cbn; auto.
Qed.

Lemma source_record_in_range (b : BlockrsyncServer) (src : bytes) (B : Z) (o : Z) :
  0 < B -> FileHasher.BlockSize (hasher b) = B ->
  Z.of_nat (length src) <= targetFileSize b -> in_int64 (targetFileSize b) ->
  whole_block B (length src) o ->
  hole_in_range b (source_record src B o).
Proof.
  intros HB HBb Hsize Hin [Ho Hend]. unfold source_record.
  destruct (bytes_Equal _ _); cbn; [|done].
  intros _. unfold in_int64, int64_min, int64_max in *. lia.
Qed.

Lemma Forall_default_last {A : Type} (P : A -> Prop) (d : A) (l : list A) :
  Forall P l -> P d -> P (default d (last l)).
Proof.
  intros Hall Hd. destruct (last l) as [x|] eqn:Hlast; [|done].
  cbn. eapply Forall_forall; [exact Hall|]. by apply last_Some_elem_of.
Qed.

(** X14: the source sends whole blocks of a file and the target applies what it
    receives to a file on which every call succeeds.  The source does not
    fail, and the target resizes the file and then, for every offset in
    ascending order, deallocates (or, with preallocation, zero-fills) the
    block if it is all zeros in the source and otherwise seeks to the
    offset and writes the bytes of the source there; the last of these is
    done twice, and with no offset at all the block at offset 0 is
    treated as a hole. *)
Theorem whole_blocks_reach_file (c : BlockrsyncClient) (b : BlockrsyncServer)
  (src : bytes) (offsets : list Z) (f : os_File) (s : Sender bytes) :
  let B := FileHasher.BlockSize (client_hasher c) in
  let rs := source_record src B <$> SortFunc offsets in
  let b1 := BlockrsyncServer.set_targetFileSize b
              (Z.max (targetFileSize b) (sourceSize c)) in
  0 < B ->
  FileHasher.BlockSize (hasher b) = B ->
  sourceSize c = Z.of_nat (length src) ->
  Z.of_nat (length src) <= int64_max ->
  in_int64 (targetFileSize b) ->
  Forall (whole_block B (length src)) offsets ->
  writer s = [] ->
  faultless f ->
  ∃ s' rd,
    BlockrsyncClient.writeBlocksToServer c offsets src s = (s', Ok tt)
    ∧ BlockrsyncServer.writeBlocksToFile b f (mkReader (writer s') EOF)
      = Some (b1,
              called_all f
                (resize_calls (file_mode f) (sourceSize c) (targetFileSize b1)
                 ++ flat_map (record_calls b1)
                      (rs ++ [default (HoleRecord 0) (last rs)])),
              rd, Ok tt).
Proof.
  intros B rs b1 HB HBb Hsize Hmax Htfs Hall Hw Hf.
  assert (Hsorted : Forall (whole_block B (length src)) (SortFunc offsets))
    by (by rewrite SortFunc_perm).
  destruct (send_blocks_whole c src (SortFunc offsets) HB Hsorted 0
              (mkSender (writer s ++ put_int64 (sourceSize c))
                 (zeros (Z.to_nat B))
                 ((fun l => l ++ [Start (wrap64 (Z.of_nat (length (SortFunc offsets)) * B))])
                    <$> syncProgress s)))
    as (s' & Hrun & Hout).
  { cbn [buf]. unfold zeros. by rewrite length_replicate. }
  cbn [writer] in Hout. rewrite Hw in Hout. cbn [app] in Hout.
  change (writer s' = put_int64 (sourceSize c) ++ encode_records rs) in Hout.
  assert (Hin_size : in_int64 (sourceSize c))
    by (unfold in_int64, int64_min, int64_max in *; lia).
  assert (Hcomplete : Forall (complete_record (Z.to_nat (FileHasher.BlockSize (hasher b)))) rs).
  { rewrite HBb. unfold rs. apply Forall_fmap. eapply Forall_impl; [exact Hsorted|].
    intros o Ho. by apply source_record_complete. }
  assert (Hb1 : FileHasher.BlockSize (hasher b1) = B) by done.
  assert (Hsz1 : Z.of_nat (length src) <= targetFileSize b1)
    by (unfold b1; cbn; lia).
  assert (Hin1 : in_int64 (targetFileSize b1)).
  { unfold b1. cbn. unfold in_int64, int64_min, int64_max in *. lia. }
  assert (Hrange : Forall (hole_in_range b1) rs).
  { unfold rs. apply Forall_fmap. eapply Forall_impl; [exact Hsorted|].
    intros o Ho. by apply source_record_in_range. }
  assert (Hrange' : Forall (hole_in_range b1)
                      (rs ++ [default (HoleRecord 0) (last rs)])).
  { apply Forall_app. split; [done|]. apply Forall_singleton.
    apply Forall_default_last; [done|].
    intros _. rewrite Hb1. unfold in_int64, int64_min, int64_max in *. lia. }
  destruct (writeBlocksToFile_records b (sourceSize c) rs f
              (called_all f (resize_calls (file_mode f) (sourceSize c)
                               (targetFileSize b1))))
    as [rd Hrecv]; try done.
  { rewrite HBb. lia. }
  { by apply truncateFileIfNeeded_faultless. }
  exists s', rd. split.
  - unfold BlockrsyncClient.writeBlocksToServer. fold B.
    unfold mbind at 1. unfold Exec_bind at 1. rewrite write_buffer.
    unfold mbind at 1. unfold Exec_bind at 1.
    unfold BlockrsyncClient.report at 1. cbn [writer buf syncProgress].
    rewrite decide_False by lia.
    unfold mbind at 1. unfold Exec_bind at 1.
    unfold BlockrsyncClient.set_buf at 1. cbn [writer buf syncProgress].
    exact Hrun.
  - rewrite Hout, Hrecv. fold b1.
    rewrite apply_records_calls by (try apply faultless_called_all; done).
    cbn [fst snd]. by rewrite called_all_app.
Qed.

Lemma faultless_regular_file : faultless regular_file.
Proof. intros h c. reflexivity. Qed.

Lemma whole_blocks_reach_file_witness :
  0 < FileHasher.BlockSize (client_hasher two_block_client)
  ∧ FileHasher.BlockSize (hasher punching_server)
    = FileHasher.BlockSize (client_hasher two_block_client)
  ∧ sourceSize two_block_client = Z.of_nat (length (content two_block_file))
  ∧ Forall (whole_block 4 (length (content two_block_file))) [4; 0]
  ∧ faultless regular_file
  ∧ ∃ s' rd,
      BlockrsyncClient.writeBlocksToServer two_block_client [4; 0]
        (content two_block_file) fresh_sender = (s', Ok tt)
      ∧ BlockrsyncServer.writeBlocksToFile punching_server regular_file
          (mkReader (writer s') EOF)
        = Some (BlockrsyncServer.set_targetFileSize punching_server 8,
                called_all regular_file
                  [Fstat; Ftruncate 8; Fallocate 3 0 4; Lseek 4;
                   Writev [x01; x02; x03; x04]; Lseek 4;
                   Writev [x01; x02; x03; x04]],
                rd, Ok tt).
Proof.
  assert (HB : 0 < FileHasher.BlockSize (client_hasher two_block_client))
    by (simpl; lia).
  assert (Hmax : Z.of_nat (length (content two_block_file)) <= int64_max)
    by (unfold int64_max; simpl; lia).
  assert (Htfs : in_int64 (targetFileSize punching_server))
    by (unfold in_int64, int64_min, int64_max; simpl; lia).
  assert (Hall : Forall (whole_block 4 (length (content two_block_file))) [4; 0])
    by (repeat constructor; simpl; lia).
  split; [exact HB|]. split; [reflexivity|]. split; [reflexivity|].
  split; [exact Hall|]. split; [exact faultless_regular_file|].
  exact (whole_blocks_reach_file two_block_client punching_server
           (content two_block_file) [4; 0] regular_file fresh_sender
           HB eq_refl eq_refl Hmax Htfs Hall eq_refl faultless_regular_file).
Defined.

(** * More on the source's emission *)

Lemma DiffHashes_NoDup (range : gmap Z bytes -> list (Z * bytes))
  (f : FileHasher) (B' : Z) (H_tgt : gmap Z bytes) :
  (∀ m, range m ≡ₚ map_to_list m) ->
  NoDup (FileHasher.DiffHashes range f B' H_tgt).1.1.
Proof.
  intros Hperm. unfold FileHasher.DiffHashes. case_decide; [apply NoDup_nil_2|].
  destruct (fold_left FileHasher.diff_local (range (hashes f)) ([], H_tgt))
    as [d1 c1] eqn:Hfold.
  destruct (diff_local_fold _ _ _ _ _ (range_NoDup_keys range Hperm _) Hfold)
    as (Hc & Hd & Hn).
  destruct (diff_remaining_fold (fileSize f) (range c1) d1) as [_ Hn2].
  cbn [fst]. apply Hn2.
  - apply (range_NoDup_keys range Hperm).
  - apply Hn; [apply NoDup_nil_2|]. intros k Hk. by apply elem_of_nil in Hk.
  - intros k Hk. rewrite (range_key range Hperm), elem_of_dom, Hc.
    apply Hd in Hk as [Hk|(v & Hin & _)]; [by apply elem_of_nil in Hk|].
    rewrite decide_True; [by intros [? ?]|].
    apply list_elem_of_fmap. by exists (k, v).
Qed.

Lemma DiffHashes_perm (range1 range2 : gmap Z bytes -> list (Z * bytes))
  (f : FileHasher) (B' : Z) (H_tgt : gmap Z bytes) :
  (∀ m, range1 m ≡ₚ map_to_list m) ->
  (∀ m, range2 m ≡ₚ map_to_list m) ->
  (FileHasher.DiffHashes range1 f B' H_tgt).1.1
  ≡ₚ (FileHasher.DiffHashes range2 f B' H_tgt).1.1.
Proof.
  intros H1 H2. apply NoDup_Permutation; try by apply DiffHashes_NoDup.
  destruct (decide (B' = blockSize f)) as [->|Hne].
  - destruct (DiffHashes_result range1 H1 f H_tgt) as (d1 & r1 & -> & Hr1 & Hd1).
    destruct (DiffHashes_result range2 H2 f H_tgt) as (d2 & r2 & -> & Hr2 & Hd2).
    cbn [fst]. intros k. by rewrite Hd1, Hd2, Hr1, Hr2.
  - unfold FileHasher.DiffHashes. by rewrite !decide_True.
Qed.

(** X15: Go walks the hash maps in an order of its choice, so [DiffHashes]
    lists the offsets in any order; what [writeBlocksToServer] then does
    with that list (the bytes it writes, the buffer, the progress calls and
    its result) is the same for every such order. *)
Theorem sent_blocks_order_independent {W : Type} `{Writer W} {F : Type}
  `{ReaderAt F} (range1 range2 : gmap Z bytes -> list (Z * bytes))
  (b : BlockrsyncClient) (B' : Z) (H_tgt : gmap Z bytes) (f : F)
  (s : Sender W) :
  (∀ m, range1 m ≡ₚ map_to_list m) ->
  (∀ m, range2 m ≡ₚ map_to_list m) ->
  BlockrsyncClient.writeBlocksToServer b
    (FileHasher.DiffHashes range1 (client_hasher b) B' H_tgt).1.1 f s
  = BlockrsyncClient.writeBlocksToServer b
      (FileHasher.DiffHashes range2 (client_hasher b) B' H_tgt).1.1 f s.
Proof.
  intros H1 H2. unfold BlockrsyncClient.writeBlocksToServer.
  by rewrite (SortFunc_unique _ _
                (DiffHashes_perm range1 range2 (client_hasher b) B' H_tgt H1 H2)).
Qed.

(** ** Progress reports *)

Section Progress.
Context {W : Type} `{Writer W} {F : Type} `{ReaderAt F}.

Lemma write_progress (p : bytes) (s s' : Sender W) (r : outcome unit) :
  BlockrsyncClient.write p s = (s', r) -> syncProgress s' = syncProgress s.
Proof.
  unfold BlockrsyncClient.write. destruct (Write (writer s) p) as [w [e|]];
    by intros [= <- <-].
Qed.

Lemma bind_Ok {S A B : Type} (m : Exec S A) (k : A -> Exec S B) (s s' : S)
  (b : B) :
  (m ≫= k) s = (s', Ok b) -> ∃ s1 a, m s = (s1, Ok a) ∧ k a s1 = (s', Ok b).
Proof.
  unfold mbind, Exec_bind. destruct (m s) as [s1 [a| |]]; [|done..].
  intros Hk. by exists s1, a.
Qed.

Lemma read_block_progress (f : F) (o : Z) (s s' : Sender W) (r : outcome nat) :
  BlockrsyncClient.read_block f o s = (s', r) -> syncProgress s' = syncProgress s.
Proof.
  unfold BlockrsyncClient.read_block.
  destruct (ReadAt f (length (buf s)) o) as [data [e|]]; [case_decide|];
    by intros [= <- <-].
Qed.

Lemma send_blocks_progress (b : BlockrsyncClient) (f : F) (offsets : list Z) :
  let B := FileHasher.BlockSize (client_hasher b) in
  ∀ (i : nat) (s s' : Sender W),
    BlockrsyncClient.send_blocks b f (Z.of_nat i) offsets s = (s', Ok tt) ->
    syncProgress s'
    = (fun log => log ++ ((fun j => Update (wrap64 (Z.of_nat j * B)))
                            <$> seq i (length offsets)))
      <$> syncProgress s.
Proof.
  intros B. induction offsets as [|o offsets IH]; intros i s s'.
  - intros [= <-]. cbn. destruct (syncProgress s); cbn; [|done].
    by rewrite app_nil_r.
  - cbn [BlockrsyncClient.send_blocks]. fold B. intros Hrun.
    apply bind_Ok in Hrun as (s1 & [] & H1 & Hrun). apply write_progress in H1.
    apply bind_Ok in Hrun as (s2 & n & H2 & Hrun). apply read_block_progress in H2.
    apply bind_Ok in Hrun as (s3 & a & H3 & Hrun). injection H3 as <- <-.
    apply bind_Ok in Hrun as (s4 & [] & H4 & Hrun).
    assert (Hs4 : syncProgress s4 = syncProgress s2).
    { destruct (BlockrsyncClient.isEmptyBlock B (buf s2)).
      - by apply write_progress in H4.
      - apply bind_Ok in H4 as (s5 & [] & H5 & H4). apply write_progress in H5.
        apply bind_Ok in H4 as (s6 & [] & H6 & H4). injection H6 as <-.
        apply write_progress in H4. cbn [syncProgress] in H4. congruence. }
    apply bind_Ok in Hrun as (s5 & [] & H5 & Hrun). injection H5 as <-.
    replace (Z.of_nat i + 1) with (Z.of_nat (S i)) in Hrun by lia.
    apply IH in Hrun. rewrite Hrun. cbn [syncProgress].
    rewrite Hs4, H2, H1. destruct (syncProgress s) as [log|]; cbn; [|done].
    by rewrite <- app_assoc.
Qed.

(** X16: the progress calls of a [writeBlocksToServer] that succeeds over [n]
    offsets: [Start] with [n * B], then [Update] with [0], [B], ...,
    [(n - 1) * B], one after each block; a nil reporter stays nil.  For a
    positive block size and when [n * B] does not overflow, every position
    reported lies below the total announced, so the total itself is never
    reported. *)
Theorem writeBlocksToServer_progress (b : BlockrsyncClient) (offsets : list Z)
  (f : F) (s s' : Sender W) :
  let B := FileHasher.BlockSize (client_hasher b) in
  let n := length offsets in
  let reported :=
    Start (wrap64 (Z.of_nat n * B))
    :: ((fun j => Update (wrap64 (Z.of_nat j * B))) <$> seq 0 n) in
  BlockrsyncClient.writeBlocksToServer b offsets f s = (s', Ok tt) ->
  syncProgress s' = (fun log => log ++ reported) <$> syncProgress s
  ∧ (0 < B -> Z.of_nat n * B <= int64_max ->
     Start (Z.of_nat n * B) ∈ reported
     ∧ ∀ pos, Update pos ∈ reported -> 0 <= pos < Z.of_nat n * B).
Proof.
  intros B n reported Hrun. split.
  - unfold BlockrsyncClient.writeBlocksToServer in Hrun. fold B in Hrun.
    apply bind_Ok in Hrun as (s1 & [] & H1 & Hrun). apply write_progress in H1.
    apply bind_Ok in Hrun as (s2 & [] & H2 & Hrun). injection H2 as <-.
    case_decide as HB; [done|].
    apply bind_Ok in Hrun as (s3 & [] & H3 & Hrun). injection H3 as <-.
    apply (send_blocks_progress b f _ 0%nat) in Hrun. rewrite Hrun.
    cbn [syncProgress]. rewrite H1.
    rewrite (Permutation_length (SortFunc_perm offsets)). fold n B.
    destruct (syncProgress s) as [log|]; cbn; [|done].
    unfold reported. by rewrite <- app_assoc.
  - intros HB Hmax.
    assert (Hin : ∀ x, 0 <= x <= Z.of_nat n * B -> wrap64 x = x).
    { intros x Hx. apply wrap64_id. unfold in_int64, int64_min, int64_max in *. lia. }
    unfold reported. split.
    + rewrite Hin by nia. left.
    + intros pos [[=]|Hpos]%elem_of_cons.
      apply list_elem_of_fmap in Hpos as (j & [= ->] & Hj).
      apply elem_of_seq in Hj. rewrite Hin by nia. nia.
Qed.

End Progress.

Lemma sent_blocks_order_independent_witness :
  (∀ m : gmap Z bytes, map_to_list m ≡ₚ map_to_list m)
  ∧ (∀ m : gmap Z bytes, range_reversed m ≡ₚ map_to_list m)
  ∧ BlockrsyncClient.writeBlocksToServer hashed_client
      (FileHasher.DiffHashes map_to_list (client_hasher hashed_client) 4
         peer_example).1.1 (content two_block_file) fresh_sender
    = BlockrsyncClient.writeBlocksToServer hashed_client
        (FileHasher.DiffHashes range_reversed (client_hasher hashed_client) 4
           peer_example).1.1 (content two_block_file) fresh_sender.
Proof.
  split; [intros m; apply Permutation_refl|]. split; [apply range_reversed_perm|].
  exact (sent_blocks_order_independent map_to_list range_reversed
           hashed_client 4 peer_example (content two_block_file) fresh_sender
           (fun m => Permutation_refl _) range_reversed_perm).
Defined.

Lemma writeBlocksToServer_progress_witness :
  BlockrsyncClient.writeBlocksToServer test_client [4; 2] test_file
    reporting_sender
  = (mkSender (put_int64 40 ++ (put_int64 2 ++ [Hole])
               ++ (put_int64 4 ++ [Block; x03; x04]))
       [x03; x04] (Some [Start 4; Update 0; Update 2]), Ok tt)
  ∧ Start 4 ∈ [Start 4; Update 0; Update 2]
  ∧ ∀ pos, Update pos ∈ [Start 4; Update 0; Update 2] -> 0 <= pos < 4.
Proof.
  assert (Hrun : BlockrsyncClient.writeBlocksToServer test_client [4; 2]
                   test_file reporting_sender
                 = (mkSender (put_int64 40 ++ (put_int64 2 ++ [Hole])
                              ++ (put_int64 4 ++ [Block; x03; x04]))
                      [x03; x04] (Some [Start 4; Update 0; Update 2]), Ok tt))
    by (vm_compute; reflexivity).
  split; [exact Hrun|].
  destruct (writeBlocksToServer_progress test_client [4; 2] test_file
              reporting_sender _ Hrun) as [_ Hbelow].
  apply Hbelow; [simpl; lia|unfold int64_max; simpl; lia].
Defined.

(** * The proxy *)

Lemma length_list_byte_of_string (s : string) :
  length (String.list_byte_of_string s) = String.length s.
Proof.
  unfold String.list_byte_of_string. rewrite length_map.
  induction s as [|a s IH]; [done|]. cbn. by rewrite IH.
Qed.

(** X17: what [getTargetFileFromIdentifier] answers.  It never reports a wrong
    number of header bytes: a stream of fewer than 32 bytes is a read
    error.  Otherwise it consumes exactly the 32 bytes of the header and
    looks the header up in the environment, first as it is and, when that
    gives nothing (the variable is unset or empty), with the prefix
    [id-]; it fails when both give nothing. *)
Theorem getTargetFileFromIdentifier_result (environ : gmap string string)
  (conn conn' : Reader) (file header : string) (err : option error) :
  let id := String.string_of_list_byte (take 32 (pending conn)) in
  ProxyServer.getTargetFileFromIdentifier environ conn
  = (conn', (file, header, err)) ->
  closing conn' = closing conn
  ∧ match err with
    | None =>
        (32 <= length (pending conn))%nat
        ∧ pending conn' = drop 32 (pending conn)
        ∧ header = id
        ∧ file ≠ EmptyString
        ∧ file = (if decide (os_Getenv environ id = EmptyString)
                  then os_Getenv environ ("id-" +:+ id)
                  else os_Getenv environ id)
    | Some e =>
        file = EmptyString ∧ header = EmptyString
        ∧ (((length (pending conn) < 32)%nat ∧ pending conn' = []
            ∧ read_error conn e)
           ∨ ((32 <= length (pending conn))%nat
              ∧ pending conn' = drop 32 (pending conn)
              ∧ os_Getenv environ id = EmptyString
              ∧ os_Getenv environ ("id-" +:+ id) = EmptyString
              ∧ e = ErrNew ("no filepath found for " +:+ id)))
    end.
Proof.
  intros id. unfold ProxyServer.getTargetFileFromIdentifier, identifierLength.
  unfold ReadFull, read_error. rewrite decide_False by lia.
  case_decide as Hlen.
  - rewrite decide_False by (rewrite length_take; lia). fold id.
    cbn [pending closing].
    repeat case_decide; intros [= <- <- <- <-]; cbn [pending closing];
      split_and!; try done.
    right. done.
  - destruct (pending conn) as [|x p] eqn:Hp.
    + intros [= <- <- <- <-]. split; [done|]. split_and!; try done.
      left. rewrite Hp. cbn. split_and!; auto. lia.
    + intros [= <- <- <- <-]. split; [done|]. split_and!; try done.
      left. split_and!; [lia|done|]. case_decide; auto.
Qed.

Lemma io_Copy_loop_buffer (chunk : nat) :
  (0 < chunk)%nat ->
  ∀ (fuel : nat) (dst : bytes) (src : Reader),
    (length (pending src) < fuel)%nat ->
    io_Copy_loop chunk fuel dst src
    = Some (dst ++ pending src, mkReader [] (closing src),
            if decide (closing src = EOF) then None else Some (closing src)).
Proof.
  intros Hchunk. destruct chunk as [|c]; [lia|].
  induction fuel as [|fuel IH]; intros dst src Hfuel; [lia|].
  cbn [io_Copy_loop]. unfold Read. destruct src as [[|x p] cl]; cbn [pending closing] in *.
  - by rewrite app_nil_r.
  - cbn [take drop]. unfold Write, Buffer_Writer.
    rewrite IH by (cbn [pending]; rewrite length_drop; cbn in Hfuel; lia).
    cbn [pending closing]. rewrite <- app_assoc. cbn [app].
    by rewrite take_drop.
Qed.

Lemma io_Copy_buffer (dst : bytes) (src : Reader) :
  io_Copy dst src
  = Some (dst ++ pending src, mkReader [] (closing src),
          if decide (closing src = EOF) then None else Some (closing src)).
Proof. unfold io_Copy. apply io_Copy_loop_buffer; lia. Qed.

(** X18: the proxy client and the proxy server agree on the header.  When the
    client has an identifier of 32 bytes, listens, accepts a stream that
    ends cleanly and gets through to the target, it succeeds and what it
    has written is the identifier followed by the stream; the server that
    reads this finds the identifier as the header, looks it up, and is left
    with exactly the stream. *)
Theorem proxy_header_round_trip (fuel : nat) (identifier : string)
  (env : ProxyClientEnv) (inConn : Reader) (d : Dialing) (k : nat)
  (environ : gmap string string) (file : string) :
  String.length identifier = 32%nat ->
  proxy_listen env = None ->
  proxy_accept env = inl inConn ->
  closing inConn = EOF ->
  ProxyClient.dial_target (proxy_dial env) fuel = Some (d, Ok k) ->
  os_Getenv environ identifier = file ->
  file ≠ EmptyString ->
  ∃ out,
    ProxyClient_ConnectToTarget fuel identifier env ([] : bytes)
    = Some (out, Ok tt)
    ∧ out = String.list_byte_of_string identifier ++ pending inConn
    ∧ ProxyServer.getTargetFileFromIdentifier environ (mkReader out EOF)
      = (mkReader (pending inConn) EOF, (file, identifier, None)).
Proof.
  intros Hlen Hlisten Haccept Hclose Hdial Hfile Hne.
  eexists. split; [|split; [reflexivity|]].
  - unfold ProxyClient_ConnectToTarget, identifierLength.
    rewrite decide_False by (intros Hbad; apply Hbad, Hlen).
    rewrite Hlisten, Haccept, Hdial.
    unfold Write at 1. unfold Buffer_Writer at 1. cbn [app].
    rewrite io_Copy_buffer, Hclose. done.
  - unfold ProxyServer.getTargetFileFromIdentifier, identifierLength.
    pose proof (length_list_byte_of_string identifier) as Hbytes.
    rewrite Hlen in Hbytes.
    replace (mkReader (String.list_byte_of_string identifier ++ pending inConn) EOF)
      with (mkReader (take (length (String.list_byte_of_string identifier))
                        (String.list_byte_of_string identifier)
                      ++ drop (length (String.list_byte_of_string identifier))
                           (String.list_byte_of_string identifier)
                      ++ pending inConn) EOF)
      by (by rewrite firstn_all, drop_all).
    rewrite firstn_all, drop_all. cbn [app].
    rewrite <- Hbytes at 1.
    rewrite (ReadFull_exact (String.list_byte_of_string identifier)).
    rewrite decide_False by (intros Hbad; apply Hbad, Hbytes).
    rewrite String.string_of_list_byte_of_string, Hfile.
    by rewrite decide_False.
Qed.

Lemma claim_keeps (processing : gmap string Z) (h h' : string) (i j : Z) :
  0 < i -> 0 < j ->
  processing !! h = Some i ->
  (ProxyServer.claim processing h' j).1 !! h = Some i.
Proof.
  intros Hi Hj Hh. unfold ProxyServer.claim. case_decide as Hc; [done|].
  cbn [fst]. destruct (decide (h' = h)) as [->|Hne].
  - rewrite Hh in Hc. cbn in Hc. lia.
  - by rewrite lookup_insert_ne.
Qed.

(** X19: A header is claimed once and for good.  After thread [i] has taken a
    header, whatever claims the threads make next, the map still names
    [i] for it and every further claim of that header is refused; nothing
    releases it. *)
Theorem claim_exclusive (processing : gmap string Z) (header : string) (i j : Z)
  (attempts : list (string * Z)) :
  0 < i ->
  Forall (fun a => 0 < a.2) attempts ->
  (ProxyServer.claim processing header i).2 = true ->
  let processing' :=
    fold_left (fun p a => (ProxyServer.claim p a.1 a.2).1) attempts
      (ProxyServer.claim processing header i).1 in
  processing' !! header = Some i
  ∧ ProxyServer.claim processing' header j = (processing', false).
Proof.
  intros Hi Hall Hclaim processing'.
  assert (Hstart : (ProxyServer.claim processing header i).1 !! header = Some i).
  { unfold ProxyServer.claim in *. case_decide; [done|].
    cbn [fst]. by rewrite lookup_insert_eq. }
  assert (Hkept : processing' !! header = Some i).
  { unfold processing'. clear processing' Hclaim.
    revert Hstart. generalize (ProxyServer.claim processing header i).1.
    induction Hall as [|[h' j'] attempts Hj _ IH]; intros p Hp; [done|].
    cbn [fold_left]. apply IH. by apply claim_keeps. }
  split; [done|]. unfold ProxyServer.claim. rewrite Hkept. cbn.
  by rewrite decide_True by lia.
Qed.

Lemma getTargetFileFromIdentifier_unresolved (environ : gmap string string)
  (conn : Reader) :
  unresolved environ conn ->
  ∃ conn' e,
    ProxyServer.getTargetFileFromIdentifier environ conn
    = (conn', (EmptyString, EmptyString, Some e)).
Proof.
  unfold unresolved, ProxyServer.getTargetFileFromIdentifier, identifierLength.
  unfold ReadFull. rewrite decide_False by lia. intros Hun.
  case_decide as Hlen.
  - destruct Hun as [?|[H1 H2]]; [lia|].
    rewrite decide_False by (rewrite length_take; lia). cbn [pending closing].
    rewrite decide_True by done. rewrite decide_True by done. eauto.
  - destruct (pending conn); eauto.
Qed.

(** X20: A connection whose header names no file is not dropped: the turn goes
    on with the empty header and file.  The first thread to meet one, with
    the empty header still free, starts a sync server for the file with
    the empty name on its port, and takes the empty header; every such
    connection after that is ignored, by whatever thread. *)
Theorem unresolved_header_is_served (environ : gmap string string) (i j : Z)
  (conn conn2 : Reader) (processing : gmap string Z) :
  0 < i ->
  unresolved environ conn ->
  unresolved environ conn2 ->
  default 0 (processing !! EmptyString) <= 0 ->
  (ProxyServer.accepted environ i conn processing).2
  = ProxyServer.Serving EmptyString (blockRsyncPort + i)
  ∧ (ProxyServer.accepted environ i conn processing).1.1
    = <[EmptyString := i]> processing
  ∧ (ProxyServer.accepted environ j conn2
       (ProxyServer.accepted environ i conn processing).1.1).2
    = ProxyServer.Ignored.
Proof.
  intros Hi Hun Hun2 Hfree.
  apply getTargetFileFromIdentifier_unresolved in Hun as (c1 & e1 & H1).
  apply getTargetFileFromIdentifier_unresolved in Hun2 as (c2 & e2 & H2).
  assert (Hacc : ProxyServer.accepted environ i conn processing
                 = (<[EmptyString := i]> processing, c1,
                    ProxyServer.Serving EmptyString (blockRsyncPort + i))).
  { unfold ProxyServer.accepted. rewrite H1. unfold ProxyServer.claim.
    by rewrite decide_False by lia. }
  rewrite Hacc. cbn [fst snd]. split; [done|]. split; [done|].
  unfold ProxyServer.accepted. rewrite H2. unfold ProxyServer.claim.
  rewrite lookup_insert_eq. rewrite decide_True; [done|cbn; lia].
Qed.

(** X21: the proxy server's dial loop has no bound on its retries: it ends
    only by connecting.  Whatever the number of turns, it either is still
    dialling, every call so far having failed, or has connected at the
    first call that succeeded, after one second of sleep for each call
    that failed. *)
Theorem server_dial_loop_unbounded (dial : nat -> option error) (fuel : nat) :
  match ProxyServer.dial_loop dial fuel (mkDialing 0 []) with
  | None => ∀ k, (k < fuel)%nat -> dial k ≠ None
  | Some (d, c) =>
      (c < fuel)%nat ∧ dial c = None ∧ (∀ k, (k < c)%nat -> dial k ≠ None)
      ∧ dials d = S c ∧ sleeps d = replicate c 1
  end.
Proof.
  assert (Hgen : ∀ fuel d,
    match ProxyServer.dial_loop dial fuel d with
    | None => ∀ k, (dials d <= k < dials d + fuel)%nat -> dial k ≠ None
    | Some (d', c) =>
        (dials d <= c < dials d + fuel)%nat ∧ dial c = None
        ∧ (∀ k, (dials d <= k < c)%nat -> dial k ≠ None)
        ∧ dials d' = S c
        ∧ sleeps d' = sleeps d ++ replicate (c - dials d) 1
    end).
  { clear fuel. induction fuel as [|fuel IH]; intros d.
    - cbn. intros k Hk. lia.
    - cbn [ProxyServer.dial_loop].
      destruct (dial (dials d)) as [e|] eqn:Hdial.
      + specialize (IH (mkDialing (S (dials d)) (sleeps d ++ [1]))).
        destruct (ProxyServer.dial_loop dial fuel _) as [[d' c]|];
          cbn [dials sleeps] in IH.
        * destruct IH as (Hc & Hok & Hfail & Hd & Hs).
          split; [lia|]. split; [done|]. split; [|split; [done|]].
          -- intros k Hk. destruct (decide (k = dials d)) as [->|Hne];
               [congruence|apply Hfail; lia].
          -- rewrite Hs, <- app_assoc. f_equal.
             replace (c - dials d)%nat with (S (c - S (dials d))) by lia. done.
        * intros k Hk. destruct (decide (k = dials d)) as [->|Hne];
            [congruence|apply IH; lia].
      + cbn [dials sleeps].
        split; [lia|]. split; [done|]. split; [intros k Hk; lia|]. split; [done|].
        rewrite Nat.sub_diag. cbn. by rewrite app_nil_r. }
  specialize (Hgen fuel (mkDialing 0 [])).
  destruct (ProxyServer.dial_loop dial fuel _) as [[d c]|]; cbn [dials sleeps] in Hgen.
  - destruct Hgen as (Hc & Hok & Hfail & Hd & Hs).
    split; [lia|]. split; [done|]. split; [intros k Hk; apply Hfail; lia|].
    split; [done|]. rewrite Hs. cbn [app]. f_equal. lia.
  - intros k Hk. apply Hgen. lia.
Qed.

Lemma getTargetFileFromIdentifier_result_witness :
  ProxyServer.getTargetFileFromIdentifier prefixed_environ identified_conn
  = (mkReader [x01; x02] EOF, ("/dev/vdc", sample_identifier, None))
  ∧ pending (mkReader [x01; x02] EOF) = drop 32 (pending identified_conn)
  ∧ os_Getenv prefixed_environ sample_identifier = EmptyString.
Proof.
  assert (Hrun : ProxyServer.getTargetFileFromIdentifier prefixed_environ
                   identified_conn
                 = (mkReader [x01; x02] EOF, ("/dev/vdc", sample_identifier, None)))
    by (vm_compute; reflexivity).
  split; [exact Hrun|].
  destruct (getTargetFileFromIdentifier_result prefixed_environ identified_conn
              _ _ _ _ Hrun) as (_ & _ & Hrest & _).
  split; [exact Hrest|]. vm_compute. reflexivity.
Defined.

Lemma proxy_header_round_trip_witness :
  String.length sample_identifier = 32%nat
  ∧ ProxyClient.dial_target flaky_dial 40 = Some (mkDialing 3 [1; 1], Ok 2%nat)
  ∧ os_Getenv sample_environ sample_identifier = "/dev/vdb"
  ∧ ∃ out,
      ProxyClient_ConnectToTarget 40 sample_identifier sample_proxy_env
        ([] : bytes) = Some (out, Ok tt)
      ∧ out = String.list_byte_of_string sample_identifier ++ [x01; x02]
      ∧ ProxyServer.getTargetFileFromIdentifier sample_environ (mkReader out EOF)
        = (mkReader [x01; x02] EOF, ("/dev/vdb", sample_identifier, None)).
Proof.
  assert (Hdial : ProxyClient.dial_target (proxy_dial sample_proxy_env) 40
                  = Some (mkDialing 3 [1; 1], Ok 2%nat))
    by (vm_compute; reflexivity).
  assert (Hfile : os_Getenv sample_environ sample_identifier = "/dev/vdb")
    by (vm_compute; reflexivity).
  split; [reflexivity|]. split; [exact Hdial|]. split; [exact Hfile|].
  apply (proxy_header_round_trip 40 sample_identifier sample_proxy_env
           (mkReader [x01; x02] EOF) (mkDialing 3 [1; 1]) 2 sample_environ
           "/dev/vdb" eq_refl eq_refl eq_refl eq_refl Hdial Hfile).
  discriminate.
Defined.

Lemma claim_exclusive_witness :
  0 < 1
  ∧ Forall (fun a : string * Z => 0 < a.2) [("b", 2); ("a", 2)]
  ∧ (ProxyServer.claim ∅ "a" 1).2 = true
  ∧ fold_left (fun p a => (ProxyServer.claim p a.1 a.2).1) [("b", 2); ("a", 2)]
      (ProxyServer.claim ∅ "a" 1).1 !! "a" = Some 1
  ∧ ProxyServer.claim
      (fold_left (fun p a => (ProxyServer.claim p a.1 a.2).1)
         [("b", 2); ("a", 2)] (ProxyServer.claim ∅ "a" 1).1) "a" 3
    = (fold_left (fun p a => (ProxyServer.claim p a.1 a.2).1)
         [("b", 2); ("a", 2)] (ProxyServer.claim ∅ "a" 1).1, false).
Proof.
  assert (Hi : 0 < 1) by lia.
  assert (Hall : Forall (fun a : string * Z => 0 < a.2) [("b", 2); ("a", 2)])
    by (repeat constructor; simpl; lia).
  split; [exact Hi|]. split; [exact Hall|]. split; [reflexivity|].
  exact (claim_exclusive ∅ "a" 1 3 [("b", 2); ("a", 2)] Hi Hall eq_refl).
Defined.

Lemma unresolved_header_is_served_witness :
  0 < 1
  ∧ unresolved ∅ (mkReader [] EOF)
  ∧ unresolved ∅ identified_conn
  ∧ (ProxyServer.accepted ∅ 1 (mkReader [] EOF) ∅).2
    = ProxyServer.Serving EmptyString 3223
  ∧ (ProxyServer.accepted ∅ 2 identified_conn
       (ProxyServer.accepted ∅ 1 (mkReader [] EOF) ∅).1.1).2
    = ProxyServer.Ignored.
Proof.
  assert (Hi : 0 < 1) by lia.
  assert (H1 : unresolved ∅ (mkReader [] EOF)) by (left; simpl; lia).
  assert (H2 : unresolved ∅ identified_conn) by (right; split; reflexivity).
  split; [exact Hi|]. split; [exact H1|]. split; [exact H2|].
  destruct (unresolved_header_is_served ∅ 1 2 (mkReader [] EOF) identified_conn
              ∅ Hi H1 H2) as (Hserve & _ & Hignored).
  - rewrite lookup_empty. simpl. lia.
  - split; [exact Hserve|exact Hignored].
Defined.

(** * A run of [HashFile] that hashes every block *)

Section HashFileComplete.
Variable blake2b512 : bytes -> bytes.
Variable file : SourceFile.

Lemma spawn_exact (f : FileHasher) (q : list Z) (pr : option Z)
  (r : list OffsetHash) (wt : waiter) (count : Z) (n : nat) :
  FileHasher.concurrentHashCount f (fileSize f) = Ok count ->
  ∀ (i wg : Z) (ws : list worker),
    Z.to_nat (count - i) = n ->
    rtc (HashFile_step blake2b512 file)
      (mkHashRun f q pr r wg ws wt (Spawning i))
      (mkHashRun f q pr r (wg + Z.of_nat n) (ws ++ replicate n Opening) wt
         Selecting).
Proof.
  intros Hcount. induction n as [|n IH]; intros i wg ws Hn.
  - cbn. rewrite app_nil_r, Z.add_0_r. apply rtc_once.
    eapply main_spawned; [done|lia].
  - eapply rtc_l; [eapply main_spawn; [done|lia]|].
    specialize (IH (i + 1) (wg + 1) (ws ++ [Opening])).
    replace (wg + Z.of_nat (S n)) with (wg + 1 + Z.of_nat n) by lia.
    replace (ws ++ replicate (S n) Opening)
      with ((ws ++ [Opening]) ++ replicate n Opening)
      by (by rewrite <- app_assoc).
    apply IH. lia.
Qed.

(** One worker hashes the blocks from [i] on, one at a time, and the main
    goroutine stores each digest. *)
Lemma hash_from (B size : Z) (n : Z) (ws : list worker) (j : nat) :
  0 < B -> size = Z.of_nat (length (content file)) ->
  size + B <= int64_max ->
  ws !! j = Some Ranging ->
  ∀ (m : nat) (i : Z) (H : gmap Z bytes),
    Z.to_nat (size - i) = m -> 0 <= i ->
    ∃ H',
      rtc (HashFile_step blake2b512 file)
        (mkHashRun (mkFileHasher H B size) [] (Some i) [] n ws Waiting Selecting)
        (mkHashRun (mkFileHasher H' B size) [] None [] n ws Waiting Selecting)
      ∧ ∀ k, H' !! k
             = if decide (i <= k < size ∧ (k - i) mod B = 0)
               then Some (blake2b512 (block_at file B k))
               else H !! k.
Proof.
  intros HB Hsize Hmax Hj m.
  induction m as [m IH] using (well_founded_induction lt_wf).
  intros i H Hm Hi. destruct (decide (i < size)) as [Hlt|Hge].
  - destruct (IH (Z.to_nat (size - (i + B))) ltac:(lia) (i + B)
                (<[i := blake2b512 (block_at file B i)]> H) eq_refl ltac:(lia))
      as (H' & Hrun & Hlook).
    exists H'. split.
    + eapply rtc_l.
      { apply producer_push; [exact Hlt|cbn; lia]. }
      cbn [app blockSize].
      rewrite wrap64_id by (unfold in_int64, int64_min, int64_max in *; lia).
      eapply rtc_l.
      { apply (worker_hashed blake2b512 file _ i [] _ _ _ _ _ _ j Hj).
        cbn [blockSize]. unfold block_at.
        intros Hnil. apply (f_equal length) in Hnil.
        rewrite length_take, length_drop in Hnil. cbn in Hnil. lia. }
      eapply rtc_l.
      { eapply (worker_sent blake2b512 file _ _ _ [] _ _ _ _ j).
        - apply list_lookup_insert_eq. by eapply lookup_lt_Some.
        - cbn. lia. }
      rewrite list_insert_insert_eq, list_insert_id by done. cbn [app blockSize].
      eapply rtc_l; [apply main_receive|]. exact Hrun.
    + intros k. rewrite Hlook.
      destruct (decide (k = i)) as [->|Hne].
      * rewrite decide_False by lia. rewrite lookup_insert_eq.
        rewrite decide_True; [done|]. rewrite Z.sub_diag. split; [lia|done].
      * rewrite lookup_insert_ne by done.
        assert (Hmod : (k - (i + B)) mod B = (k - i) mod B).
        { replace (k - (i + B)) with (k - i + (-1) * B) by lia.
          apply Z_mod_plus_full. }
        destruct (decide (i + B <= k < size ∧ (k - (i + B)) mod B = 0))
          as [[Hk Hz]|Hno].
        -- rewrite decide_True; [done|]. split; [lia|]. by rewrite <- Hmod.
        -- rewrite decide_False; [done|]. intros [Hk Hz]. apply Hno.
           split; [|by rewrite Hmod].
           destruct (decide (k - i < B)) as [Hsmall|]; [|lia].
           rewrite Z.mod_small in Hz by lia. lia.
  - exists H. split.
    + apply rtc_once. apply producer_close. done.
    + intros k. rewrite decide_False; [done|]. lia.
Qed.

(** The workers that are left return once the queue is closed and
    drained. *)
Lemma drain (f : FileHasher) (todo : list worker) :
  Forall (fun w => w = Opening ∨ w = Ranging) todo ->
  ∀ (done : list worker) (n : Z),
    rtc (HashFile_step blake2b512 file)
      (mkHashRun f [] None [] n (done ++ todo) Waiting Selecting)
      (mkHashRun f [] None [] (n - Z.of_nat (length todo))
         (done ++ replicate (length todo) Exited) Waiting Selecting).
Proof.
  induction 1 as [|w todo Hw _ IH]; intros done n.
  - cbn. rewrite Z.sub_0_r. done.
  - assert (Hfin :
      rtc (HashFile_step blake2b512 file)
        (mkHashRun f [] None [] n (done ++ Ranging :: todo) Waiting Selecting)
        (mkHashRun f [] None [] (n - Z.of_nat (length (w :: todo)))
           (done ++ replicate (length (w :: todo)) Exited) Waiting Selecting)).
    { eapply rtc_l.
      { apply (worker_finished blake2b512 file _ _ _ _ _ _ (length done)).
        by apply list_lookup_middle. }
      rewrite insert_app_r_alt by lia. rewrite Nat.sub_diag.
      cbn [insert list_insert length replicate].
      replace (done ++ Exited :: todo) with ((done ++ [Exited]) ++ todo)
        by (by rewrite <- app_assoc).
      replace (done ++ Exited :: replicate (length todo) Exited)
        with ((done ++ [Exited]) ++ replicate (length todo) Exited)
        by (by rewrite <- app_assoc).
      replace (n - Z.of_nat (S (length todo)))
        with (n - 1 - Z.of_nat (length todo)) by lia.
      apply IH. }
    destruct Hw as [->| ->]; [|exact Hfin].
    eapply rtc_l; [|exact Hfin].
    replace (done ++ Ranging :: todo)
      with (<[length done := Ranging]> (done ++ Opening :: todo)).
    + apply worker_opened. by apply list_lookup_middle.
    + rewrite insert_app_r_alt by lia. by rewrite Nat.sub_diag.
Qed.

(** X22: when the file has at least one whole block, [HashFile] can hash all
    of it: there is a run that returns [(size, nil)] and leaves, for every
    multiple of the block size below the file size, the digest of the
    block that starts there, the last one shorter when the file does not
    end on a block boundary; other entries of the map stay as they
    were. *)
Theorem HashFile_can_hash_every_block (f : FileHasher) :
  let B := blockSize f in
  let size := Z.of_nat (length (content file)) in
  open_error file = None ->
  0 < B -> B <= size -> size + B <= int64_max ->
  ∃ f',
    HashFile blake2b512 file f f' (size, None)
    ∧ blockSize f' = B ∧ fileSize f' = size
    ∧ ∀ k, hashes f' !! k
           = if decide (0 <= k < size ∧ k mod B = 0)
             then Some (blake2b512 (block_at file B k))
             else hashes f !! k.
Proof.
  intros B size Hopen HB Hsize Hmax.
  set (count := Z.min defaultConcurrency (size ÷ B)).
  assert (Hquot : 1 <= size ÷ B).
  { rewrite Z.quot_div_nonneg by lia. apply Z.div_le_lower_bound; lia. }
  assert (Hcount : 1 <= count) by (unfold count, defaultConcurrency; lia).
  set (c := Z.to_nat count).
  assert (Hc : (1 <= c)%nat) by lia.
  set (f1 := mkFileHasher (hashes f) B size).
  assert (Hcnt : FileHasher.concurrentHashCount f1 (fileSize f1) = Ok count).
  { unfold FileHasher.concurrentHashCount. cbn. by rewrite decide_False by lia. }
  pose proof (spawn_exact f1 [] (Some 0) [] Waiting count c Hcnt 0 0 []
                ltac:(unfold c; f_equal; lia)) as Hspawn.
  cbn [app] in Hspawn. rewrite Z.add_0_l in Hspawn.
  destruct c as [|c']; [lia|]. cbn [replicate] in Hspawn.
  set (ws := Ranging :: replicate c' Opening).
  destruct (hash_from B size (Z.of_nat (S c')) ws 0 HB eq_refl Hmax eq_refl
              (Z.to_nat (size - 0)) 0 (hashes f) eq_refl ltac:(lia))
    as (H' & Hhash & Hlook).
  pose proof (drain (mkFileHasher H' B size) ws
                ltac:(unfold ws; constructor; [by right|];
                      apply Forall_replicate; by left)
                [] (Z.of_nat (S c'))) as Hdrain.
  cbn [app] in Hdrain.
  replace (Z.of_nat (S c') - Z.of_nat (length ws)) with 0 in Hdrain
    by (unfold ws; cbn [length]; rewrite length_replicate; lia).
  exists (mkFileHasher H' B size). split; [|split; [done|split; [done|]]].
  - change (mkFileHasher H' B size)
      with (hasher_of (mkHashRun (mkFileHasher H' B size) [] None [] 0
                         (replicate (length ws) Exited) Gone
                         (Returned (fileSize (mkFileHasher H' B size)) None))).
    eapply HashFile_returned.
    + unfold getFileSize. by rewrite Hopen.
    + unfold HashFile_start. fold B size f1.
      etrans; [exact Hspawn|].
      eapply rtc_l.
      { apply (worker_opened blake2b512 file _ _ _ _ _ _ _ _ 0%nat). done. }
      cbn [insert list_insert]. fold ws.
      etrans; [exact Hhash|]. etrans; [exact Hdrain|].
      eapply rtc_l; [apply waiter_wake|]. apply rtc_once. apply main_done.
    + done.
  - intros k. rewrite Hlook. rewrite Z.sub_0_r. done.
Qed.

End HashFileComplete.

Lemma HashFile_can_hash_every_block_witness :
  open_error two_block_file = None
  ∧ 0 < blockSize (NewFileHasher 4)
  ∧ blockSize (NewFileHasher 4) <= Z.of_nat (length (content two_block_file))
  ∧ ∃ f',
      HashFile (fun b => b) two_block_file (NewFileHasher 4) f' (8, None)
      ∧ hashes f' !! 0 = Some [x00; x00; x00; x00]
      ∧ hashes f' !! 4 = Some [x01; x02; x03; x04]
      ∧ hashes f' !! 8 = None.
Proof.
  assert (HB : 0 < blockSize (NewFileHasher 4)) by (simpl; lia).
  assert (Hsize : blockSize (NewFileHasher 4)
                  <= Z.of_nat (length (content two_block_file)))
    by (simpl; lia).
  assert (Hmax : Z.of_nat (length (content two_block_file))
                 + blockSize (NewFileHasher 4) <= int64_max)
    by (unfold int64_max; simpl; lia).
  split; [reflexivity|]. split; [exact HB|]. split; [exact Hsize|].
  destruct (HashFile_can_hash_every_block (fun b => b) two_block_file
              (NewFileHasher 4) eq_refl HB Hsize Hmax)
    as (f' & Hrun & _ & _ & Hlook).
  exists f'. split; [exact Hrun|].
  split; [exact (Hlook 0)|]. split; [exact (Hlook 4)|exact (Hlook 8)].
Defined.

(** * The target's server *)

Lemma check_sys_calls (c : syscall) (f : os_File) :
  (check (sys c) f).1 = called_all f [c].
Proof. unfold check. rewrite sys_called. by destruct (fault f _ _). Qed.

Lemma handleEmptyBlock_calls (b : BlockrsyncServer) (off : Z) (f : os_File) :
  ∃ cs, (BlockrsyncServer.handleEmptyBlock b off f).1 = called_all f cs.
Proof.
  unfold BlockrsyncServer.handleEmptyBlock. destruct (Preallocation (opts b)).
  - case_decide.
    + exists []. by rewrite called_all_nil.
    + eexists. apply check_sys_calls.
  - eexists. unfold ignore_error. cbn [fst]. by rewrite PunchHole_called.
Qed.

Lemma writeBlockToOffset_calls (block : bytes) (off : Z) (f : os_File) :
  ∃ cs, (BlockrsyncServer.writeBlockToOffset block off f).1 = called_all f cs.
Proof.
  unfold BlockrsyncServer.writeBlockToOffset, mbind, Exec_bind.
  pose proof (check_sys_calls (Lseek off) f) as H1.
  destruct (check (sys (Lseek off)) f) as [f1 [[]| |]]; cbn [fst] in *; eauto.
  rewrite check_sys_calls, H1, called_all_app. eauto.
Qed.

Lemma truncateFileIfNeeded_calls (b : BlockrsyncServer) (sourceSize targetSize : Z)
  (f : os_File) :
  ∃ cs,
    (BlockrsyncServer.truncateFileIfNeeded b sourceSize targetSize f).1
    = called_all f cs.
Proof.
  unfold BlockrsyncServer.truncateFileIfNeeded, BlockrsyncServer.Stat.
  unfold mbind, Exec_bind. rewrite sys_called.
  change (called f Fstat) with (called_all f [Fstat]).
  destruct (fault f (calls f) Fstat); [eauto|].
  repeat case_decide.
  - rewrite check_sys_calls, called_all_app. eauto.
  - unfold ignore_error. cbn [fst]. rewrite PunchHole_called.
    change (called (called_all f [Fstat]) ?c) with (called_all (called_all f [Fstat]) [c]).
    rewrite called_all_app. eauto.
  - eauto.
Qed.

Lemma receive_calls (b : BlockrsyncServer) (fuel : nat) :
  ∀ (br br' : BlockReader) (f f' : os_File) (r : outcome unit),
    BlockrsyncServer.receive fuel b br f = Some (br', f', r) ->
    ∃ cs, f' = called_all f cs.
Proof.
  induction fuel as [|fuel IH]; intros br br' f f' r; [done|].
  cbn [BlockrsyncServer.receive].
  destruct (BlockReader.Next br) as [br1 [cont [err|]]].
  { intros [= _ <- _]. exists []. by rewrite called_all_nil. }
  match goal with |- context [let '(_, _) := ?m f in _] =>
    assert (Hcs : ∃ cs, (m f).1 = called_all f cs) end.
  { destruct (BlockReader.IsHole br1);
      [apply handleEmptyBlock_calls|apply writeBlockToOffset_calls]. }
  destruct Hcs as [cs Hcs].
  match goal with |- context [let '(_, _) := ?m f in _] =>
    destruct (m f) as [f1 [[]|e1|]] end; cbn [fst] in Hcs; subst f1.
  - destruct cont.
    + intros Hrec. apply IH in Hrec as [cs' ->].
      rewrite called_all_app. eauto.
    + intros [= _ <- _]. eauto.
  - intros [= _ <- _]. eauto.
  - intros [= _ <- _]. eauto.
Qed.

Lemma writeBlocksToFile_calls (b b' : BlockrsyncServer) (f f' : os_File)
  (reader rd : Reader) (r : outcome unit) :
  BlockrsyncServer.writeBlocksToFile b f reader = Some (b', f', rd, r) ->
  ∃ cs, f' = called_all f cs.
Proof.
  unfold BlockrsyncServer.writeBlocksToFile.
  destruct (binary_Read reader) as [rd1 [sourceSize|e]].
  2:{ intros [= _ <- _ _]. exists []. by rewrite called_all_nil. }
  match goal with |- context [BlockrsyncServer.truncateFileIfNeeded ?b1 ?s ?t f] =>
    destruct (truncateFileIfNeeded_calls b1 s t f) as [cs Hcs];
    destruct (BlockrsyncServer.truncateFileIfNeeded b1 s t f) as [f1 [[]|e|]]
  end; cbn [fst] in Hcs; subst f1.
  - destruct (NewBlockReader _ _) as [br| |]; [|intros [= _ <- _ _]; eauto..].
    destruct (BlockrsyncServer.receive _ _ br _) as [[[br' f2] r2]|] eqn:Hrecv;
      [|done].
    cbn [mbind option_bind]. intros [= _ <- _ _].
    apply receive_calls in Hrecv as [cs' ->]. rewrite called_all_app. eauto.
  - intros [= _ <- _ _]. eauto.
  - intros [= _ <- _ _]. eauto.
Qed.

(** X23: when [StartServer] returns nil, the target file was opened and the
    connection accepted, and either the hashes of the two sides matched,
    in which case [StartServer] wrote nothing through its Snappy writer
    (the hash list is not sent; the exchange that [CompareHashHash] makes
    on the raw connection is apart from this) and made no call on the
    file, or the hashes were written in full, the calls made on the file
    come after those made before, and the last of them is a [Sync] that
    succeeded. *)
Theorem StartServer_success {W : Type} `{Writer W}
  (range : gmap Z bytes -> list (Z * bytes)) (b b' : BlockrsyncServer)
  (env : ServerEnv) (w w' : W) (file : option os_File) :
  BlockrsyncServer.StartServer range b env w = Some (b', w', file, Ok tt) ->
  ∃ f conn,
    env_open env = inl f ∧ env_listen env = None ∧ env_accept env = inl conn
    ∧ ((env_compare env = inl true ∧ file = Some f ∧ w' = w)
       ∨ (env_compare env = inl false
          ∧ FileHasher.SerializeHashes range (env_hashed env).1 w = (w', Ok tt)
          ∧ ∃ cs,
              file = Some (called_all f (cs ++ [Fsync]))
              ∧ fault f (calls f ++ cs) Fsync = None)).
Proof.
  unfold BlockrsyncServer.StartServer.
  destruct (env_open env) as [f|e]; [|done].
  destruct (env_hashed env) as [hasher' [size hash_err]]. cbn [fst snd].
  destruct (env_listen env) as [e|]; [done|].
  destruct (env_accept env) as [conn|e]; [|done].
  destruct (env_compare env) as [[|]|e]; [| |done].
  - intros [= <- <- <-]. exists f, conn. split_and!; try done. by left.
  - unfold BlockrsyncServer.writeHashes. cbn [hasher].
    destruct (FileHasher.SerializeHashes range hasher' w) as [w1 [[]| |]] eqn:Hw;
      [|done..].
    destruct (BlockrsyncServer.writeBlocksToFile _ f conn)
      as [[[[b1 f1] rd] r]|] eqn:Hrecv; [|done].
    apply writeBlocksToFile_calls in Hrecv as [cs ->].
    cbn [mbind option_bind]. destruct r as [[]| |]; [|done..].
    rewrite sys_called. cbn [calls called_all fault].
    destruct (fault f (calls f ++ cs) Fsync) as [e|] eqn:Hsync; [done|].
    intros [= <- <- <-]. exists f, conn. split_and!; try done. right.
    split; [done|]. split; [done|]. exists cs. split; [|done].
    unfold called, called_all. cbn. by rewrite <- app_assoc.
Qed.

Lemma StartServer_success_witness :
  ∃ b' file,
    BlockrsyncServer.StartServer map_to_list punching_server
      (serving regular_file one_hole_stream) ([] : bytes)
    = Some (b', put_int64 4 ++ put_int64 0, file, Ok tt)
    ∧ ∃ cs,
        file = Some (called_all regular_file (cs ++ [Fsync]))
        ∧ fault regular_file (calls regular_file ++ cs) Fsync = None.
Proof.
  eexists _, _.
  assert (Hrun : BlockrsyncServer.StartServer map_to_list punching_server
                   (serving regular_file one_hole_stream) ([] : bytes)
                 = Some (BlockrsyncServer.set_targetFileSize punching_server 8,
                         put_int64 4 ++ put_int64 0,
                         Some (called_all regular_file
                                 [Fstat; Ftruncate 8; Fallocate 3 0 4;
                                  Fallocate 3 0 4; Fsync]),
                         Ok tt))
    by (vm_compute; reflexivity).
  split; [exact Hrun|].
  destruct (StartServer_success map_to_list punching_server _
              (serving regular_file one_hole_stream) [] _ _ Hrun)
    as (f & conn & Hopen & _ & _ & [(Hcmp & _)|(_ & _ & Hsync)]).
  - discriminate Hcmp.
  - injection Hopen as <-. exact Hsync.
Defined.
